(** * Verification of torchshapelets/discrepancies.py

    A shallow embedding of the discrepancy modules of torchshapelets
    (LogsignatureDiscrepancy and L2Discrepancy) on top of a small model of
    the PyTorch tensor operations they use.  Tensors are modelled the way
    PyTorch stores them: a tensor object is metadata (shape, strides,
    offset) pointing into a storage; views share the storage, in-place
    metadata operations (unsqueeze_) change the object itself.  The heap of
    tensor objects and storages is threaded explicitly through a
    state-and-exception monad. *)

From Stdlib Require Import ZArith Lia List String Bool Reals Lra.
From stdpp Require Import base gmap list strings pretty.

Import ListNotations.

(** ** Tensor heap model *)
Module Torch.

(** Python exceptions raised on the paths we model. *)
Inductive exn :=
| RuntimeError      (* shape mismatch in cat / view / expand / matmul *)
| IndexError        (* dimension out of range *)
| TypeError         (* e.g. [tensor @ None] *)
| AssertionError
| ImportError
| ShapeError        (* error taxonomy of the spec, used by the spec-modelled kernel *)
| Dangling.         (* a reference without an object: never raised by Python *)

Record tensor_meta := TensorMeta {
  t_shape : list nat;
  t_stride : list nat;
  t_offset : nat;
  t_storage : nat
}.

Section Heap.
Context {A : Type}.

(** Tensor objects and storages are both allocated from [h_next]. *)
Record heap := Heap {
  h_tensors : gmap nat tensor_meta;
  h_storages : gmap nat (nat -> A);
  h_next : nat
}.

(** A computation ends with a value or an exception, and in both cases with
    the heap as it is at that point (an exception does not undo effects). *)
Definition M (X : Type) := heap -> (exn * heap) + (X * heap).

Definition ret {X} (x : X) : M X := fun h => inr (x, h).
Definition bind {X Y} (m : M X) (k : X -> M Y) : M Y :=
  fun h => match m h with inl eh => inl eh | inr (x, h') => k x h' end.
Definition raise {X} (e : exn) : M X := fun h => inl (e, h).

End Heap.
Arguments heap : clear implicits.
Arguments M : clear implicits.

Notation "'let!' x ':=' m 'in' k" := (bind m (fun x => k))
  (at level 200, x name, m at level 100, k at level 200).
Notation "'let!' ' p ':=' m 'in' k" := (bind m (fun x => match x with p => k end))
  (at level 200, p pattern, m at level 100, k at level 200).

(** *** Shapes and strides *)

Definition numel (s : list nat) : nat := fold_right Nat.mul 1 s.

(** Row-major strides as PyTorch computes them (a size-0 dimension counts
    as 1). *)
Fixpoint contiguous_strides (s : list nat) : list nat :=
  match s with
  | [] => []
  | _ :: s' => numel (map (Nat.max 1) s') :: contiguous_strides s'
  end.

Fixpoint dot (idx st : list nat) : nat :=
  match idx, st with
  | i :: idx', s :: st' => i * s + dot idx' st'
  | _, _ => 0
  end.

(** Index of the element stored at position [j] of a contiguous tensor. *)
Fixpoint unravel (s : list nat) (j : nat) : list nat :=
  match s with
  | [] => []
  | _ :: s' =>
      let w := numel (map (Nat.max 1) s') in
      j / w :: unravel s' (j mod w)
  end.

Definition in_bounds (idx s : list nat) : Prop := Forall2 lt idx s.

(** Normalise a possibly negative dimension for a tensor of [n] dims. *)
Definition wrap_dim (d : Z) (n : nat) : option nat :=
  if (d <? 0)%Z then
    (if (- Z.of_nat n <=? d)%Z then Some (Z.to_nat (d + Z.of_nat n)) else None)
  else if (d <? Z.of_nat n)%Z then Some (Z.to_nat d) else None.

Definition insert_at {X} (p : nat) (x : X) (l : list X) : list X :=
  firstn p l ++ x :: skipn p l.

(** [Tensor.unsqueeze(d)]: a size-1 dimension at position [d]; its stride is
    [size[d] * stride[d]], or 1 at the end (ATen's [inferUnsqueezeGeometry]). *)
Definition unsqueeze_meta (m : tensor_meta) (d : Z) : option tensor_meta :=
  let n := length (t_shape m) in
  match wrap_dim d (S n) with
  | None => None
  | Some p =>
      let st := if p <? n then nth p (t_shape m) 0 * nth p (t_stride m) 0 else 1 in
      Some (TensorMeta (insert_at p 1 (t_shape m)) (insert_at p st (t_stride m))
              (t_offset m) (t_storage m))
  end.

(** [Tensor.expand(sizes...)] (ATen's [inferExpandGeometry]), on the
    innermost-first (reversed) lists.  [prev] is [size * stride] of the
    dimension just processed; a new leading dimension has size 1 and that
    stride.  A size-1 dimension expanded to another size gets stride 0. *)
Fixpoint expand_rev (sizes shape stride : list nat) (prev : nat)
    : option (list nat * list nat) :=
  match sizes with
  | [] => match shape with [] => Some ([], []) | _ => None end
  | t :: sizes' =>
      let '(sz, st, shape', stride') :=
        match shape, stride with
        | s :: sh, d :: sd => (s, d, sh, sd)
        | _, _ => (1, prev, [], [])
        end in
      let '(sz2, st2, ok) :=
        if sz =? t then (sz, st, true)
        else if sz =? 1 then (t, 0, true) else (sz, st, false) in
      if ok then
        match expand_rev sizes' shape' stride' (sz2 * st2) with
        | Some (a, b) => Some (sz2 :: a, st2 :: b)
        | None => None
        end
      else None
  end.

Definition expand_meta (m : tensor_meta) (sizes : list nat) : option tensor_meta :=
  match expand_rev (rev sizes) (rev (t_shape m)) (rev (t_stride m)) 1 with
  | Some (a, b) => Some (TensorMeta (rev a) (rev b) (t_offset m) (t_storage m))
  | None => None
  end.

(** The sizes of [Tensor.view(sizes...)], with at most one [-1] (written
    [None]) inferred from the number of elements (ATen's [infer_size]). *)
Definition infer_size (sizes : list (option nat)) (n : nat) : option (list nat) :=
  let known := fold_right (fun o acc => match o with Some k => k * acc | None => acc end) 1 sizes in
  match length (List.filter (fun o => match o with None => true | _ => false end) sizes) with
  | 0 => if known =? n then Some (map (fun o => default 0 o) sizes) else None
  | 1 => if (known =? 0) || negb (n mod known =? 0) then None
         else Some (map (fun o => default (n / known) o) sizes)
  | _ => None
  end.

(** The strides of a view (ATen's [computeStride]).  The old dimensions are
    scanned innermost first and grouped into chunks of dimensions that are
    contiguous with one another; each chunk is covered by view dimensions
    whose sizes multiply to the chunk's size.  The lists below are the
    reversed (innermost-first) shapes and strides.

    [view_dims] is the inner [while] loop: it gives the next view dimensions
    the strides [view_numel * chunk_base_stride] while [view_numel] is below
    [tensor_numel] or the view size is 1; it returns the strides it
    assigned, the view sizes left and the final [view_numel]. *)
Fixpoint view_dims (vs : list nat) (view_numel tensor_numel chunk_base_stride : nat)
    : list nat * list nat * nat :=
  match vs with
  | v :: vs' =>
      if (view_numel <? tensor_numel) || (v =? 1) then
        let '(a, r, n) := view_dims vs' (view_numel * v) tensor_numel chunk_base_stride in
        (view_numel * chunk_base_stride :: a, r, n)
      else ([], vs, view_numel)
  | [] => ([], [], view_numel)
  end.

(** The outer loop over the old [(size, stride)] pairs.  A chunk ends at the
    outermost dimension, or when the next (outer) dimension has a size other
    than 1 and a stride other than [tensor_numel * chunk_base_stride]. *)
Fixpoint stride_chunks (old : list (nat * nat)) (vs : list nat)
    (chunk_base_stride tensor_numel : nat) : option (list nat) :=
  match old with
  | [] => Some []
  | (sz, _) :: old' =>
      let tensor_numel := tensor_numel * sz in
      let chunk_end :=
        match old' with
        | [] => true
        | (sz', st') :: _ => negb (sz' =? 1) && negb (st' =? tensor_numel * chunk_base_stride)
        end in
      if chunk_end then
        let '(a, rest, view_numel) := view_dims vs 1 tensor_numel chunk_base_stride in
        if negb (view_numel =? tensor_numel) then None
        else match old' with
             | [] => match rest with [] => Some a | _ => None end
             | (_, st') :: _ => option_map (app a) (stride_chunks old' rest st' 1)
             end
      else stride_chunks old' vs chunk_base_stride tensor_numel
  end.

(** [computeStride(oldshape, oldstride, newshape)]: all 1s for a 0-dim
    tensor; for a tensor without elements the old strides when the shape is
    unchanged, the row-major strides otherwise; [None] when the view cannot
    be expressed with strides. *)
Definition compute_stride (oldshape oldstride newshape : list nat) : option (list nat) :=
  match oldshape with
  | [] => Some (repeat 1 (length newshape))
  | _ =>
      if numel oldshape =? 0 then
        (if bool_decide (oldshape = newshape) then Some oldstride
         else Some (contiguous_strides newshape))
      else match rev oldstride with
           | [] => None
           | base :: _ =>
               option_map (@rev nat)
                 (stride_chunks (rev (combine oldshape oldstride)) (rev newshape) base 1)
           end
  end.

(** Broadcasting of two shapes (aligned on the right). *)
Fixpoint broadcast_rev (s1 s2 : list nat) : option (list nat) :=
  match s1, s2 with
  | [], s | s, [] => Some s
  | a :: s1', b :: s2' =>
      match broadcast_rev s1' s2' with
      | None => None
      | Some r =>
          if a =? b then Some (a :: r)
          else if a =? 1 then Some (b :: r)
          else if b =? 1 then Some (a :: r) else None
      end
  end.

Definition broadcast_shapes (s1 s2 : list nat) : option (list nat) :=
  option_map (@rev nat) (broadcast_rev (rev s1) (rev s2)).

(** Index into an operand of shape [s] for an index of the broadcast result. *)
Definition broadcast_index (s idx : list nat) : list nat :=
  zip_with (fun d i => if d =? 1 then 0 else i) s (skipn (length idx - length s) idx).

(** *** Primitive heap operations *)
Section Ops.
Context {A : Type}.

Definition meta_of (t : nat) : M A tensor_meta := fun h =>
  match h_tensors h !! t with Some m => inr (m, h) | None => inl (Dangling, h) end.

(** The element reader of a tensor object. *)
Definition data_of (t : nat) : M A (list nat -> A) := fun h =>
  match h_tensors h !! t with
  | None => inl (Dangling, h)
  | Some m =>
      match h_storages h !! t_storage m with
      | None => inl (Dangling, h)
      | Some s => inr (fun idx => s (t_offset m + dot idx (t_stride m)), h)
      end
  end.

(** A fresh contiguous tensor with a fresh storage holding [f idx] at [idx]. *)
Definition alloc (shape : list nat) (f : list nat -> A) : M A nat := fun h =>
  let n := h_next h in
  inr (n, Heap (<[n := TensorMeta shape (contiguous_strides shape) 0 n]> (h_tensors h))
               (<[n := fun j => f (unravel shape j)]> (h_storages h))
               (S n)).

(** A fresh tensor object sharing an existing storage (a view). *)
Definition new_view (m : tensor_meta) : M A nat := fun h =>
  let n := h_next h in
  inr (n, Heap (<[n := m]> (h_tensors h)) (h_storages h) (S n)).

(** In-place change of a tensor object's metadata. *)
Definition set_meta (t : nat) (m : tensor_meta) : M A unit := fun h =>
  inr (tt, Heap (<[t := m]> (h_tensors h)) (h_storages h) (h_next h)).

Definition of_option {X} (e : exn) (o : option X) : M A X :=
  match o with Some x => ret x | None => raise e end.

Definition shape_of (t : nat) : M A (list nat) :=
  let! m := meta_of t in ret (t_shape m).

(** [Tensor.size(d)] *)
Definition size_at (t : nat) (d : Z) : M A nat :=
  let! s := shape_of t in
  let! p := of_option IndexError (wrap_dim d (length s)) in
  ret (nth p s 0).

(** [Tensor.unsqueeze(d)] *)
Definition unsqueeze (t : nat) (d : Z) : M A nat :=
  let! m := meta_of t in
  let! m' := of_option IndexError (unsqueeze_meta m d) in
  new_view m'.

(** [Tensor.unsqueeze_(d)] *)
Definition unsqueeze_ (t : nat) (d : Z) : M A nat :=
  let! m := meta_of t in
  let! m' := of_option IndexError (unsqueeze_meta m d) in
  let! _ := set_meta t m' in
  ret t.

(** [Tensor.expand(sizes...)] *)
Definition expand (t : nat) (sizes : list nat) : M A nat :=
  let! m := meta_of t in
  let! m' := of_option RuntimeError (expand_meta m sizes) in
  new_view m'.

(** [Tensor.view(sizes...)]: a view with the strides found by
    [compute_stride], RuntimeError when there are none. *)
Definition view (t : nat) (sizes : list (option nat)) : M A nat :=
  let! m := meta_of t in
  let! s := of_option RuntimeError (infer_size sizes (numel (t_shape m))) in
  let! st := of_option RuntimeError (compute_stride (t_shape m) (t_stride m) s) in
  new_view (TensorMeta s st (t_offset m) (t_storage m)).

(** [torch.cat([t1, t2], dim=-1)] *)
Definition cat_last (t1 t2 : nat) : M A nat :=
  let! s1 := shape_of t1 in
  let! s2 := shape_of t2 in
  let! g1 := data_of t1 in
  let! g2 := data_of t2 in
  match rev s1, rev s2 with
  | c1 :: r1, c2 :: r2 =>
      if bool_decide (r1 = r2) then
        alloc (rev r1 ++ [c1 + c2])
          (fun idx =>
             let pre := removelast idx in
             let c := List.last idx 0 in
             if c <? c1 then g1 (pre ++ [c]) else g2 (pre ++ [c - c1]))
      else raise RuntimeError
  | _, _ => raise RuntimeError
  end.

(** A broadcasting elementwise binary operation ([-], [*]). *)
Definition binop (f : A -> A -> A) (t1 t2 : nat) : M A nat :=
  let! s1 := shape_of t1 in
  let! s2 := shape_of t2 in
  let! g1 := data_of t1 in
  let! g2 := data_of t2 in
  let! s := of_option RuntimeError (broadcast_shapes s1 s2) in
  alloc s (fun idx => f (g1 (broadcast_index s1 idx)) (g2 (broadcast_index s2 idx))).

(** [t.norm(p=p, dim=-1)] *)
Definition norm_last {P} (norm : P -> list A -> A) (p : P) (t : nat) : M A nat :=
  let! s := shape_of t in
  let! g := data_of t in
  match rev s with
  | d :: r => alloc (rev r) (fun idx => norm p (map (fun k => g (idx ++ [k])) (seq 0 d)))
  | [] => raise IndexError
  end.

(** [t1 @ t2] for a 2-D right operand (the only one this code passes):
    [(..., d) @ (d, e) -> (..., e)], and [(d,) @ (d, e) -> (e,)]. *)
Definition matmul (zero : A) (add mul : A -> A -> A) (t1 t2 : nat) : M A nat :=
  let! s1 := shape_of t1 in
  let! s2 := shape_of t2 in
  let! g1 := data_of t1 in
  let! g2 := data_of t2 in
  match rev s1, s2 with
  | d1 :: r1, [d2; e] =>
      if d1 =? d2 then
        alloc (rev r1 ++ [e])
          (fun idx =>
             let pre := removelast idx in
             let k := List.last idx 0 in
             fold_right add zero (map (fun j => mul (g1 (pre ++ [j])) (g2 [j; k])) (seq 0 d1)))
      else raise RuntimeError
  | _, _ => raise RuntimeError
  end.

End Ops.

(** *** Scalars

    The element type is abstract: the code only subtracts, multiplies,
    adds (inside [@]) and takes p-norms of slices. *)
Class Scalar (A : Type) := {
  s_zero : A;
  s_add : A -> A -> A;
  s_sub : A -> A -> A;
  s_mul : A -> A -> A
}.

(** [Tensor.norm(p)] of one vector, for the norm parameter [p]. *)
Class PNorm (P A : Type) := p_norm : P -> list A -> A.

(** *** The signatory library (external collaborator)

    [logsignature_channels c depth] and the logsignature of one stream:
    [logsignature_stream depth length channels x k] is entry [k] of the
    depth-[depth] logsignature of the stream [x l c]
    ([l < length], [c < channels]). *)
Record signatory_lib (A : Type) := SignatoryLib {
  logsignature_channels : nat -> nat -> nat;
  logsignature_stream : nat -> nat -> nat -> (nat -> nat -> A) -> nat -> A
}.
Arguments SignatoryLib {A}.
Arguments logsignature_channels {A}.
Arguments logsignature_stream {A}.

(** [signatory.Logsignature(depth)(path)] on a path of shape
    [(batch, length, channels)]: one logsignature per batch row. *)
Definition logsignature_apply {A} `{Scalar A} (lib : signatory_lib A) (depth : nat) (t : nat)
    : M A nat :=
  let! s := shape_of t in
  let! g := data_of t in
  match s with
  | [n; l; c] =>
      alloc [n; logsignature_channels lib c depth]
        (fun idx => match idx with
                    | [b; k] => logsignature_stream lib depth l c (fun i j => g [b; i; j]) k
                    | _ => s_zero
                    end)
  | _ => raise RuntimeError
  end.

(** A heap holding the given contiguous tensors as objects [n], [n+1], ...
    (each in its own storage), used to state concrete calls. *)
Fixpoint heap_of {A} (dflt : A) (ts : list (list nat * list A)) (n : nat) : heap A :=
  match ts with
  | [] => Heap ∅ ∅ n
  | (s, d) :: ts' =>
      let h := heap_of dflt ts' (S n) in
      Heap (<[n := TensorMeta s (contiguous_strides s) 0 n]> (h_tensors h))
           (<[n := fun j => nth j d dflt]> (h_storages h)) (h_next h)
  end.

End Torch.

Import Torch.

(** ** Python string formatting *)
Module PyFormat.
Import Stdlib.Strings.Ascii.

(** [str] of a Python [bool]. *)
Definition py_bool (b : bool) : string := if b then "True" else "False".

(** [str] of a non-negative Python [int]: its decimal digits. *)
Definition py_int (n : nat) : string := pretty n.

(** [s] contains no comma. *)
Fixpoint no_comma (s : string) : bool :=
  match s with
  | EmptyString => true
  | String c s' => negb (Ascii.eqb c ","%char) && no_comma s'
  end.

End PyFormat.

Import PyFormat.

(** ** LogsignatureDiscrepancy *)
Module Logsig.
Section Logsig.
Context {A P : Type} `{Scalar A} `{PNorm P A}.

(** The attributes of a [LogsignatureDiscrepancy] instance;
    [logsignature] stands for [self.logsignature = signatory.Logsignature(depth)]. *)
Record logsignature_discrepancy := LogsignatureDiscrepancy {
  in_channels : nat;
  depth : nat;
  p : P;
  include_time : bool;
  pseudometric : bool;
  metric_type : string;
  linear : option nat;
  logsignature : signatory_lib A
}.

Definition metric_type_ok (metric_type : string) : bool :=
  String.eqb metric_type "general" || String.eqb metric_type "diagonal".

(** [LogsignatureDiscrepancy.__init__].  [signatory] is the module-level
    name ([None] when the import failed); [rand] stands for the random
    initialisation ([torch.randn] then [kaiming_uniform_] / [uniform_]). *)
Definition init (signatory : option (signatory_lib A)) (rand : list nat -> A)
    (in_channels depth : nat) (p : P) (include_time pseudometric : bool)
    (metric_type : string) : M A logsignature_discrepancy :=
  if negb (metric_type_ok metric_type) then raise AssertionError else
  match signatory with
  | None => raise ImportError
  | Some lib =>
      let! linear :=
        if pseudometric then
          let channels := if include_time then in_channels + 1 else in_channels in
          let lsc := logsignature_channels lib channels depth in
          let! l := if String.eqb metric_type "general"
                    then alloc [lsc; lsc] rand
                    else alloc [lsc] rand in
          ret (Some l)
        else ret None in
      ret (LogsignatureDiscrepancy in_channels depth p include_time pseudometric
             metric_type linear lib)
  end.

(** [LogsignatureDiscrepancy.extra_repr]; [fmt_p] stands for Python's
    [str] on the value of [p]. *)
Definition extra_repr (fmt_p : P -> string) (self : logsignature_discrepancy) : string :=
  "in_channels=" +:+ py_int (in_channels self) +:+
  ", depth=" +:+ py_int (depth self) +:+
  ", p=" +:+ fmt_p (p self) +:+
  ", include_time=" +:+ py_bool (include_time self) +:+
  ", pseudometric=" +:+ py_bool (pseudometric self) +:+
  ", pseudometric_type=" +:+ metric_type self.

(** [for dim in batch_dims:
       time_channel = time_channel.unsqueeze(0).expand(dim, *time_channel.shape)] *)
Fixpoint prepend_batch_dims (time_channel : nat) (batch_dims : list nat) : M A nat :=
  match batch_dims with
  | [] => ret time_channel
  | dim :: dims =>
      let! u := unsqueeze time_channel 0 in
      let! s := shape_of time_channel in
      let! e := expand u (dim :: s) in
      prepend_batch_dims e dims
  end.

(** [for _ in batch_dims: t.unsqueeze_(d)] *)
Fixpoint unsqueeze_each (t : nat) (d : Z) (batch_dims : list nat) : M A unit :=
  match batch_dims with
  | [] => ret tt
  | _ :: dims => let! _ := unsqueeze_ t d in unsqueeze_each t d dims
  end.

(** [LogsignatureDiscrepancy.forward] *)
Definition forward (self : logsignature_discrepancy) (times path1 path2 : nat) : M A nat :=
  let! s1 := shape_of path1 in
  let! s2 := shape_of path2 in
  let path1_batch_dims := firstn (length s1 - 2) s1 in
  let path2_batch_dims := firstn (length s2 - 2) s2 in
  let! '(path1, path2) :=
    if include_time self then
      let! time_channel := unsqueeze times (-1) in
      let! time_channel1 := prepend_batch_dims time_channel path1_batch_dims in
      let! time_channel2 := prepend_batch_dims time_channel path2_batch_dims in
      let! path1 := cat_last time_channel1 path1 in
      let! path2 := cat_last time_channel2 path2 in
      ret (path1, path2)
    else ret (path1, path2) in
  let! l1 := size_at path1 (-2) in
  let! c1 := size_at path1 (-1) in
  let! path1 := view path1 [None; Some l1; Some c1] in
  let! l2 := size_at path2 (-2) in
  let! c2 := size_at path2 (-1) in
  let! path2 := view path2 [None; Some l2; Some c2] in
  let! logsignature1 := logsignature_apply (logsignature self) (depth self) path1 in
  let! logsignature2 := logsignature_apply (logsignature self) (depth self) path2 in
  let! d1 := size_at logsignature1 (-1) in
  let! logsignature1 := view logsignature1 (map Some path1_batch_dims ++ [Some d1]) in
  let! d2 := size_at logsignature2 (-1) in
  let! logsignature2 := view logsignature2 (map Some path2_batch_dims ++ [Some d2]) in
  let! _ := unsqueeze_each logsignature2 0 path1_batch_dims in
  let! _ := unsqueeze_each logsignature1 (-2) path2_batch_dims in
  let! d := size_at logsignature1 (-1) in
  let! logsignature1 := expand logsignature1 (path1_batch_dims ++ path2_batch_dims ++ [d]) in
  let! d' := size_at logsignature1 (-1) in
  let! logsignature2 := expand logsignature2 (path1_batch_dims ++ path2_batch_dims ++ [d']) in
  let! logsignature_diff := binop s_sub logsignature1 logsignature2 in
  let! logsignature_diff :=
    if pseudometric self then
      match linear self with
      | None => raise TypeError
      | Some lin =>
          if String.eqb (metric_type self) "general"
          then matmul s_zero s_add s_mul logsignature_diff lin
          else binop s_mul logsignature_diff lin
      end
    else ret logsignature_diff in
  norm_last p_norm (p self) logsignature_diff.

End Logsig.
End Logsig.

(** ** L2Discrepancy *)
Module L2.
Section L2.
Context {A : Type}.

(** The attributes of an [L2Discrepancy] instance. *)
Record l2_module := L2Discrepancy {
  in_channels : nat;
  pseudometric : bool;
  metric_type : string;
  arg : nat
}.

Definition metric_type_ok (metric_type : string) : bool :=
  String.eqb metric_type "general" || String.eqb metric_type "diagonal".

(** [L2Discrepancy.__init__]; [rand] stands for the initial contents
    ([kaiming_uniform_], [uniform_], or uninitialised [torch.empty(())]). *)
Definition init (rand : list nat -> A) (in_channels : nat) (pseudometric : bool)
    (metric_type : string) : M A l2_module :=
  if negb (metric_type_ok metric_type) then raise AssertionError else
  let! arg :=
    if pseudometric then
      if String.eqb metric_type "general"
      then alloc [in_channels; in_channels] rand
      else alloc [in_channels] rand
    else alloc [] rand in
  ret (L2Discrepancy in_channels pseudometric metric_type arg).

(** [L2Discrepancy.extra_repr]. *)
Definition extra_repr (self : l2_module) : string :=
  "in_channels=" +:+ py_int (in_channels self) +:+
  ", pseudometric=" +:+ py_bool (pseudometric self).

(** [CppDiscrepancy.forward]: [self.fn(time, path1, path2, self.arg)], with
    the class attribute [fn] passed explicitly. *)
Definition forward (fn : nat -> nat -> nat -> nat -> M A nat) (self : l2_module)
    (time path1 path2 : nat) : M A nat :=
  fn time path1 path2 (arg self).

(** A caller invoking [forward] once per [(time, path1, path2)]. *)
Fixpoint forward_each (fn : nat -> nat -> nat -> nat -> M A nat) (self : l2_module)
    (calls : list (nat * nat * nat)) : M A (list nat) :=
  match calls with
  | [] => ret []
  | (time, path1, path2) :: calls' =>
      let! r := forward fn self time path1 path2 in
      let! rs := forward_each fn self calls' in
      ret (r :: rs)
  end.

End L2.

Section Kernel.
Local Open Scope R_scope.

Definition sumR (l : list R) : R := fold_right Rplus 0 l.

(** The pseudometric [A] given by the parameter: identity for a
    0-dimensional [arg], [diag(arg)] for a vector, and the matrix [arg]
    acting on row vectors ([x @ arg]) otherwise. *)
Definition apply_pseudometric (arg_shape : list nat) (ga : list nat -> R) (C : nat)
    (x : nat -> R) (k : nat) : R :=
  match arg_shape with
  | [] => x k
  | [_] => x k * ga [k]
  | _ => sumR (map (fun j => x j * ga [j; k]) (seq 0 C))
  end.

Definition strictly_increasing (g : nat -> R) (L : nat) : bool :=
  forallb (fun i => if Rlt_dec (g i) (g (S i)) then true else false) (seq 0 (L - 1)).

(** Closed form of [int_0^h ||e0 + (t/h)(e1 - e0)||^2 dt]. *)
Definition segment (h : R) (C : nat) (e0 e1 : nat -> R) : R :=
  h / 3 * sumR (map (fun k => e0 k * e0 k + e0 k * e1 k + e1 k * e1 k) (seq 0 C)).

(** Modelled from the spec: the native kernel [_impl.l2_discrepancy]
    (its C++ source is not part of this snapshot).  Per the spec (4.2, 7):
    a [ShapeError] is raised, before any tensor is produced, when [path2]
    has a batch dimension, when [time] is not strictly increasing, or when
    the channel counts differ; otherwise the result has the batch shape of
    [path1] and holds [sqrt (int ||A (f t - g t)||^2 dt)] for the
    piecewise-linear interpolants, summed segment by segment in closed
    form. *)
Definition l2_discrepancy (time path1 path2 arg : nat) : M R nat :=
  let! st := shape_of time in
  let! s1 := shape_of path1 in
  let! s2 := shape_of path2 in
  let! sa := shape_of arg in
  let! gt := data_of time in
  let! g1 := data_of path1 in
  let! g2 := data_of path2 in
  let! ga := data_of arg in
  match st, rev s1, s2 with
  | [L], C1 :: _ :: rb, [_; C2] =>
      if negb (C1 =? C2)%nat then raise ShapeError
      else if negb (strictly_increasing (fun i => gt [i]) L) then raise ShapeError
      else
        alloc (rev rb) (fun b =>
          let e i := apply_pseudometric sa ga C1 (fun k => g1 (b ++ [i; k]) - g2 [i; k]) in
          sqrt (sumR (map (fun i => segment (gt [S i] - gt [i]) C1 (e i) (e (S i)))
                          (seq 0 (L - 1)))))
  | _, _, _ => raise ShapeError
  end.

End Kernel.
End L2.

(** ** Reading a tensor through its strides

    Tools for the proofs about [compute_stride].  [rdot r st j] is the
    storage position of the element at row-major position [j] of a tensor
    with the innermost-first sizes [r] and strides [st]. *)
Module StrideRead.
Import Torch.

Fixpoint rdot (r st : list nat) (j : nat) : nat :=
  match r, st with
  | a :: r', t :: st' => j mod a * t + rdot r' st' (j / a)
  | _, _ => 0
  end.

(** The strides [view_dims] gives the view sizes [q] it consumes. *)
Fixpoint pstrides (vn b : nat) (q : list nat) : list nat :=
  match q with
  | [] => []
  | v :: q' => vn * b :: pstrides (vn * v) b q'
  end.

(** The innermost-first sizes [p] with strides [ps] are one chunk of base
    stride [b]: each dimension of a size other than 1 has the stride [b]
    times the number of elements inside it. *)
Fixpoint chunk_ok (vn b : nat) (p ps : list nat) : Prop :=
  match p, ps with
  | v :: p', s :: ps' => (v = 1 \/ s = vn * b) /\ chunk_ok (vn * v) b p' ps'
  | _, _ => True
  end.

(** The same for the [(size, stride)] pairs of [stride_chunks], every
    stride being the chunk's one. *)
Fixpoint one_chunk (tn b : nat) (o : list (nat * nat)) : Prop :=
  match o with
  | [] => True
  | (sz, st) :: o' => st = tn * b /\ one_chunk (tn * sz) b o'
  end.

End StrideRead.

(** ** Frames: what a computation leaves untouched *)
Module Frame.
Section Frame.
Context {A : Type}.

Definition final_heap {X} (r : (exn * heap A) + (X * heap A)) : heap A :=
  match r with inl (_, h) => h | inr (_, h) => h end.

(** [h'] agrees with [h] on every object and storage below [n]. *)
Definition agree_below (n : nat) (h h' : heap A) : Prop :=
  (forall t, t < n -> h_tensors h' !! t = h_tensors h !! t) /\
  (forall s, s < n -> h_storages h' !! s = h_storages h !! s).

Definition grows (n : nat) (h h' : heap A) : Prop :=
  h_next h <= h_next h' /\ agree_below n h h'.

(** [m], run on any heap whose allocations reach [n], leaves the objects
    and storages below [n] as they were (also when it raises), and its
    value satisfies [Q]. *)
Definition frame {X} (n : nat) (m : M A X) (Q : X -> Prop) : Prop :=
  forall h, n <= h_next h ->
    grows n h (final_heap (m h)) /\
    match m h with inr (x, _) => Q x | inl _ => True end.

(** [m] returns (no exception) and its value and final heap satisfy [Q]. *)
Definition wp {X} (m : M A X) (Q : X -> heap A -> Prop) (h : heap A) : Prop :=
  match m h with inr (x, h') => Q x h' | inl _ => False end.

(** The element of tensor [t] at [idx], read through its metadata. *)
Definition value_at (h : heap A) (t : nat) (idx : list nat) : option A :=
  match h_tensors h !! t with
  | Some m =>
      match h_storages h !! t_storage m with
      | Some st => Some (st (t_offset m + dot idx (t_stride m)))
      | None => None
      end
  | None => None
  end.

(** Strides of [expand] when every dimension either already has the
    target size or has size 1. *)
Fixpoint expanded_strides (shape sizes stride : list nat) : list nat :=
  match shape, sizes, stride with
  | sz :: shape', t :: sizes', st :: stride' =>
      (if sz =? t then st else 0) :: expanded_strides shape' sizes' stride'
  | _, _, _ => []
  end.

(** Every element of a dimension of size > 1 has stride 0. *)
Definition null_dims (shape stride : list nat) : Prop :=
  Forall2 (fun d s => d <= 1 \/ s = 0) shape stride.

(** Object [x] of [h] has metadata [m] and storage contents [st]. *)
Definition obj (h : heap A) (x : nat) (m : tensor_meta) (st : nat -> A) : Prop :=
  h_tensors h !! x = Some m /\ h_storages h !! t_storage m = Some st.

(** [m] raises [e] (in whatever heap). *)
Definition raises {X} (m : M A X) (e : exn) (h : heap A) : Prop :=
  exists h', m h = inl (e, h').

(** [h'] is [h] plus the new object [x = h_next h]. *)
Definition fresh (h h' : heap A) (x : nat) (m : tensor_meta) (st : nat -> A) : Prop :=
  grows (h_next h) h h' /\ x = h_next h /\ h_next h' = S x /\ obj h' x m st.

(** Every object and storage of the heap was allocated below [h_next],
    and every object's storage exists. *)
Definition heap_wf (h : heap A) : Prop :=
  (forall t m, h_tensors h !! t = Some m ->
     t < h_next h /\ t_storage m < h_next h /\ is_Some (h_storages h !! t_storage m)) /\
  (forall s f, h_storages h !! s = Some f -> s < h_next h).

(** Object [x] of [h] is a tensor of shape [s] with elements [F]: its
    metadata has one stride per dimension, and reading it at any in-bounds
    index through the metadata gives [F]. *)
Definition tensor (h : heap A) (x : nat) (s : list nat) (F : list nat -> A) : Prop :=
  exists m st, obj h x m st /\ t_shape m = s /\ length (t_stride m) = length s /\
    x < h_next h /\ t_storage m < h_next h /\
    forall idx, in_bounds idx s -> st (t_offset m + dot idx (t_stride m)) = F idx.

(** The same for a contiguous tensor (row-major strides). *)
Definition ctensor (h : heap A) (x : nat) (s : list nat) (F : list nat -> A) : Prop :=
  exists m st, obj h x m st /\ t_shape m = s /\ t_stride m = contiguous_strides s /\
    x < h_next h /\ t_storage m < h_next h /\
    forall idx, in_bounds idx s -> st (t_offset m + dot idx (t_stride m)) = F idx.

(** [Tensor.view] finds strides ([compute_stride]) for object [x] of [h]
    viewed with the sizes [s]. *)
Definition view_ok (h : heap A) (x : nat) (s : list nat) : Prop :=
  exists m, h_tensors h !! x = Some m /\ compute_stride (t_shape m) (t_stride m) s <> None.

(** The signatory library reads a stream only at [l < length], [c < channels]. *)
Definition stream_local (lib : signatory_lib A) : Prop :=
  forall depth l c (x y : nat -> nat -> A) k,
    (forall i j, i < l -> j < c -> x i j = y i j) ->
    logsignature_stream lib depth l c x k = logsignature_stream lib depth l c y k.

(** The index read from an operand of shape [s] for an index of a result
    of the same rank it was broadcast to: size-1 dimensions read at 0. *)
Definition bcast (s idx : list nat) : list nat :=
  zip_with (fun d i => if d =? 1 then 0 else i) s idx.

End Frame.
End Frame.

(** ** Concrete instances for stating calls on small inputs *)
Module Concrete.

#[export] Instance Z_scalar : Scalar Z :=
  { s_zero := 0%Z; s_add := Z.add; s_sub := Z.sub; s_mul := Z.mul }.

(** The 1-norm on integer vectors (here [p] is irrelevant). *)
#[export] Instance Z_l1 : PNorm nat Z :=
  fun _ l => fold_right (fun x acc => Z.abs x + acc)%Z 0%Z l.

(** Depth-1 logsignatures: the first level of the logsignature of a stream
    is its total increment, so a depth-1 signatory returns
    [x (length - 1) k - x 0 k] on [channels] channels. *)
Definition increment_signatory : signatory_lib Z :=
  SignatoryLib (fun channels _ => channels)
    (fun _ len channels x k =>
       if (k <? channels)%nat && (0 <? len)%nat then (x (len - 1)%nat k - x 0%nat k)%Z else 0%Z).

(** [times = [0, 1]], a [path1] of batch shape (2, 3) with 2 samples of
    1 channel, an unbatched [path2]: objects 0, 1, 2. *)
Definition heap_batch23 : heap Z :=
  heap_of 0%Z
    [([2], [0; 1]%Z);
     ([2; 3; 2; 1], [0; 1; 0; 2; 0; 3; 0; 4; 0; 5; 0; 6]%Z);
     ([2; 1], [0; 0]%Z)] 0.

(** A [LogsignatureDiscrepancy(1, depth=1, p=1, include_time=True,
    pseudometric=False)] built on the depth-1 signatory. *)
Definition ld_time : Logsig.logsignature_discrepancy (A:=Z) (P:=nat) :=
  Logsig.LogsignatureDiscrepancy 1 1 1 true false "general" None increment_signatory.

(** The spec's L2 scenario: [times = [0, 1, 2]], [path1 = [[0], [1], [2]]],
    [path2 = [[0], [0], [0]]]: objects 0, 1, 2. *)
Definition heap_l2 : heap R :=
  heap_of 0%R [([3], [0; 1; 2]%R); ([3; 1], [0; 1; 2]%R); ([3; 1], [0; 0; 0]%R)] 0.

(** The same with a 0-dimensional [arg] as object 3. *)
Definition heap_l2_arg : heap R :=
  heap_of 0%R [([3], [0; 1; 2]%R); ([3; 1], [0; 1; 2]%R); ([3; 1], [0; 0; 0]%R); ([], [1]%R)] 0.

(** [times = [0, 1]] and a [path] of batch shape (2,) holding two
    1-channel paths of 2 samples, with increments 1 and 3: objects 0, 1. *)
Definition heap_batch2 : heap Z :=
  heap_of 0%Z [([2], [0; 1]%Z); ([2; 2; 1], [0; 1; 0; 3]%Z)] 0.

(** [LogsignatureDiscrepancy(1, depth=1, p=1, include_time=False,
    pseudometric=False)] on the depth-1 signatory. *)
Definition ld_plain : Logsig.logsignature_discrepancy (A:=Z) (P:=nat) :=
  Logsig.LogsignatureDiscrepancy 1 1 1 false false "general" None increment_signatory.

(** [times = [0, 1]], the batched [path] of [heap_batch2] (objects 0, 1),
    a diagonal [linear = [2]] (object 2) and a 1x1 [linear = [[3]]]
    (object 3). *)
Definition heap_lin : heap Z :=
  heap_of 0%Z [([2], [0; 1]%Z); ([2; 2; 1], [0; 1; 0; 3]%Z); ([1], [2]%Z); ([1; 1], [3]%Z)] 0.

(** [LogsignatureDiscrepancy(1, depth=1, p=1, include_time=False,
    pseudometric=True, metric_type='diagonal')] whose [linear] is object 2. *)
Definition ld_diag : Logsig.logsignature_discrepancy (A:=Z) (P:=nat) :=
  Logsig.LogsignatureDiscrepancy 1 1 1 false true "diagonal" (Some 2) increment_signatory.

(** The same with [metric_type='general'] and [linear] object 3. *)
Definition ld_general : Logsig.logsignature_discrepancy (A:=Z) (P:=nat) :=
  Logsig.LogsignatureDiscrepancy 1 1 1 false true "general" (Some 3) increment_signatory.

(** [times = [0, 1]] (object 0); unbatched paths of 2 samples with 1, 2
    and 3 channels (objects 1, 2, 3); [times = [0, 1, 2]] (object 4). *)
Definition heap_chan : heap Z :=
  heap_of 0%Z [([2], [0; 1]%Z); ([2; 1], [0; 5]%Z); ([2; 2], [0; 0; 1; 2]%Z);
               ([2; 3], [0; 0; 0; 1; 2; 3]%Z); ([3], [0; 1; 2]%Z)] 0.

(** Initial contents for a freshly allocated parameter. *)
Definition rand0 : list nat -> Z := fun _ => 0%Z.

(** [h] with the metadata of object [x] replaced by [m]: a strided view of
    an existing storage, as [transpose] or [permute] return. *)
Definition with_meta {A} (h : heap A) (x : nat) (m : tensor_meta) : heap A :=
  Heap (<[x := m]> (h_tensors h)) (h_storages h) (h_next h).

(** [times = [0, 1]] (object 0) and, as object 1, the transpose of the
    contiguous [[0, 1], [2, 3]]: the unbatched path [[0, 2], [1, 3]] of 2
    samples of 2 channels, with strides (1, 2). *)
Definition heap_tr : heap Z :=
  with_meta (heap_of 0%Z [([2], [0; 1]%Z); ([2; 2], [0; 1; 2; 3]%Z)] 0) 1
    (TensorMeta [2; 2] [1; 2] 0 1).

(** [times = [0, 1]] (object 0) and, as object 1, a path of batch shape
    (2, 2) holding 2 samples of 1 channel, whose two batch dimensions were
    swapped: sizes (2, 2, 2, 1) with strides (2, 4, 1, 1). *)
Definition heap_swap : heap Z :=
  with_meta (heap_of 0%Z [([2], [0; 1]%Z); ([2; 2; 2; 1], [0; 1; 0; 2; 0; 3; 0; 4]%Z)] 0) 1
    (TensorMeta [2; 2; 2; 1] [2; 4; 1; 1] 0 1).

End Concrete.

(** * Proofs *)

Module FrameFacts.
Import Frame.
Section FrameFacts.
Context {A : Type}.

Lemma grows_refl n (h : heap A) : grows n h h.
Proof. repeat split; auto. Qed.

Lemma grows_trans n (h1 h2 h3 : heap A) :
  grows n h1 h2 -> grows n h2 h3 -> grows n h1 h3.
Proof.
  intros [L1 [T1 S1]] [L2 [T2 S2]]. split; [lia|split].
  - intros t Ht. rewrite T2 by lia. auto.
  - intros s Hs. rewrite S2 by lia. auto.
Qed.

Lemma frame_ret {X} n (x : X) (Q : X -> Prop) : Q x -> frame n (ret (A:=A) x) Q.
Proof. intros Hq h _. split; [apply grows_refl|exact Hq]. Qed.

Lemma frame_raise {X} n e (Q : X -> Prop) : frame n (raise (A:=A) e) Q.
Proof. intros h _. split; [apply grows_refl|exact I]. Qed.

Lemma frame_bind {X Y} n (m : M A X) (k : X -> M A Y) (Q : X -> Prop) (R : Y -> Prop) :
  frame n m Q -> (forall x, Q x -> frame n (k x) R) -> frame n (bind m k) R.
Proof.
  intros Hm Hk h Hn. unfold bind. destruct (Hm h Hn) as [G1 P1].
  destruct (m h) as [[e h1]|[x h1]]; simpl in *.
  - split; [exact G1|exact I].
  - destruct G1 as [L1 G1'].
    destruct (Hk x P1 h1 ltac:(lia)) as [G2 P2]. split; [|exact P2].
    eapply grows_trans; [split; eauto|exact G2].
Qed.

Lemma frame_weaken {X} n (m : M A X) (Q Q' : X -> Prop) :
  frame n m Q -> (forall x, Q x -> Q' x) -> frame n m Q'.
Proof.
  intros Hm HQ h Hn. destruct (Hm h Hn) as [G P]. split; [exact G|].
  destruct (m h) as [[]|[]]; auto.
Qed.

Lemma frame_alloc n s (f : list nat -> A) : frame n (alloc s f) (fun x => n <= x).
Proof.
  intros h Hn. unfold alloc; simpl. repeat split; simpl; try lia.
  - intros t Ht. rewrite lookup_insert_ne by lia. reflexivity.
  - intros t Ht. rewrite lookup_insert_ne by lia. reflexivity.
Qed.

Lemma frame_new_view n m : frame n (new_view (A:=A) m) (fun x => n <= x).
Proof.
  intros h Hn. unfold new_view; simpl. repeat split; simpl; try lia.
  intros t Ht. rewrite lookup_insert_ne by lia. reflexivity.
Qed.

Lemma frame_set_meta n t m : n <= t -> frame n (set_meta (A:=A) t m) (fun _ => True).
Proof.
  intros Ht h Hn. unfold set_meta; simpl. repeat split; simpl; try lia.
  intros u Hu. rewrite lookup_insert_ne by lia. reflexivity.
Qed.

Lemma frame_meta_of n t : frame n (meta_of (A:=A) t) (fun _ => True).
Proof.
  intros h _. unfold meta_of. destruct (h_tensors h !! t); split; auto using grows_refl.
Qed.

Lemma frame_data_of n t : frame n (data_of (A:=A) t) (fun _ => True).
Proof.
  intros h _. unfold data_of.
  destruct (h_tensors h !! t) as [m|]; [destruct (h_storages h !! t_storage m)|];
    split; auto using grows_refl.
Qed.

Lemma frame_of_option {X} n e (o : option X) : frame (A:=A) n (of_option e o) (fun _ => True).
Proof. destruct o; [apply frame_ret; exact I|apply frame_raise]. Qed.

Lemma frame_true {X} n (m : M A X) (Q : X -> Prop) :
  frame n m Q -> frame n m (fun _ => True).
Proof. intros Hm. eapply frame_weaken; [exact Hm|auto]. Qed.

End FrameFacts.

Create HintDb frame.
#[export] Hint Resolve frame_raise frame_meta_of frame_data_of frame_of_option
  frame_alloc frame_new_view : frame.

(** Walk a computation bind by bind. *)
Ltac frame_step :=
  match goal with
  | |- frame _ (bind _ _) _ =>
      first [ eapply frame_bind; [solve [eauto with frame]|intros ? ?]
            | apply (frame_bind _ _ _ (fun _ => True)); [|intros ? _] ]
  | |- frame _ (if ?b then _ else _) _ => destruct b
  | |- frame _ (match ?x with _ => _ end) _ => destruct x
  | |- frame _ (ret _) _ => apply frame_ret; try exact I
  | |- frame _ (raise _) _ => apply frame_raise
  | |- frame _ (alloc _ _) (fun _ => True) => eapply frame_true; apply frame_alloc
  | |- frame _ (new_view _) (fun _ => True) => eapply frame_true; apply frame_new_view
  | |- frame _ _ _ => solve [eauto with frame]
  end.
Ltac frame_auto := unfold size_at, shape_of; repeat (frame_step; simpl).

Section Ops.
Context {A : Type}.

Lemma frame_shape_of n t : frame n (shape_of (A:=A) t) (fun _ => True).
Proof. frame_auto. Qed.

Lemma frame_size_at n t d : frame n (size_at (A:=A) t d) (fun _ => True).
Proof. frame_auto. Qed.

Lemma frame_unsqueeze n t d : frame n (unsqueeze (A:=A) t d) (fun _ => True).
Proof. unfold unsqueeze. frame_auto. Qed.

Lemma frame_unsqueeze_ n t d : n <= t -> frame n (unsqueeze_ (A:=A) t d) (fun _ => True).
Proof. intros Ht. unfold unsqueeze_. frame_auto. apply frame_set_meta; exact Ht. Qed.

Lemma frame_expand n t s : frame n (expand (A:=A) t s) (fun _ => True).
Proof. unfold expand. frame_auto. Qed.

Lemma frame_view n t s : frame n (view (A:=A) t s) (fun x => n <= x).
Proof.
  unfold view. eapply frame_bind; [apply frame_meta_of|intros m _].
  eapply frame_bind; [apply frame_of_option|intros s' _].
  eapply frame_bind; [apply frame_of_option|intros st _]. apply frame_new_view.
Qed.

Lemma frame_cat_last n t1 t2 : frame n (cat_last (A:=A) t1 t2) (fun _ => True).
Proof. unfold cat_last. frame_auto. Qed.

Lemma frame_binop n f t1 t2 : frame n (binop (A:=A) f t1 t2) (fun _ => True).
Proof. unfold binop. frame_auto. Qed.

Lemma frame_matmul n z ad mu t1 t2 : frame n (matmul (A:=A) z ad mu t1 t2) (fun _ => True).
Proof. unfold matmul. frame_auto. Qed.

Lemma frame_norm_last {P} n (nm : P -> list A -> A) p t :
  frame n (norm_last nm p t) (fun _ => True).
Proof. unfold norm_last. frame_auto. Qed.

Lemma frame_logsignature_apply `{Scalar A} n lib d t :
  frame n (logsignature_apply lib d t) (fun _ => True).
Proof. unfold logsignature_apply. frame_auto. Qed.

End Ops.

#[export] Hint Resolve frame_shape_of frame_size_at frame_unsqueeze frame_expand
  frame_cat_last frame_binop frame_matmul frame_norm_last frame_logsignature_apply : frame.

End FrameFacts.

Module LogsigFrame.
Import Frame FrameFacts Logsig.
Section LogsigFrame.
Context {A P : Type} `{Scalar A} `{PNorm P A}.

Lemma frame_prepend_batch_dims n tc dims :
  frame n (prepend_batch_dims (A:=A) tc dims) (fun _ => True).
Proof.
  revert tc; induction dims as [|d ds IH]; intros tc; simpl.
  - apply frame_ret; exact I.
  - frame_auto.
Qed.

Lemma frame_unsqueeze_each n t d dims :
  n <= t -> frame n (unsqueeze_each (A:=A) t d dims) (fun _ => True).
Proof.
  intros Ht. induction dims as [|x xs IH]; simpl.
  - apply frame_ret; exact I.
  - eapply frame_bind; [apply frame_unsqueeze_; exact Ht|intros _ _; exact IH].
Qed.

#[local] Hint Resolve frame_prepend_batch_dims : frame.

(** The whole call keeps every object and storage that existed before it. *)
Lemma frame_forward n (self : logsignature_discrepancy (A:=A) (P:=P)) times path1 path2 :
  frame n (forward self times path1 path2) (fun _ => True).
Proof.
  unfold forward.
  do 2 (eapply frame_bind; [apply frame_shape_of|intros ? _]).
  apply (frame_bind _ _ _ (fun _ => True)); [|intros [p1 p2] _].
  { destruct (include_time self); frame_auto. }
  do 2 (eapply frame_bind; [apply frame_size_at|intros ? _]).
  eapply frame_bind; [apply frame_view|intros v1 _].
  do 2 (eapply frame_bind; [apply frame_size_at|intros ? _]).
  eapply frame_bind; [apply frame_view|intros v2 _].
  do 2 (eapply frame_bind; [apply frame_logsignature_apply|intros ? _]).
  eapply frame_bind; [apply frame_size_at|intros ? _].
  eapply frame_bind; [apply frame_view|intros ls1 H1].
  eapply frame_bind; [apply frame_size_at|intros ? _].
  eapply frame_bind; [apply frame_view|intros ls2 H2].
  eapply frame_bind; [apply frame_unsqueeze_each; exact H2|intros ? _].
  eapply frame_bind; [apply frame_unsqueeze_each; exact H1|intros ? _].
  frame_auto.
Qed.

End LogsigFrame.
End LogsigFrame.

Module HeapFacts.
Import Frame.
Section HeapFacts.
Context {A : Type}.

Lemma heap_of_next (d : A) ts n : h_next (heap_of d ts n) = n + length ts.
Proof.
  revert n; induction ts as [|[s x] ts IH]; intros n; simpl; [lia|].
  rewrite IH. lia.
Qed.

Lemma heap_of_tensors (d : A) ts n t m :
  h_tensors (heap_of d ts n) !! t = Some m ->
  n <= t < n + length ts /\ t_storage m = t.
Proof.
  revert n; induction ts as [|[s x] ts IH]; intros n; simpl.
  - rewrite lookup_empty. discriminate.
  - rewrite lookup_insert. case_decide as E.
    + intros Hm. injection Hm as <-. simpl. lia.
    + intros Hm. destruct (IH _ Hm). lia.
Qed.

Lemma heap_of_storages (d : A) ts n t :
  is_Some (h_storages (heap_of d ts n) !! t) <-> n <= t < n + length ts.
Proof.
  revert n; induction ts as [|[s x] ts IH]; intros n; simpl.
  - rewrite lookup_empty. split; [intros [? ?]; discriminate|lia].
  - rewrite lookup_insert. case_decide as E.
    + split; [lia|eauto].
    + rewrite IH. lia.
Qed.

Lemma heap_of_wf (d : A) ts : heap_wf (heap_of d ts 0).
Proof.
  split.
  - intros t m Hm. rewrite heap_of_next.
    destruct (heap_of_tensors _ _ _ _ _ Hm) as [Hb Hs]. rewrite Hs.
    split; [lia|split; [lia|]]. apply heap_of_storages. lia.
  - intros s f Hf. rewrite heap_of_next.
    assert (Hs : is_Some (h_storages (heap_of d ts 0) !! s)) by eauto.
    apply heap_of_storages in Hs. lia.
Qed.

Lemma with_meta_wf (h : heap A) x m :
  heap_wf h -> x < h_next h -> t_storage m < h_next h -> is_Some (h_storages h !! t_storage m) ->
  heap_wf (Concrete.with_meta h x m).
Proof.
  intros [Ht Hs] Bx Bs Ss. split; [|exact Hs].
  intros t m' Hm'. unfold Concrete.with_meta in Hm'. simpl in Hm'.
  destruct (decide (t = x)) as [->|Ne].
  - rewrite lookup_insert_eq in Hm'. injection Hm' as <-. auto.
  - rewrite lookup_insert_ne in Hm' by congruence. apply Ht, Hm'.
Qed.

(** A call that keeps everything below [h_next h] keeps every object that
    exists in a well-formed [h], and its storage. *)
Lemma grows_keeps_object (h h' : heap A) t m :
  heap_wf h -> grows (h_next h) h h' -> h_tensors h !! t = Some m ->
  h_tensors h' !! t = Some m /\ h_storages h' !! t_storage m = h_storages h !! t_storage m.
Proof.
  intros [Wt _] [_ [Gt Gs]] Hm. destruct (Wt _ _ Hm) as [Ht [Hs _]].
  split; [rewrite Gt by lia; exact Hm|apply Gs; lia].
Qed.

End HeapFacts.
End HeapFacts.

Module LogsigClaims.
Import Frame FrameFacts HeapFacts LogsigFrame Logsig Concrete.

(** Claim C10: [LogsignatureDiscrepancy.forward] changes no tensor that
    exists before the call (in particular [times], [path1], [path2] and
    [self.linear]): each keeps its metadata and its storage, whether the
    call returns or raises.  Its in-place [unsqueeze_] calls act on views
    created during the call. *)
Theorem forward_leaves_inputs_unchanged {A P} `{Scalar A} `{PNorm P A}
    (self : logsignature_discrepancy) times path1 path2 (h : heap A) :
  heap_wf h ->
  forall x m, h_tensors h !! x = Some m ->
  let h' := final_heap (forward self times path1 path2 h) in
  h_tensors h' !! x = Some m /\ h_storages h' !! t_storage m = h_storages h !! t_storage m.
Proof.
  intros Hwf x m Hm.
  destruct (frame_forward (h_next h) self times path1 path2 h (le_n _)) as [G _].
  exact (grows_keeps_object h _ x m Hwf G Hm).
Qed.

Lemma forward_leaves_inputs_unchanged_witness :
  heap_wf heap_batch23 /\
  h_tensors heap_batch23 !! 1%nat = Some (TensorMeta [2; 3; 2; 1] [6; 2; 1; 1] 0 1) /\
  let h' := final_heap (forward ld_time 0 1 2 heap_batch23) in
  h_tensors h' !! 1%nat = Some (TensorMeta [2; 3; 2; 1] [6; 2; 1; 1] 0 1) /\
  h_storages h' !! 1%nat = h_storages heap_batch23 !! 1%nat.
Proof.
  split; [apply heap_of_wf|]. split; [reflexivity|].
  exact (forward_leaves_inputs_unchanged ld_time 0 1 2 heap_batch23 (heap_of_wf _ _) 1
           (TensorMeta [2; 3; 2; 1] [6; 2; 1; 1] 0 1) eq_refl).
Defined.

End LogsigClaims.

Module ShapeFacts.
Import Frame StrideRead.
Section ShapeFacts.

Lemma numel_app a b : numel (a ++ b) = numel a * numel b.
Proof. induction a as [|x a IH]; simpl; [lia|]. rewrite IH. lia. Qed.

Lemma numel_max1_pos s : 0 < numel (map (Nat.max 1) s).
Proof. induction s as [|x s IH]; simpl; [lia|]. nia. Qed.

Lemma contiguous_strides_length s : length (contiguous_strides s) = length s.
Proof. induction s; simpl; auto. Qed.

Lemma contiguous_strides_app a b :
  contiguous_strides (a ++ b) =
  map (fun x => x * numel (map (Nat.max 1) b)) (contiguous_strides a) ++ contiguous_strides b.
Proof.
  induction a as [|x a IH]; simpl; [reflexivity|].
  rewrite IH, map_app, numel_app. reflexivity.
Qed.

Lemma dot_app i j s t : length i = length s -> dot (i ++ j) (s ++ t) = dot i s + dot j t.
Proof.
  revert s; induction i as [|x i IH]; intros [|y s] Hl; simpl in *; try lia.
  rewrite IH by lia. lia.
Qed.

Lemma dot_map_mul i s c : dot i (map (fun x => x * c) s) = dot i s * c.
Proof.
  revert s; induction i as [|x i IH]; intros [|y s]; simpl; try lia.
  rewrite IH. lia.
Qed.

Lemma in_bounds_length i s : in_bounds i s -> length i = length s.
Proof. apply Forall2_length. Qed.

Lemma in_bounds_app i j s t :
  in_bounds i s -> in_bounds j t -> in_bounds (i ++ j) (s ++ t).
Proof. apply Forall2_app. Qed.

Lemma in_bounds_app_inv i j s t :
  length i = length s -> in_bounds (i ++ j) (s ++ t) -> in_bounds i s /\ in_bounds j t.
Proof. intros Hl H. apply Forall2_app_inv in H; auto. Qed.

Lemma in_bounds_numel i s : in_bounds i s -> numel (map (Nat.max 1) s) = numel s.
Proof.
  induction 1 as [|x y i s Hxy _ IH]; simpl; [reflexivity|].
  rewrite IH. f_equal. lia.
Qed.

Lemma dot_contiguous_lt i s :
  in_bounds i s -> dot i (contiguous_strides s) < numel (map (Nat.max 1) s).
Proof.
  induction 1 as [|x y i s Hxy _ IH]; simpl; [lia|].
  assert (y = Nat.max 1 y) as <- by lia. nia.
Qed.

Lemma unravel_dot i s :
  in_bounds i s -> unravel s (dot i (contiguous_strides s)) = i.
Proof.
  induction 1 as [|x y i s Hxy Hi IH]; simpl; [reflexivity|].
  pose proof (dot_contiguous_lt i s Hi) as Hlt.
  pose proof (numel_max1_pos s) as Hpos.
  f_equal.
  - rewrite Nat.div_add_l by lia. rewrite Nat.div_small by lia. lia.
  - rewrite Nat.add_comm, Nat.Div0.mod_add, Nat.mod_small by lia. exact IH.
Qed.

Lemma null_dims_dot b s st : in_bounds b s -> null_dims s st -> dot b st = 0.
Proof.
  intros Hb. revert st. induction Hb as [|x y b s Hxy _ IH]; intros st Hn; [reflexivity|].
  inversion Hn as [|? z ? st' Hyz Hn']; subst; simpl.
  rewrite (IH _ Hn'). destruct Hyz; [assert (x = 0) as -> by lia|subst]; lia.
Qed.

Lemma length_expanded_strides shape sizes stride :
  length shape = length sizes -> length stride = length sizes ->
  length (expanded_strides shape sizes stride) = length sizes.
Proof.
  revert sizes stride; induction shape as [|a shape IH]; intros [|b sizes] [|c stride] H1 H2;
    simpl in *; try lia.
  rewrite IH; lia.
Qed.

Lemma expanded_strides_app s1 s2 z1 z2 t1 t2 :
  length s1 = length z1 -> length t1 = length z1 ->
  expanded_strides (s1 ++ s2) (z1 ++ z2) (t1 ++ t2) =
  expanded_strides s1 z1 t1 ++ expanded_strides s2 z2 t2.
Proof.
  revert z1 t1; induction s1 as [|a s1 IH]; intros [|b z1] [|c t1] H1 H2; simpl in *; try lia;
    try reflexivity.
  rewrite IH by lia. reflexivity.
Qed.

Lemma expanded_strides_rev shape sizes stride :
  length shape = length sizes -> length stride = length sizes ->
  expanded_strides (rev shape) (rev sizes) (rev stride) = rev (expanded_strides shape sizes stride).
Proof.
  revert sizes stride; induction shape as [|a shape IH]; intros [|b sizes] [|c stride] H1 H2;
    simpl in *; try lia; try reflexivity.
  rewrite expanded_strides_app by (rewrite ?length_rev; lia).
  rewrite IH by lia. reflexivity.
Qed.

Lemma forall2_rev {X Y} (R : X -> Y -> Prop) l k : Forall2 R l k -> Forall2 R (rev l) (rev k).
Proof. induction 1; simpl; [constructor|]. apply Forall2_app; auto. Qed.

(** [expand] to sizes of the same rank, each dimension equal or of size 1. *)
Lemma expand_rev_same_rank sizes shape stride prev :
  Forall2 (fun sz t => sz = t \/ sz = 1) shape sizes -> length stride = length sizes ->
  expand_rev sizes shape stride prev = Some (sizes, expanded_strides shape sizes stride).
Proof.
  intros HF. revert stride prev.
  induction HF as [|sz t shape sizes Hst HF IH]; intros [|st stride] prev Hl; simpl in *;
    try lia; [reflexivity|].
  destruct (Nat.eqb_spec sz t) as [->|Hne].
  - rewrite IH by lia. reflexivity.
  - destruct Hst as [ | ->]; [contradiction|]. simpl.
    rewrite IH by lia. reflexivity.
Qed.

Lemma expand_meta_same_rank m sizes :
  Forall2 (fun sz t => sz = t \/ sz = 1) (t_shape m) sizes ->
  length (t_stride m) = length sizes ->
  expand_meta m sizes =
  Some (TensorMeta sizes (expanded_strides (t_shape m) sizes (t_stride m)) (t_offset m) (t_storage m)).
Proof.
  intros HF Hl. unfold expand_meta.
  pose proof (Forall2_length _ _ _ HF) as Hl'.
  rewrite expand_rev_same_rank.
  - rewrite expanded_strides_rev by lia. rewrite !rev_involutive. reflexivity.
  - apply forall2_rev. exact HF.
  - rewrite !length_rev. exact Hl.
Qed.

(** *** The strides of [view] *)

Lemma numel_pos_Forall s : 0 < numel s -> Forall (lt 0) s.
Proof. induction s as [|x s IH]; simpl; intros H; constructor; [nia|apply IH; nia]. Qed.

Lemma numel_Forall_pos s : Forall (lt 0) s -> 0 < numel s.
Proof. induction 1; simpl; nia. Qed.

Lemma rdot_chunk p ps vn b j :
  Forall (lt 0) p -> length ps = length p -> chunk_ok vn b p ps ->
  rdot p ps j = vn * b * (j mod numel p).
Proof.
  revert ps vn j; induction p as [|v p IH]; intros [|s ps] vn j Hp Hl Hc;
    cbn [rdot length chunk_ok] in *; try lia.
  - change (numel []) with 1. rewrite Nat.mod_1_r. lia.
  - inversion Hp as [|? ? Hv Hp']; subst. destruct Hc as [Hs Hc].
    pose proof (numel_Forall_pos _ Hp').
    rewrite (IH ps (vn * v) (j / v)) by auto.
    change (numel (v :: p)) with (v * numel p).
    rewrite (Nat.Div0.mod_mul_r j v (numel p)).
    destruct Hs as [ -> | -> ].
    + rewrite Nat.mod_1_r, Nat.div_1_r. lia.
    + nia.
Qed.

Lemma pstrides_length vn b q : length (pstrides vn b q) = length q.
Proof. revert vn; induction q; simpl; auto. Qed.

Lemma pstrides_chunk vn b q : chunk_ok vn b q (pstrides vn b q).
Proof. revert vn; induction q; simpl; auto. Qed.

Lemma chunk_ok_snoc vn b p ps v s :
  length ps = length p -> chunk_ok vn b p ps -> (v = 1 \/ s = vn * numel p * b) ->
  chunk_ok vn b (p ++ [v]) (ps ++ [s]).
Proof.
  revert vn ps; induction p as [|x p IH]; intros vn [|y ps] Hl Hc Hv; simpl in *; try lia.
  destruct Hc as [Hx Hc]. split; [exact Hx|]. apply IH; [lia|exact Hc|lia].
Qed.

Lemma rdot_app p ps r rs j :
  Forall (lt 0) p -> length ps = length p ->
  rdot (p ++ r) (ps ++ rs) j = rdot p ps j + rdot r rs (j / numel p).
Proof.
  revert ps j; induction p as [|v p IH]; intros [|s ps] j Hp Hl;
    cbn [rdot length app] in *; try lia.
  - change (numel []) with 1. rewrite Nat.div_1_r. lia.
  - inversion Hp as [|? ? Hv Hp']; subst.
    pose proof (numel_Forall_pos _ Hp').
    change (numel (v :: p)) with (v * numel p).
    rewrite IH by auto. rewrite Nat.Div0.div_div. lia.
Qed.

(** [view_dims] consumes a prefix of the view sizes. *)
Lemma view_dims_prefix vs vn tn b a r n :
  view_dims vs vn tn b = (a, r, n) ->
  exists q, vs = q ++ r /\ n = vn * numel q /\ a = pstrides vn b q.
Proof.
  revert vn a r n; induction vs as [|v vs IH]; intros vn a r n; simpl.
  - intros [= <- <- <-]. exists []. simpl. split; [done|]. split; [lia|done].
  - destruct (_ || _).
    + destruct (view_dims vs (vn * v) tn b) as [[a' r'] n'] eqn:E. intros [= <- <- <-].
      destruct (IH _ _ _ _ E) as (q & -> & -> & ->).
      exists (v :: q). simpl. split; [done|]. split; [lia|done].
    + intros [= <- <- <-]. exists []. simpl. split; [done|]. split; [lia|done].
Qed.

Lemma combine_fst (s os : list nat) :
  length os = length s -> map fst (combine s os) = s.
Proof. revert os; induction s; intros [|? ?] Hl; simpl in *; try lia; f_equal; auto. Qed.

Lemma combine_snd (s os : list nat) :
  length os = length s -> map snd (combine s os) = os.
Proof. revert os; induction s; intros [|? ?] Hl; simpl in *; try lia; f_equal; auto. Qed.

(** Each chunk of merged dimensions is read the same way by the old and the
    new strides. *)
Lemma stride_chunks_rdot o vs b tn r P Ps :
  stride_chunks o vs b tn = Some r -> o <> [] ->
  numel P = tn -> length Ps = length P -> chunk_ok 1 b P Ps ->
  match o with (sz, st) :: _ => sz = 1 \/ st = tn * b | [] => True end ->
  Forall (lt 0) (P ++ map fst o) ->
  forall j, rdot (P ++ map fst o) (Ps ++ map snd o) j = rdot vs r j.
Proof.
  revert vs b tn r P Ps. induction o as [|[sz st] o IH]; intros vs b tn r P Ps Hs Hne HP Hl Hc Hh Hpos j;
    [congruence|].
  simpl in Hs.
  assert (Hc' : chunk_ok 1 b (P ++ [sz]) (Ps ++ [st])) by (apply chunk_ok_snoc; [done|done|lia]).
  assert (Hpos' : Forall (lt 0) (P ++ [sz])).
  { apply Forall_app in Hpos as [H1 H2]. apply Forall_app; split; [done|].
    inversion H2; subst; constructor; [lia|constructor]. }
  assert (HnP : numel (P ++ [sz]) = tn * sz) by (rewrite numel_app; simpl; lia).
  destruct (match o with [] => true | (sz', st') :: _ => _ end) eqn:Hend.
  - destruct (view_dims vs 1 (tn * sz) b) as [[a rest] vn] eqn:Ev.
    destruct (Nat.eqb_spec vn (tn * sz)) as [Hvn|]; [|discriminate]. simpl in Hs.
    destruct (view_dims_prefix _ _ _ _ _ _ _ Ev) as (q & -> & Hq & ->).
    assert (Hqpos : Forall (lt 0) q).
    { apply numel_pos_Forall. pose proof (numel_Forall_pos _ Hpos'). lia. }
    assert (Hr : exists r', r = pstrides 1 b q ++ r' /\
                   forall j', rdot (map fst o) (map snd o) j' = rdot rest r' j').
    { destruct o as [|[sz' st'] o].
      - destruct rest; [|discriminate]. injection Hs as <-. exists [].
        rewrite app_nil_r. split; [done|]. intros; reflexivity.
      - destruct (stride_chunks _ rest st' 1) as [r'|] eqn:Er; [|discriminate].
        injection Hs as <-. exists r'. split; [done|]. intros j'.
        refine (IH rest st' 1 r' [] [] Er _ _ _ I _ _ j'); simpl; auto; try congruence; try lia.
        apply Forall_app in Hpos as [_ H2]. inversion H2; subst. exact H3. }
    destruct Hr as (r' & -> & Hr).
    replace (P ++ map fst ((sz, st) :: o)) with ((P ++ [sz]) ++ map fst o) by (simpl; rewrite <- app_assoc; done).
    replace (Ps ++ map snd ((sz, st) :: o)) with ((Ps ++ [st]) ++ map snd o) by (simpl; rewrite <- app_assoc; done).
    rewrite (rdot_app (P ++ [sz])) by (auto; rewrite !length_app; simpl; lia).
    rewrite (rdot_app q) by (auto; apply pstrides_length).
    rewrite (rdot_chunk (P ++ [sz]) (Ps ++ [st]) 1 b) by (auto; rewrite !length_app; simpl; lia).
    rewrite (rdot_chunk q (pstrides 1 b q) 1 b) by (auto using pstrides_length, pstrides_chunk).
    rewrite HnP, Hr. replace (numel q) with (tn * sz) by lia. reflexivity.
  - destruct o as [|[sz' st'] o]; [discriminate|].
    apply andb_false_iff in Hend. rewrite !negb_false_iff, !Nat.eqb_eq in Hend.
    replace (P ++ map fst ((sz, st) :: (sz', st') :: o)) with ((P ++ [sz]) ++ map fst ((sz', st') :: o)) by (simpl; rewrite <- app_assoc; done).
    replace (Ps ++ map snd ((sz, st) :: (sz', st') :: o)) with ((Ps ++ [st]) ++ map snd ((sz', st') :: o)) by (simpl; rewrite <- app_assoc; done).
    apply (IH vs b (tn * sz)); auto; try congruence.
    + rewrite !length_app; simpl; lia.
    + simpl in Hpos |- *. rewrite <- app_assoc. exact Hpos.
Qed.

Lemma rdot_ones r st j : Forall (eq 1) r -> rdot r st j = 0.
Proof.
  intros H. revert st j; induction H as [|a r Ha _ IH]; intros [|t st] j; simpl; auto.
  subst a. rewrite Nat.mod_1_r, IH. lia.
Qed.

Lemma numel_one_Forall s : numel s = 1 -> Forall (eq 1) s.
Proof.
  induction s as [|x s IH]; intros H; [constructor|].
  change (x * numel s = 1) in H. apply Nat.eq_mul_1 in H as [-> Hs].
  constructor; [done|]. apply IH, Hs.
Qed.

Lemma numel_rev s : numel (rev s) = numel s.
Proof. induction s as [|x s IH]; simpl; [done|]. rewrite numel_app, IH. simpl. lia. Qed.

(** What the strides found by [compute_stride] read: the same elements, in
    the same row-major order. *)
Lemma compute_stride_rdot s os s' ns :
  compute_stride s os s' = Some ns -> length os = length s ->
  0 < numel s -> numel s' = numel s ->
  forall j, rdot (rev s) (rev os) j = rdot (rev s') (rev ns) j.
Proof.
  intros Hc Hl Hpos Hn j. unfold compute_stride in Hc.
  destruct s as [|x s0] eqn:Es.
  - injection Hc as <-. simpl. symmetry. apply rdot_ones.
    apply Forall_rev, numel_one_Forall. rewrite Hn. reflexivity.
  - rewrite <- Es in *. destruct (Nat.eqb_spec (numel s) 0) as [|_]; [lia|].
    destruct (rev os) as [|base ros] eqn:Eos.
    { apply (f_equal (@length nat)) in Eos. rewrite length_rev in Eos. subst s. simpl in *. lia. }
    destruct (stride_chunks _ _ _ _) as [r|] eqn:Er; [|discriminate].
    injection Hc as <-. rewrite rev_involutive.
    assert (Hfst : map fst (rev (combine s os)) = rev s) by (rewrite map_rev, combine_fst; auto).
    assert (Hsnd : map snd (rev (combine s os)) = rev os) by (rewrite map_rev, combine_snd; auto).
    rewrite Eos in Hsnd. rewrite <- Hfst, <- Hsnd.
    refine (stride_chunks_rdot _ _ _ _ _ [] [] Er _ _ _ I _ _ j); simpl; auto.
    + intros E. rewrite E in Hfst. simpl in Hfst. apply (f_equal (@length nat)) in Hfst.
      rewrite length_rev in Hfst. subst s. simpl in Hfst. lia.
    + destruct (rev (combine s os)) as [|[sz st] o]; [exact I|].
      simpl in Hsnd. injection Hsnd as -> _. lia.
    + rewrite Hfst. apply Forall_rev, numel_pos_Forall. exact Hpos.
Qed.

Lemma numel_pos_max1 s : 0 < numel s -> numel (map (Nat.max 1) s) = numel s.
Proof.
  induction s as [|x s IH]; simpl; [reflexivity|]. intros Hp.
  rewrite IH by nia. f_equal. nia.
Qed.

Lemma unravel_snoc s a j :
  0 < numel (s ++ [a]) -> j < numel (s ++ [a]) ->
  unravel (s ++ [a]) j = unravel s (j / a) ++ [j mod a].
Proof.
  revert j; induction s as [|x s IH]; intros j Hp Hj.
  - cbn [app unravel map]. change (numel []) with 1. rewrite Nat.div_1_r.
    change (j < a * 1) in Hj. rewrite Nat.mod_small by lia. reflexivity.
  - rewrite numel_app in Hp, Hj. cbn [numel fold_right] in Hp, Hj.
    fold (numel s) in Hp, Hj.
    assert (0 < x /\ 0 < numel s /\ 0 < a) as (Hx & Hs & Ha) by nia.
    cbn [app unravel].
    rewrite !numel_pos_max1 by (try rewrite numel_app; simpl; nia).
    rewrite numel_app. cbn [numel fold_right]. fold (numel s). rewrite Nat.mul_1_r.
    pose proof (Nat.mod_upper_bound j (numel s * a) ltac:(nia)).
    rewrite IH by (rewrite numel_app; cbn [numel fold_right]; fold (numel s); nia).
    rewrite (Nat.mul_comm (numel s) a), <- Nat.Div0.div_div.
    rewrite (Nat.Div0.mod_mul_r j a (numel s)).
    pose proof (Nat.mod_upper_bound j a ltac:(lia)).
    f_equal. f_equal; [|f_equal].
    + f_equal. rewrite (Nat.add_comm (j mod a)), (Nat.mul_comm a), Nat.div_add_l by lia.
      rewrite (Nat.div_small (j mod a) a) by lia. lia.
    + rewrite (Nat.mul_comm a), Nat.Div0.mod_add, Nat.Div0.mod_mod.
      reflexivity.
Qed.

Lemma unravel_length s j : length (unravel s j) = length s.
Proof. revert j; induction s; simpl; auto. Qed.

(** The storage position of the element at row-major position [j]. *)
Lemma dot_unravel_rdot s os j :
  0 < numel s -> length os = length s -> j < numel s ->
  dot (unravel s j) os = rdot (rev s) (rev os) j.
Proof.
  revert os j; induction s as [|a s IH] using rev_ind; intros os j Hp Hl Hj; [reflexivity|].
  destruct os as [|t os _] using rev_ind; [rewrite length_app in Hl; simpl in Hl; lia|].
  rewrite !length_app in Hl. simpl in Hl.
  rewrite numel_app in Hp, Hj. cbn [numel fold_right] in Hp, Hj. fold (numel s) in Hp, Hj.
  rewrite unravel_snoc by (rewrite numel_app; simpl; lia).
  rewrite !rev_app_distr. cbn [rev app rdot].
  rewrite dot_app.
  2:{ rewrite unravel_length. lia. }
  simpl. rewrite IH by (try nia; apply Nat.Div0.div_lt_upper_bound; nia). lia.
Qed.

Lemma stride_chunks_length o vs b tn r :
  stride_chunks o vs b tn = Some r -> o <> [] -> length r = length vs.
Proof.
  revert vs b tn r; induction o as [|[sz st] o IH]; intros vs b tn r Hs Hne; simpl in Hs;
    [congruence|].
  destruct (match o with [] => true | _ => _ end) eqn:Hend.
  - destruct (view_dims vs 1 (tn * sz) b) as [[a rest] vn] eqn:Ev.
    destruct (negb _); [discriminate|].
    destruct (view_dims_prefix _ _ _ _ _ _ _ Ev) as (q & -> & _ & ->).
    destruct o as [|[sz' st'] o].
    + destruct rest; [|discriminate]. injection Hs as <-. rewrite app_nil_r. apply pstrides_length.
    + destruct (stride_chunks _ rest st' 1) as [r'|] eqn:Er; [|discriminate].
      injection Hs as <-. rewrite !length_app, pstrides_length, (IH _ _ _ _ Er); [reflexivity|congruence].
  - destruct o; [discriminate|]. eapply IH; [exact Hs|congruence].
Qed.

Lemma compute_stride_length s os s' ns :
  compute_stride s os s' = Some ns -> length os = length s -> numel s' = numel s ->
  length ns = length s'.
Proof.
  unfold compute_stride. intros Hc Hl Hn. destruct s as [|x s0] eqn:Es.
  - injection Hc as <-. apply repeat_length.
  - rewrite <- Es in *. destruct (numel s =? 0).
    + case_bool_decide; injection Hc as <-; [subst; done|].
      clear. induction s'; simpl; auto.
    + destruct (rev os) as [|base ros]; [discriminate|].
      destruct (stride_chunks _ _ _ _) as [r|] eqn:Er; [|discriminate].
      injection Hc as <-. rewrite length_rev, (stride_chunks_length _ _ _ _ _ Er), length_rev; [done|].
      intros E. apply (f_equal (@length _)) in E. rewrite length_rev, length_combine, Hl, Nat.min_id in E.
      subst s. simpl in E. lia.
Qed.

Lemma in_bounds_numel_pos idx s : in_bounds idx s -> 0 < numel s.
Proof. induction 1; simpl; nia. Qed.

(** The view reads, at index [idx], the element of the original tensor at
    the same row-major position. *)
Lemma compute_stride_dot s os s' ns idx :
  compute_stride s os s' = Some ns -> length os = length s -> numel s' = numel s ->
  in_bounds idx s' ->
  dot idx ns = dot (unravel s (dot idx (contiguous_strides s'))) os.
Proof.
  intros Hc Hl Hn Hb.
  pose proof (in_bounds_numel_pos _ _ Hb) as Hp.
  pose proof (dot_contiguous_lt _ _ Hb) as Hj. rewrite (in_bounds_numel _ _ Hb) in Hj.
  rewrite <- (unravel_dot _ _ Hb) at 1.
  rewrite !dot_unravel_rdot; try lia.
  - symmetry. apply (compute_stride_rdot s os s' ns); auto; lia.
  - eapply compute_stride_length; eauto.
Qed.

Lemma view_dims_app q r vn N b :
  Forall (lt 0) q -> 0 < vn -> vn * numel q = N ->
  view_dims (q ++ r) vn N b =
  let '(a, r', n) := view_dims r N N b in (pstrides vn b q ++ a, r', n).
Proof.
  revert vn; induction q as [|v q IH]; intros vn Hq Hvn HN.
  - change (vn * 1 = N) in HN. rewrite Nat.mul_1_r in HN. subst N.
    simpl. destruct (view_dims r vn vn b) as [[a r'] n]. reflexivity.
  - apply Forall_cons_iff in Hq as [Hv Hq']. change (vn * (v * numel q) = N) in HN.
    pose proof (numel_Forall_pos _ Hq').
    cbn [app view_dims].
    replace ((vn <? N) || (v =? 1)) with true
      by (symmetry; apply orb_true_iff; destruct (Nat.eq_dec v 1);
          [right; apply Nat.eqb_eq; done|left; apply Nat.ltb_lt; rewrite <- HN;
           assert (2 <= v * numel q) by nia; nia]).
    rewrite (IH (vn * v)) by (auto; nia).
    destruct (view_dims r N N b) as [[a r'] n]. reflexivity.
Qed.

Lemma view_dims_ones k vn N b : exists a, view_dims (repeat 1 k) vn N b = (a, [], vn).
Proof.
  revert vn; induction k as [|k IH]; intros vn; simpl; [eexists; reflexivity|].
  rewrite orb_true_r, Nat.mul_1_r. destruct (IH vn) as [a ->]. eexists; reflexivity.
Qed.

Lemma view_dims_stop v vs N b : v <> 1 -> view_dims (v :: vs) N N b = ([], v :: vs, N).
Proof.
  intros Hv. simpl. rewrite Nat.ltb_irrefl. apply Nat.eqb_neq in Hv. rewrite Hv. reflexivity.
Qed.

Lemma stride_chunks_same o P k b tn :
  o <> [] -> numel P = tn -> Forall (lt 0) (P ++ map fst o) ->
  stride_chunks o (P ++ map fst o ++ repeat 1 k) b tn <> None.
Proof.
  revert P b tn; induction o as [|[sz st] o IH]; intros P b tn Hne HP Hpos; [congruence|].
  assert (Hpos' : Forall (lt 0) (P ++ [sz])).
  { apply Forall_app in Hpos as [H1 H2]. apply Forall_app; split; [done|].
    inversion H2; subst; constructor; [lia|constructor]. }
  assert (Ho : Forall (lt 0) (map fst o)).
  { apply Forall_app in Hpos as [_ H2]. inversion H2; subst. done. }
  replace (P ++ map fst ((sz, st) :: o) ++ repeat 1 k) with ((P ++ [sz]) ++ map fst o ++ repeat 1 k)
    by (simpl; rewrite <- app_assoc; reflexivity).
  cbn [stride_chunks].
  destruct (match o with [] => true | _ => _ end) eqn:Hend.
  - rewrite (view_dims_app (P ++ [sz]) _ 1 (tn * sz) b) by (auto; rewrite numel_app; simpl; lia).
    destruct o as [|[sz' st'] o].
    + simpl. destruct (view_dims_ones k (tn * sz) (tn * sz) b) as [a ->].
      rewrite Nat.eqb_refl. simpl. congruence.
    + apply andb_true_iff in Hend as [Hs' _]. apply negb_true_iff, Nat.eqb_neq in Hs'.
      cbn [map fst app]. rewrite view_dims_stop by exact Hs'.
      rewrite Nat.eqb_refl. cbn [negb].
      pose proof (IH [] st' 1 ltac:(congruence) eq_refl Ho) as Hr.
      cbn [app map fst] in Hr |- *.
      destruct (stride_chunks _ _ _ _); [simpl; congruence|exact Hr].
  - destruct o as [|[sz' st'] o]; [discriminate|].
    apply IH; [congruence|rewrite numel_app; simpl; lia|].
    rewrite <- app_assoc. exact Hpos.
Qed.

(** A tensor can always be viewed with its own shape, with any number of
    leading 1s added. *)
Lemma compute_stride_same s os k :
  length os = length s -> compute_stride s os (repeat 1 k ++ s) <> None.
Proof.
  intros Hl. unfold compute_stride. destruct s as [|x s0] eqn:Es; [congruence|].
  rewrite <- Es in *. destruct (numel s =? 0) eqn:Hz.
  { case_bool_decide; congruence. }
  apply Nat.eqb_neq in Hz.
  destruct (rev os) as [|base ros] eqn:Eos.
  { apply (f_equal (@length _)) in Eos. rewrite length_rev in Eos. subst. simpl in *. exfalso. lia. }
  rewrite rev_app_distr, rev_repeat.
  assert (Hfst : map fst (rev (combine s os)) = rev s) by (rewrite map_rev, combine_fst; auto).
  rewrite <- Hfst.
  pose proof (stride_chunks_same (rev (combine s os)) [] k base 1) as H.
  cbn [app] in H. destruct (stride_chunks _ _ _ _); [simpl; congruence|].
  apply H; [|reflexivity|].
  - intros E. rewrite E in Hfst. apply (f_equal (@length _)) in Hfst.
    rewrite length_rev in Hfst. subst. simpl in Hfst. lia.
  - rewrite Hfst. apply Forall_rev, numel_pos_Forall. lia.
Qed.

Lemma stride_chunks_one o vs b tn :
  o <> [] -> one_chunk tn b o ->
  stride_chunks o vs b tn =
  let '(a, rest, vn) := view_dims vs 1 (tn * numel (map fst o)) b in
  if negb (vn =? tn * numel (map fst o)) then None
  else match rest with [] => Some a | _ => None end.
Proof.
  revert tn; induction o as [|[sz st] o IH]; intros tn Hne Ho; [congruence|].
  destruct Ho as [_ Ho].
  replace (tn * numel (map fst ((sz, st) :: o))) with (tn * sz * numel (map fst o))
    by (cbn [map fst numel fold_right]; fold (numel (map fst o)); lia).
  destruct o as [|[sz' st'] o].
  - cbn [stride_chunks]. replace (tn * sz * numel (map fst [])) with (tn * sz) by (simpl; lia).
    reflexivity.
  - destruct Ho as [Hst Ho]. cbn [stride_chunks].
    rewrite Hst, Nat.eqb_refl, andb_false_r.
    rewrite <- Hst. fold (stride_chunks ((sz', st') :: o) vs b (tn * sz)).
    apply IH; [congruence|]. split; [exact Hst|exact Ho].
Qed.

Lemma combine_app {X Y} (a b : list X) (c d : list Y) :
  length a = length c -> combine (a ++ b) (c ++ d) = combine a c ++ combine b d.
Proof. revert c; induction a; intros [|? ?] Hl; simpl in *; try lia; [done|]. f_equal; auto. Qed.

Lemma one_chunk_contiguous s c :
  Forall (lt 0) s ->
  one_chunk c 1 (rev (combine s (map (fun x => x * c) (contiguous_strides s)))).
Proof.
  revert c; induction s as [|a s IH] using rev_ind; intros c Hs; [exact I|].
  apply Forall_app in Hs as [Hs Ha]. apply Forall_cons_iff in Ha as [Ha _].
  rewrite contiguous_strides_app, map_app, map_map, combine_app
    by (rewrite length_map, contiguous_strides_length; reflexivity).
  rewrite rev_app_distr. cbn. split; [lia|].
  replace (map (fun x => x * (Nat.max 1 a * 1) * c) (contiguous_strides s))
    with (map (fun x => x * (c * a)) (contiguous_strides s))
    by (apply map_ext; intros; rewrite Nat.max_r by lia; nia).
  apply IH, Hs.
Qed.

Lemma view_dims_all q vn N b :
  Forall (lt 0) q -> 0 < vn -> vn * numel q = N -> view_dims q vn N b = (pstrides vn b q, [], N).
Proof.
  intros Hq Hvn HN. pose proof (view_dims_app q [] vn N b Hq Hvn HN) as H.
  rewrite app_nil_r in H. rewrite H. simpl. rewrite app_nil_r. reflexivity.
Qed.

(** A contiguous tensor can be viewed with any shape of the same size. *)
Lemma compute_stride_contiguous s s' :
  numel s' = numel s -> compute_stride s (contiguous_strides s) s' <> None.
Proof.
  intros Hn. unfold compute_stride. destruct s as [|x s0] eqn:Es; [congruence|].
  rewrite <- Es in *. destruct (numel s =? 0) eqn:Hz.
  { case_bool_decide; congruence. }
  apply Nat.eqb_neq in Hz.
  assert (Hs : Forall (lt 0) s) by (apply numel_pos_Forall; lia).
  pose proof (one_chunk_contiguous s 1 Hs) as Ho.
  replace (map (fun x => x * 1) (contiguous_strides s)) with (contiguous_strides s) in Ho
    by (clear; induction (contiguous_strides s); simpl; f_equal; auto; lia).
  assert (Hfst : map fst (rev (combine s (contiguous_strides s))) = rev s)
    by (rewrite map_rev, combine_fst; auto using contiguous_strides_length).
  assert (Hsnd : map snd (rev (combine s (contiguous_strides s))) = rev (contiguous_strides s))
    by (rewrite map_rev, combine_snd; auto using contiguous_strides_length).
  destruct (rev (combine s (contiguous_strides s))) as [|[sz st] o] eqn:Eo.
  { apply (f_equal (@length _)) in Hfst. rewrite length_rev in Hfst. subst. simpl in *. congruence. }
  rewrite <- Hsnd. cbn [map snd].
  assert (st = 1) as -> by (destruct Ho as [H _]; lia).
  rewrite stride_chunks_one by (congruence || exact Ho).
  rewrite Hfst, numel_rev, <- Hn.
  rewrite view_dims_all by (try apply Forall_rev, numel_pos_Forall; rewrite ?numel_rev; lia).
  rewrite Nat.eqb_refl. simpl. congruence.
Qed.

End ShapeFacts.
End ShapeFacts.

Module Run.
Import Frame FrameFacts ShapeFacts.
Section Run.
Context {A : Type}.
Implicit Types (h : heap A) (st : nat -> A).

Lemma wp_bind {X Y} (m : M A X) (k : X -> M A Y) Q h :
  wp m (fun x h' => wp (k x) Q h') h -> wp (bind m k) Q h.
Proof. unfold wp, bind. destruct (m h) as [[]|[]]; auto. Qed.

Lemma wp_ret {X} (x : X) Q h : Q x h -> wp (ret x) Q h.
Proof. intros HQ; exact HQ. Qed.

Lemma wp_mono {X} (m : M A X) (Q Q' : X -> heap A -> Prop) h :
  wp m Q h -> (forall x h', Q x h' -> Q' x h') -> wp m Q' h.
Proof. unfold wp. destruct (m h) as [[]|[]]; auto. Qed.

Lemma wp_meta_of t m Q h : h_tensors h !! t = Some m -> Q m h -> wp (meta_of t) Q h.
Proof. intros Hm HQ. unfold wp, meta_of. rewrite Hm. exact HQ. Qed.

Lemma wp_shape_of t m Q h :
  h_tensors h !! t = Some m -> Q (t_shape m) h -> wp (shape_of t) Q h.
Proof. intros Hm HQ. unfold shape_of. apply wp_bind. eapply wp_meta_of; eauto. Qed.

Lemma wp_size_at t m d p Q h :
  h_tensors h !! t = Some m -> wrap_dim d (length (t_shape m)) = Some p ->
  Q (nth p (t_shape m) 0) h -> wp (size_at t d) Q h.
Proof.
  intros Hm Hp HQ. unfold size_at. apply wp_bind. eapply wp_shape_of; [exact Hm|].
  apply wp_bind. unfold wp, of_option. rewrite Hp. exact HQ.
Qed.

Lemma wp_of_option {X} e (o : option X) x Q h : o = Some x -> Q x h -> wp (of_option e o) Q h.
Proof. intros -> HQ. exact HQ. Qed.

Lemma wp_data_of t m st Q h :
  obj h t m st -> Q (fun idx => st (t_offset m + dot idx (t_stride m))) h -> wp (data_of t) Q h.
Proof. intros [Hm Hs] HQ. unfold wp, data_of. rewrite Hm, Hs. exact HQ. Qed.

Lemma wp_alloc s (f : list nat -> A) Q h :
  (forall h', fresh h h' (h_next h) (TensorMeta s (contiguous_strides s) 0 (h_next h))
                (fun j => f (unravel s j)) -> Q (h_next h) h') ->
  wp (alloc s f) Q h.
Proof.
  intros HQ. apply HQ. unfold fresh, grows, agree_below, obj; simpl.
  split; [split; [lia|split]|split; [reflexivity|split; [reflexivity|split]]].
  - intros t Ht. rewrite lookup_insert_ne by lia. reflexivity.
  - intros t Ht. rewrite lookup_insert_ne by lia. reflexivity.
  - apply lookup_insert_eq.
  - apply lookup_insert_eq.
Qed.

Lemma wp_new_view m st Q h :
  h_storages h !! t_storage m = Some st ->
  (forall h', fresh h h' (h_next h) m st -> Q (h_next h) h') ->
  wp (new_view m) Q h.
Proof.
  intros Hs HQ. apply HQ. unfold fresh, grows, agree_below, obj; simpl.
  split; [split; [lia|split]|split; [reflexivity|split; [reflexivity|split]]]; auto.
  - intros t Ht. rewrite lookup_insert_ne by lia. reflexivity.
  - apply lookup_insert_eq.
Qed.

(** Objects and storages below [n] survive a step that grows from [n]. *)
Lemma obj_grows n h h' x m st :
  grows n h h' -> x < n -> t_storage m < n -> obj h x m st -> obj h' x m st.
Proof.
  intros [_ [Gt Gs]] Hx Hs [Hm Hst]. split; [rewrite Gt; auto|rewrite Gs; auto].
Qed.

Lemma fresh_grows h h' x m st : fresh h h' x m st -> grows (h_next h) h h'.
Proof. intros [G _]. exact G. Qed.

Lemma fresh_next h h' x m st : fresh h h' x m st -> h_next h <= x < h_next h'.
Proof. intros [_ [-> [-> _]]]. lia. Qed.

Lemma grows_weaken n n' h h' : n' <= n -> grows n h h' -> grows n' h h'.
Proof.
  intros Hn [L [Gt Gs]]. split; [exact L|split]; intros; [apply Gt|apply Gs]; lia.
Qed.

Lemma grows_next n h h' : grows n h h' -> h_next h <= h_next h'.
Proof. intros [L _]. exact L. Qed.

(** A storage is read at [offset + dot idx stride]. *)
Lemma value_at_obj h x m st idx :
  obj h x m st -> value_at h x idx = Some (st (t_offset m + dot idx (t_stride m))).
Proof. intros [Hm Hs]. unfold value_at. rewrite Hm, Hs. reflexivity. Qed.

End Run.
End Run.

Module L2Frame.
Import Frame FrameFacts L2.

Lemma frame_l2_discrepancy n time path1 path2 arg :
  frame n (l2_discrepancy time path1 path2 arg) (fun _ => True).
Proof. unfold l2_discrepancy. frame_auto. Qed.

Lemma frame_forward_each {A} n fn (self : l2_module) calls :
  (forall a b c d, frame n (fn a b c d) (fun _ => True)) ->
  frame (A:=A) n (forward_each fn self calls) (fun _ => True).
Proof.
  intros Hfn. induction calls as [|[[t p1] p2] cs IH]; simpl.
  - apply frame_ret; exact I.
  - eapply frame_bind; [apply Hfn|intros ? _].
    eapply frame_bind; [exact IH|intros ? _]. apply frame_ret; exact I.
Qed.

End L2Frame.

Module InitClaims.
Import Frame FrameFacts Concrete.

(** Claim C5: an unrecognised [metric_type] makes both constructors fail
    with their configuration error (the [assert] raises [AssertionError])
    and leaves the heap exactly as it was: no parameter is allocated. *)
Theorem bad_metric_type_rejected {A P} `{Scalar A} (signatory : option (signatory_lib A))
    (rand : list nat -> A) in_channels depth (p : P) include_time pseudometric metric_type
    (h : heap A) :
  L2.metric_type_ok metric_type = false ->
  L2.init rand in_channels pseudometric metric_type h = inl (AssertionError, h) /\
  Logsig.init signatory rand in_channels depth p include_time pseudometric metric_type h
    = inl (AssertionError, h).
Proof.
  intros Hbad. assert (Hl : Logsig.metric_type_ok metric_type = false) by exact Hbad.
  unfold L2.init, Logsig.init. rewrite Hbad, Hl. split; reflexivity.
Qed.

Lemma bad_metric_type_rejected_witness :
  L2.metric_type_ok "bogus" = false /\
  L2.init (A:=Z) (fun _ => 0%Z) 3 true "bogus" heap_batch23 = inl (AssertionError, heap_batch23) /\
  Logsig.init (Some increment_signatory) (fun _ => 0%Z) 3 2 1%nat true true "bogus" heap_batch23
    = inl (AssertionError, heap_batch23).
Proof.
  split; [reflexivity|].
  exact (bad_metric_type_rejected (Some increment_signatory) (fun _ => 0%Z) 3 2 1%nat true true
           "bogus" heap_batch23 eq_refl).
Defined.

(** Claim C8: the [metric_type] check does not look at [pseudometric]:
    with [pseudometric = False] an unrecognised [metric_type] is still
    rejected by both constructors, although [forward] never reads
    [metric_type] when [pseudometric] is false. *)
Theorem metric_type_checked_without_pseudometric {A P} `{Scalar A} `{PNorm P A}
    (signatory : option (signatory_lib A)) (rand : list nat -> A) in_channels depth (p : P)
    include_time metric_type (h : heap A) :
  L2.metric_type_ok metric_type = false ->
  L2.init rand in_channels false metric_type h = inl (AssertionError, h) /\
  Logsig.init signatory rand in_channels depth p include_time false metric_type h
    = inl (AssertionError, h) /\
  (forall (self : Logsig.logsignature_discrepancy (A:=A) (P:=P)) metric_type' times path1 path2,
     Logsig.pseudometric self = false ->
     Logsig.forward self times path1 path2 =
     Logsig.forward (Logsig.LogsignatureDiscrepancy (Logsig.in_channels self) (Logsig.depth self)
        (Logsig.p self) (Logsig.include_time self) false metric_type' (Logsig.linear self)
        (Logsig.logsignature self)) times path1 path2).
Proof.
  intros Hbad. assert (Hl : Logsig.metric_type_ok metric_type = false) by exact Hbad.
  unfold L2.init, Logsig.init. rewrite Hbad, Hl. split; [reflexivity|split; [reflexivity|]].
  intros [] mt' times path1 path2 Hp. simpl in Hp. subst. reflexivity.
Qed.

Lemma metric_type_checked_without_pseudometric_witness :
  L2.metric_type_ok "bogus" = false /\
  L2.init (A:=Z) (fun _ => 0%Z) 1 false "bogus" heap_batch23 = inl (AssertionError, heap_batch23).
Proof.
  split; [reflexivity|].
  exact (proj1 (metric_type_checked_without_pseudometric (P:=nat) (Some increment_signatory)
          (fun _ => 0%Z) 1 1 1%nat true "bogus" heap_batch23 eq_refl)).
Defined.

(** Claim C6 (as stated: an unavailable signatory library always makes
    construction fail with the dependency error).  Refuted: with an
    unrecognised [metric_type] the [assert] runs first, so the error
    raised is the configuration error. *)
Lemma missing_signatory_bogus_counterexample :
  match Logsig.init (P:=nat) None (fun _ => 0%Z) 1 1 1%nat true true "bogus" heap_batch23 with
  | inl (e, _) => e = AssertionError /\ e <> ImportError
  | inr _ => False
  end.
Proof. vm_compute. split; [reflexivity|discriminate]. Qed.

(** Claim C6 (corrected): without the signatory library, construction
    fails at once, before anything is allocated: with [ImportError] when
    [metric_type] is recognised, and with the configuration error
    ([AssertionError]) otherwise, the [assert] being checked first.  With
    the library available and a recognised [metric_type], construction
    succeeds and keeps the library. *)
Theorem missing_signatory_fails_at_construction {A P} `{Scalar A} (rand : list nat -> A)
    in_channels depth (p : P) include_time pseudometric metric_type (h : heap A) :
  Logsig.init None rand in_channels depth p include_time pseudometric metric_type h
    = inl (if Logsig.metric_type_ok metric_type then ImportError else AssertionError, h) /\
  (forall lib, Logsig.metric_type_ok metric_type = true ->
     exists self h', Logsig.init (Some lib) rand in_channels depth p include_time pseudometric
                       metric_type h = inr (self, h') /\ Logsig.logsignature self = lib).
Proof.
  unfold Logsig.init. split.
  - destruct (Logsig.metric_type_ok metric_type); reflexivity.
  - intros lib Hok. rewrite Hok. simpl.
    destruct pseudometric; [destruct (String.eqb metric_type "general")|]; simpl;
      eexists; eexists; split; reflexivity.
Qed.

End InitClaims.

Module L2Claims.
Import Frame FrameFacts L2Frame L2.

(** Claim C9: [__init__] allocates [arg] with the shape fixed by the
    configuration ([(in, in)] for a general pseudometric, [(in,)] for a
    diagonal one, [()] without one); [forward] passes this [arg] as the
    fourth argument of the kernel, and any sequence of [forward] calls
    leaves [arg]'s metadata (so its shape) and its contents as they were. *)
Theorem l2_arg_fixed (rand : list nat -> R) in_channels pseudometric metric_type (h : heap R)
    (calls : list (nat * nat * nat)) :
  L2.metric_type_ok metric_type = true ->
  match L2.init rand in_channels pseudometric metric_type h with
  | inr (self, h1) =>
      exists m st,
        obj h1 (arg self) m st /\
        t_shape m = (if pseudometric then
                       if String.eqb metric_type "general" then [in_channels; in_channels]
                       else [in_channels]
                     else []) /\
        (forall time path1 path2,
           forward l2_discrepancy self time path1 path2 = l2_discrepancy time path1 path2 (arg self)) /\
        obj (final_heap (forward_each l2_discrepancy self calls h1)) (arg self) m st
  | inl _ => False
  end.
Proof.
  intros Hok. unfold L2.init. rewrite Hok. simpl.
  assert (Hgen : forall s, exists m st,
     obj (Heap (<[h_next h := TensorMeta s (contiguous_strides s) 0 (h_next h)]> (h_tensors h))
              (<[h_next h := fun j => rand (unravel s j)]> (h_storages h)) (S (h_next h)))
         (h_next h) m st /\ t_shape m = s /\
     (forall time path1 path2,
        forward l2_discrepancy (L2Discrepancy in_channels pseudometric metric_type (h_next h))
          time path1 path2 = l2_discrepancy time path1 path2 (h_next h)) /\
     obj (final_heap (forward_each l2_discrepancy
            (L2Discrepancy in_channels pseudometric metric_type (h_next h)) calls
            (Heap (<[h_next h := TensorMeta s (contiguous_strides s) 0 (h_next h)]> (h_tensors h))
              (<[h_next h := fun j => rand (unravel s j)]> (h_storages h)) (S (h_next h)))))
         (h_next h) m st).
  { intros s. do 2 eexists. split; [split; simpl; apply lookup_insert_eq|].
    split; [reflexivity|]. split; [reflexivity|].
    destruct (frame_forward_each (S (h_next h)) l2_discrepancy
                (L2Discrepancy in_channels pseudometric metric_type (h_next h)) calls
                (fun a b c d => frame_l2_discrepancy _ a b c d)
                (Heap (<[h_next h := TensorMeta s (contiguous_strides s) 0 (h_next h)]> (h_tensors h))
                   (<[h_next h := fun j => rand (unravel s j)]> (h_storages h)) (S (h_next h)))
                (le_n _)) as [[_ [Gt Gs]] _].
    split; [rewrite Gt by lia|rewrite Gs by (simpl; lia)]; simpl; apply lookup_insert_eq. }
  destruct pseudometric; [destruct (String.eqb metric_type "general")|]; apply Hgen.
Qed.

Lemma l2_arg_fixed_witness :
  L2.metric_type_ok "general" = true /\
  match L2.init (fun _ => 0%R) 2 true "general" (heap_of 0%R [] 0) with
  | inr (self, h1) =>
      exists m st,
        obj h1 (arg self) m st /\ t_shape m = [2; 2] /\
        (forall time path1 path2,
           forward l2_discrepancy self time path1 path2 = l2_discrepancy time path1 path2 (arg self)) /\
        obj (final_heap (forward_each l2_discrepancy self [(0, 0, 0)] h1)) (arg self) m st
  | inl _ => False
  end.
Proof.
  split; [reflexivity|].
  exact (l2_arg_fixed (fun _ => 0%R) 2 true "general" (heap_of 0%R [] 0) [(0, 0, 0)] eq_refl).
Defined.

End L2Claims.

Module RunOps.
Import Frame FrameFacts ShapeFacts Run.
Section RunOps.
Context {A : Type}.
Implicit Types (h : heap A) (st : nat -> A).

Lemma unsqueeze_meta_storage m d m' :
  unsqueeze_meta m d = Some m' -> t_storage m' = t_storage m /\ t_offset m' = t_offset m.
Proof. unfold unsqueeze_meta. destruct (wrap_dim _ _); intros E; inversion E; auto. Qed.

Lemma expand_meta_storage m s m' :
  expand_meta m s = Some m' -> t_storage m' = t_storage m /\ t_offset m' = t_offset m.
Proof.
  unfold expand_meta. destruct (expand_rev _ _ _ _) as [[]|]; intros E; inversion E; auto.
Qed.

Lemma wp_unsqueeze t m st d m' Q h :
  obj h t m st -> unsqueeze_meta m d = Some m' ->
  (forall h', fresh h h' (h_next h) m' st -> Q (h_next h) h') -> wp (unsqueeze t d) Q h.
Proof.
  intros [Hm Hs] Hu HQ. unfold unsqueeze. apply wp_bind. eapply wp_meta_of; [exact Hm|].
  apply wp_bind. eapply wp_of_option; [exact Hu|]. apply (wp_new_view _ st); [|exact HQ].
  destruct (unsqueeze_meta_storage _ _ _ Hu) as [-> _]. exact Hs.
Qed.

Lemma wp_expand t m st s m' Q h :
  obj h t m st -> expand_meta m s = Some m' ->
  (forall h', fresh h h' (h_next h) m' st -> Q (h_next h) h') -> wp (expand t s) Q h.
Proof.
  intros [Hm Hs] Hu HQ. unfold expand. apply wp_bind. eapply wp_meta_of; [exact Hm|].
  apply wp_bind. eapply wp_of_option; [exact Hu|]. apply (wp_new_view _ st); [|exact HQ].
  destruct (expand_meta_storage _ _ _ Hu) as [-> _]. exact Hs.
Qed.

Lemma wp_view t m st sizes s ns Q h :
  obj h t m st -> infer_size sizes (numel (t_shape m)) = Some s ->
  compute_stride (t_shape m) (t_stride m) s = Some ns ->
  (forall h', fresh h h' (h_next h) (TensorMeta s ns (t_offset m) (t_storage m)) st ->
              Q (h_next h) h') ->
  wp (view t sizes) Q h.
Proof.
  intros [Hm Hs] Hi Hc HQ. unfold view. apply wp_bind. eapply wp_meta_of; [exact Hm|].
  apply wp_bind. eapply wp_of_option; [exact Hi|].
  apply wp_bind. eapply wp_of_option; [exact Hc|].
  apply (wp_new_view _ st); [exact Hs|exact HQ].
Qed.

Lemma wp_view_some t m st sizes s Q h :
  obj h t m st -> infer_size sizes (numel (t_shape m)) = Some s ->
  compute_stride (t_shape m) (t_stride m) s <> None ->
  (forall ns h', compute_stride (t_shape m) (t_stride m) s = Some ns ->
     fresh h h' (h_next h) (TensorMeta s ns (t_offset m) (t_storage m)) st -> Q (h_next h) h') ->
  wp (view t sizes) Q h.
Proof.
  intros O Hi Hc HQ. destruct (compute_stride _ _ _) as [ns|] eqn:E; [|congruence].
  eapply wp_view; [exact O|exact Hi|exact E|]. intros h' F. exact (HQ ns h' eq_refl F).
Qed.

(** [unsqueeze_] changes the metadata of [t] in place. *)
Lemma wp_unsqueeze_ t m d m' Q h :
  h_tensors h !! t = Some m -> unsqueeze_meta m d = Some m' ->
  Q t (Heap (<[t := m']> (h_tensors h)) (h_storages h) (h_next h)) -> wp (unsqueeze_ t d) Q h.
Proof.
  intros Hm Hu HQ. unfold unsqueeze_. apply wp_bind. eapply wp_meta_of; [exact Hm|].
  apply wp_bind. eapply wp_of_option; [exact Hu|]. exact HQ.
Qed.

Lemma unsqueeze_meta_front m :
  unsqueeze_meta m 0 =
  Some (TensorMeta (1 :: t_shape m)
          (match t_shape m with [] => 1 | s :: _ => s * nth 0 (t_stride m) 0 end :: t_stride m)
          (t_offset m) (t_storage m)).
Proof.
  unfold unsqueeze_meta, wrap_dim, insert_at. simpl.
  destruct (t_shape m); reflexivity.
Qed.

Lemma wp_cat_last t1 t2 m1 m2 st1 st2 c1 c2 r Q h :
  obj h t1 m1 st1 -> obj h t2 m2 st2 -> rev (t_shape m1) = c1 :: r -> rev (t_shape m2) = c2 :: r ->
  (forall h', fresh h h' (h_next h)
     (TensorMeta (rev r ++ [c1 + c2]) (contiguous_strides (rev r ++ [c1 + c2])) 0 (h_next h))
     (fun j => let idx := unravel (rev r ++ [c1 + c2]) j in
               if List.last idx 0 <? c1
               then st1 (t_offset m1 + dot (removelast idx ++ [List.last idx 0]) (t_stride m1))
               else st2 (t_offset m2 + dot (removelast idx ++ [List.last idx 0 - c1]) (t_stride m2))) ->
   Q (h_next h) h') ->
  wp (cat_last t1 t2) Q h.
Proof.
  intros O1 O2 R1 R2 HQ. unfold cat_last.
  apply wp_bind. eapply wp_shape_of; [exact (proj1 O1)|].
  apply wp_bind. eapply wp_shape_of; [exact (proj1 O2)|].
  apply wp_bind. eapply wp_data_of; [exact O1|].
  apply wp_bind. eapply wp_data_of; [exact O2|].
  rewrite R1, R2, bool_decide_eq_true_2 by reflexivity.
  apply wp_alloc. exact HQ.
Qed.

Lemma broadcast_rev_same s : broadcast_rev s s = Some s.
Proof. induction s as [|a s IH]; [reflexivity|]. simpl. rewrite IH, Nat.eqb_refl. reflexivity. Qed.

Lemma broadcast_shapes_same s : broadcast_shapes s s = Some s.
Proof. unfold broadcast_shapes. rewrite broadcast_rev_same. simpl. rewrite rev_involutive. reflexivity. Qed.

Lemma wp_binop f t1 t2 m1 m2 st1 st2 s Q h :
  obj h t1 m1 st1 -> obj h t2 m2 st2 -> t_shape m1 = s -> t_shape m2 = s ->
  (forall h', fresh h h' (h_next h) (TensorMeta s (contiguous_strides s) 0 (h_next h))
     (fun j => let idx := unravel s j in
               f (st1 (t_offset m1 + dot (broadcast_index s idx) (t_stride m1)))
                 (st2 (t_offset m2 + dot (broadcast_index s idx) (t_stride m2)))) ->
   Q (h_next h) h') ->
  wp (binop f t1 t2) Q h.
Proof.
  intros O1 O2 S1 S2 HQ. unfold binop.
  apply wp_bind. eapply wp_shape_of; [exact (proj1 O1)|].
  apply wp_bind. eapply wp_shape_of; [exact (proj1 O2)|].
  apply wp_bind. eapply wp_data_of; [exact O1|].
  apply wp_bind. eapply wp_data_of; [exact O2|].
  apply wp_bind. eapply wp_of_option; [rewrite S1, S2; apply broadcast_shapes_same|].
  apply wp_alloc. rewrite S1, S2. exact HQ.
Qed.

Lemma wp_norm_last {P} (nm : P -> list A -> A) p t m st d r Q h :
  obj h t m st -> rev (t_shape m) = d :: r ->
  (forall h', fresh h h' (h_next h) (TensorMeta (rev r) (contiguous_strides (rev r)) 0 (h_next h))
     (fun j => nm p (map (fun k => st (t_offset m + dot (unravel (rev r) j ++ [k]) (t_stride m)))
                         (seq 0 d))) ->
   Q (h_next h) h') ->
  wp (norm_last nm p t) Q h.
Proof.
  intros O R HQ. unfold norm_last.
  apply wp_bind. eapply wp_shape_of; [exact (proj1 O)|].
  apply wp_bind. eapply wp_data_of; [exact O|].
  rewrite R. apply wp_alloc. exact HQ.
Qed.

Lemma wp_logsignature_apply `{Scalar A} lib depth t m st n l c Q h :
  obj h t m st -> t_shape m = [n; l; c] ->
  (forall h', fresh h h' (h_next h)
     (TensorMeta [n; logsignature_channels lib c depth]
        (contiguous_strides [n; logsignature_channels lib c depth]) 0 (h_next h))
     (fun j => match unravel [n; logsignature_channels lib c depth] j with
               | [b; k] => logsignature_stream lib depth l c
                             (fun i j => st (t_offset m + dot [b; i; j] (t_stride m))) k
               | _ => s_zero
               end) ->
   Q (h_next h) h') ->
  wp (logsignature_apply lib depth t) Q h.
Proof.
  intros O Sh HQ. unfold logsignature_apply.
  apply wp_bind. eapply wp_shape_of; [exact (proj1 O)|].
  apply wp_bind. eapply wp_data_of; [exact O|].
  rewrite Sh. apply wp_alloc. exact HQ.
Qed.

End RunOps.
End RunOps.

Module LogsigRun.
Import Frame FrameFacts ShapeFacts Run RunOps Logsig.
Section LogsigRun.
Context {A P : Type} `{Scalar A} `{PNorm P A}.
Implicit Types (h : heap A) (st : nat -> A).

Lemma raises_bind_l {X Y} (m : M A X) (k : X -> M A Y) e h :
  raises m e h -> raises (bind m k) e h.
Proof. unfold raises, bind. intros [h' E]. rewrite E. eauto. Qed.

Lemma heap_wf_obj h t m :
  heap_wf h -> h_tensors h !! t = Some m ->
  exists st, obj h t m st /\ t < h_next h /\ t_storage m < h_next h.
Proof.
  intros [Ht _] Hm. destruct (Ht t m Hm) as [H1 [H2 [st Hst]]].
  exists st. split; [split; assumption|auto].
Qed.

Lemma unsqueeze_meta_last_1d m L sL :
  t_shape m = [L] -> t_stride m = [sL] ->
  unsqueeze_meta m (-1) = Some (TensorMeta [L; 1] [sL; 1] (t_offset m) (t_storage m)).
Proof. intros Hs Ht. unfold unsqueeze_meta. rewrite Hs, Ht. reflexivity. Qed.

Lemma raises_bind {X Y} (m : M A X) (k : X -> M A Y) e h :
  wp m (fun x h' => raises (k x) e h') h -> raises (bind m k) e h.
Proof. unfold wp, raises, bind. destruct (m h) as [[]|[]]; tauto. Qed.

Lemma raises_raise {X} e h : raises (raise (X:=X) e) e h.
Proof. exists h. reflexivity. Qed.

Lemma firstn_batch (B : list nat) L C : firstn (length (B ++ [L; C]) - 2) (B ++ [L; C]) = B.
Proof.
  rewrite length_app. simpl. replace (length B + 2 - 2) with (length B) by lia.
  rewrite firstn_app, firstn_all, Nat.sub_diag. simpl. apply app_nil_r.
Qed.

Lemma grows_chain h h1 h2 :
  grows (h_next h) h h1 -> grows (h_next h1) h1 h2 -> grows (h_next h) h h2.
Proof.
  intros G1 G2. eapply grows_trans; [exact G1|]. eapply grows_weaken; [|exact G2].
  apply (grows_next _ _ _ G1).
Qed.

(** The time-channel loop prepends the batch dimensions one at a time, each
    in front of the previous ones: the result has the batch shape reversed. *)
Lemma wp_prepend_batch_dims dims tc m st Q h :
  obj h tc m st -> tc < h_next h -> t_storage m < h_next h ->
  length (t_stride m) = length (t_shape m) ->
  (forall h' x m', grows (h_next h) h h' -> obj h' x m' st -> x < h_next h' ->
     t_shape m' = rev dims ++ t_shape m -> length (t_stride m') = length (t_shape m') ->
     t_storage m' = t_storage m -> Q x h') ->
  wp (prepend_batch_dims tc dims) Q h.
Proof.
  revert tc m Q h. induction dims as [|dim ds IH]; intros tc m Q h Ho Ht Hs Hl HQ; simpl.
  - apply wp_ret. apply (HQ h tc m); auto using grows_refl.
  - apply wp_bind. eapply wp_unsqueeze; [exact Ho|apply unsqueeze_meta_front|].
    intros h1 F1. pose proof (fresh_next _ _ _ _ _ F1) as N1. pose proof (fresh_grows _ _ _ _ _ F1) as G1.
    destruct F1 as [_ [_ [E1 O1]]].
    apply wp_bind. eapply wp_shape_of; [apply (obj_grows _ _ _ _ _ _ G1 Ht Hs Ho)|].
    apply wp_bind. eapply wp_expand; [exact O1| |].
    { apply expand_meta_same_rank; simpl.
      - constructor; [right; reflexivity|]. clear. induction (t_shape m); constructor; [left; reflexivity|assumption].
      - lia. }
    intros h2 F2. pose proof (fresh_next _ _ _ _ _ F2) as N2. pose proof (fresh_grows _ _ _ _ _ F2) as G2.
    destruct F2 as [_ [_ [E2 O2]]]. simpl in O2.
    eapply IH; [exact O2| | | |]; simpl in *; [lia|lia| |].
    { rewrite length_expanded_strides; simpl; lia. }
    intros h' x m' G3 O3 Hx Hsh Hln Hst. apply (HQ h' x m'); auto.
    + eapply grows_chain; [exact G1|]. eapply grows_chain; [exact G2|exact G3].
    + rewrite Hsh. simpl. rewrite <- app_assoc. reflexivity.
Qed.

End LogsigRun.
End LogsigRun.

Module LogsigBugs.
Import Frame FrameFacts ShapeFacts Run RunOps Logsig LogsigRun HeapFacts Concrete.

(** Claim C1 (failing input): with [include_time], a [path1] of batch
    shape (2, 3) and an unbatched [path2], [forward] does not return the
    (2, 3)-shaped table: it raises [RuntimeError] (in [torch.cat], the time
    channel having been built with batch shape (3, 2)). *)
Theorem forward_batch23_raises :
  match Logsig.forward ld_time 0 1 2 heap_batch23 with
  | inl (e, _) => e = RuntimeError
  | inr _ => False
  end.
Proof. vm_compute. reflexivity. Qed.

Section Bugs.
Context {A P : Type} `{Scalar A} `{PNorm P A}.

(** Claim C7 (divergence): with [include_time], the time channel is
    broadcast to the reversed batch shape of [path1], so [forward] raises
    [RuntimeError] whenever that batch shape is not a palindrome. *)
Theorem include_time_reverses_batch (self : logsignature_discrepancy (A:=A) (P:=P))
    times path1 path2 (h : heap A) mt m1 m2 L B1 C1 B2 L2 C2 :
  heap_wf h -> include_time self = true ->
  h_tensors h !! times = Some mt -> t_shape mt = [L] -> length (t_stride mt) = 1 ->
  h_tensors h !! path1 = Some m1 -> t_shape m1 = B1 ++ [L; C1] ->
  h_tensors h !! path2 = Some m2 -> t_shape m2 = B2 ++ [L2; C2] ->
  rev B1 <> B1 ->
  raises (forward self times path1 path2) RuntimeError h.
Proof.
  intros Hwf Hit Hmt Hst Hlt Hm1 Hs1 Hm2 Hs2 Hpal.
  destruct (heap_wf_obj _ _ _ Hwf Hmt) as [stt [Ot [Bt Bst]]].
  destruct (heap_wf_obj _ _ _ Hwf Hm1) as [st1 [O1 [B1t B1s]]].
  destruct (t_stride mt) as [|sL [|]] eqn:Est; simpl in Hlt; try lia.
  unfold forward.
  apply raises_bind. eapply wp_shape_of; [exact Hm1|].
  apply raises_bind. eapply wp_shape_of; [exact Hm2|].
  rewrite Hs1, Hs2, Hit, !firstn_batch.
  apply raises_bind_l.
  apply raises_bind. eapply wp_unsqueeze; [exact Ot|apply (unsqueeze_meta_last_1d _ L sL Hst Est)|].
  intros ha Fa.
  pose proof (fresh_next _ _ _ _ _ Fa) as Na. pose proof (fresh_grows _ _ _ _ _ Fa) as Ga.
  destruct Fa as [_ [_ [Ea Oa]]].
  apply raises_bind. eapply wp_prepend_batch_dims; [exact Oa|lia|simpl; lia|reflexivity|].
  intros hb tc1 mc1 Gb Ob Hb Hsb Hlb Hstb. simpl in Hstb.
  pose proof (grows_next _ _ _ Gb) as Nb.
  apply raises_bind. eapply wp_prepend_batch_dims;
    [eapply obj_grows; [exact Gb| | |exact Oa]; simpl; lia|lia|simpl; lia|reflexivity|].
  intros hc tc2 mc2 Gc Oc Hc Hsc Hlc Hstc.
  pose proof (grows_next _ _ _ Gc) as Nc.
  assert (Ghc : grows (h_next h) h hc).
  { eapply grows_chain; [exact Ga|]. eapply grows_chain; [exact Gb|exact Gc]. }
  pose proof (obj_grows _ _ _ _ _ _ Ghc B1t B1s O1) as O1c.
  assert (Obc : obj hc tc1 mc1 stt) by (eapply obj_grows; [exact Gc|lia|rewrite Hstb; lia|exact Ob]).
  apply raises_bind_l. unfold cat_last.
  apply raises_bind. eapply wp_shape_of; [exact (proj1 Obc)|].
  apply raises_bind. eapply wp_shape_of; [exact (proj1 O1c)|].
  apply raises_bind. eapply wp_data_of; [exact Obc|].
  apply raises_bind. eapply wp_data_of; [exact O1c|].
  rewrite Hsb, Hs1. simpl. rewrite !rev_app_distr, rev_involutive. simpl.
  rewrite bool_decide_eq_false_2; [apply raises_raise|].
  intros E. apply Hpal. injection E. auto.
Qed.
End Bugs.

Lemma include_time_reverses_batch_witness :
  rev [2; 3] <> [2; 3] /\ raises (Logsig.forward ld_time 0 1 2) RuntimeError heap_batch23.
Proof.
  split; [vm_compute; congruence|].
  exact (include_time_reverses_batch ld_time 0 1 2 heap_batch23
           (TensorMeta [2] [1] 0 0) (TensorMeta [2; 3; 2; 1] [6; 2; 1; 1] 0 1)
           (TensorMeta [2; 1] [1; 1] 0 2) 2 [2; 3] 1 [] 2 1
           (heap_of_wf _ _) eq_refl eq_refl eq_refl eq_refl eq_refl eq_refl eq_refl eq_refl
           ltac:(vm_compute; congruence)).
Defined.

End LogsigBugs.

Module L2KernelClaims.
Import Frame FrameFacts Run L2 Concrete.

(** Claim C4: the kernel raises [ShapeError], leaving the heap exactly as
    it was (no tensor produced), when [path2] has a batch dimension, when
    the channel counts differ, or when [time] is not strictly increasing;
    with an unbatched [path2], equal channel counts and a strictly
    increasing [time] it returns a result. *)
Theorem l2_kernel_shape_errors time path1 path2 arg (h : heap R) mt m1 m2 ma gt g1 g2 ga :
  obj h time mt gt -> obj h path1 m1 g1 -> obj h path2 m2 g2 -> obj h arg ma ga ->
  let times_at i := gt (t_offset mt + dot [i] (t_stride mt)) in
  (2 < length (t_shape m2) -> l2_discrepancy time path1 path2 arg h = inl (ShapeError, h)) /\
  (forall L b l C1 L2 C2,
     t_shape mt = [L] -> t_shape m1 = b ++ [l; C1] -> t_shape m2 = [L2; C2] ->
     (C1 <> C2 -> l2_discrepancy time path1 path2 arg h = inl (ShapeError, h)) /\
     (strictly_increasing times_at L = false ->
      l2_discrepancy time path1 path2 arg h = inl (ShapeError, h)) /\
     (C1 = C2 -> strictly_increasing times_at L = true ->
      exists r h', l2_discrepancy time path1 path2 arg h = inr (r, h'))).
Proof.
  intros [Ht Gt] [H1 G1] [H2 G2] [Ha Ga]. cbv zeta.
  unfold l2_discrepancy, shape_of, meta_of, data_of, bind, ret. cbv beta.
  repeat (first [rewrite Ht|rewrite H1|rewrite H2|rewrite Ha
                |rewrite Gt|rewrite G1|rewrite G2|rewrite Ga]; cbv beta iota).
  split.
  - intros Hl. destruct (t_shape mt) as [|L [|]]; [reflexivity| |reflexivity].
    destruct (rev (t_shape m1)) as [|C1 [|? rb]]; try reflexivity.
    destruct (t_shape m2) as [|? [|? [|]]]; simpl in Hl; try lia; reflexivity.
  - intros L b l C1 L2 C2 -> -> ->. rewrite rev_app_distr. simpl.
    split; [|split].
    + intros Hne. apply Nat.eqb_neq in Hne. rewrite Hne. reflexivity.
    + intros Hs. rewrite Hs. destruct (C1 =? C2); reflexivity.
    + intros <- Hs. rewrite Nat.eqb_refl, Hs. simpl. eexists; eexists; reflexivity.
Qed.

Lemma l2_kernel_shape_errors_witness :
  obj heap_l2_arg 0 (TensorMeta [3] [1] 0 0) (fun j => nth j [0; 1; 2]%R 0%R) /\
  obj heap_l2_arg 2 (TensorMeta [3; 1] [1; 1] 0 2) (fun j => nth j [0; 0; 0]%R 0%R) /\
  (2 < length [3; 1] ->
   l2_discrepancy 0 1 2 3 heap_l2_arg = inl (ShapeError, heap_l2_arg)) /\
  exists r h', l2_discrepancy 0 1 2 3 heap_l2_arg = inr (r, h').
Proof.
  split; [split; reflexivity|]. split; [split; reflexivity|].
  destruct (l2_kernel_shape_errors 0 1 2 3 heap_l2_arg
              (TensorMeta [3] [1] 0 0) (TensorMeta [3; 1] [1; 1] 0 1)
              (TensorMeta [3; 1] [1; 1] 0 2) (TensorMeta [] [] 0 3)
              (fun j => nth j [0; 1; 2]%R 0%R) (fun j => nth j [0; 1; 2]%R 0%R)
              (fun j => nth j [0; 0; 0]%R 0%R) (fun j => nth j [1]%R 0%R)
              (conj eq_refl eq_refl) (conj eq_refl eq_refl) (conj eq_refl eq_refl)
              (conj eq_refl eq_refl)) as [Hb Hc].
  split; [exact Hb|].
  destruct (Hc 3 [] 3 1 3 1 eq_refl eq_refl eq_refl) as [_ [_ Hok]].
  apply Hok; [reflexivity|].
  unfold strictly_increasing. simpl.
  destruct (Rlt_dec _ _) as [|n1]; [|exfalso; apply n1; simpl; lra].
  destruct (Rlt_dec _ _) as [|n2]; [reflexivity|exfalso; apply n2; simpl; lra].
Defined.

End L2KernelClaims.

Module L2Value.
Import Frame FrameFacts ShapeFacts Run L2 Concrete.
Local Open Scope R_scope.

Lemma derivable_pt_lim_sumR (l : list nat) (F f : nat -> R -> R) x :
  (forall k, derivable_pt_lim (F k) x (f k x)) ->
  derivable_pt_lim (fun t => sumR (map (fun k => F k t) l)) x (sumR (map (fun k => f k x) l)).
Proof.
  intros HF. induction l as [|k l IH]; simpl.
  - apply derivable_pt_lim_const.
  - apply (derivable_pt_lim_plus (F k) (fun t => sumR (map (fun k => F k t) l))); auto.
Qed.

Lemma derivable_pt_lim_cubic c1 c2 c3 t0 x :
  derivable_pt_lim (fun t => c1 * (t - t0) + c2 * ((t - t0) * (t - t0)) +
                             c3 * ((t - t0) * (t - t0) * (t - t0))) x
    (c1 + c2 * (2 * (x - t0)) + c3 * (3 * ((x - t0) * (x - t0)))).
Proof.
  assert (Hu : derivable_pt_lim (fun t => t - t0) x 1).
  { replace 1 with (1 - 0) by ring.
    apply (derivable_pt_lim_minus id (fct_cte t0));
      [apply derivable_pt_lim_id|apply derivable_pt_lim_const]. }
  assert (Hu2 : derivable_pt_lim (fun t => (t - t0) * (t - t0)) x (2 * (x - t0))).
  { replace (2 * (x - t0)) with (1 * (x - t0) + (x - t0) * 1) by ring.
    apply (derivable_pt_lim_mult (fun t => t - t0) (fun t => t - t0)); assumption. }
  assert (Hu3 : derivable_pt_lim (fun t => (t - t0) * (t - t0) * (t - t0)) x
                  (3 * ((x - t0) * (x - t0)))).
  { replace (3 * ((x - t0) * (x - t0)))
      with (2 * (x - t0) * (x - t0) + (x - t0) * (x - t0) * 1) by ring.
    apply (derivable_pt_lim_mult (fun t => (t - t0) * (t - t0)) (fun t => t - t0)); assumption. }
  assert (H1 : derivable_pt_lim (fun t => c1 * (t - t0)) x (c1 * 1))
    by (apply (derivable_pt_lim_scal (fun t => t - t0)); exact Hu).
  assert (H2 : derivable_pt_lim (fun t => c2 * ((t - t0) * (t - t0))) x (c2 * (2 * (x - t0))))
    by (apply (derivable_pt_lim_scal (fun t => (t - t0) * (t - t0))); exact Hu2).
  assert (H3 : derivable_pt_lim (fun t => c3 * ((t - t0) * (t - t0) * (t - t0))) x
                 (c3 * (3 * ((x - t0) * (x - t0)))))
    by (apply (derivable_pt_lim_scal (fun t => (t - t0) * (t - t0) * (t - t0))); exact Hu3).
  replace (c1 + c2 * (2 * (x - t0)) + c3 * (3 * ((x - t0) * (x - t0))))
    with (c1 * 1 + c2 * (2 * (x - t0)) + c3 * (3 * ((x - t0) * (x - t0)))) by ring.
  apply (derivable_pt_lim_plus (fun t => c1 * (t - t0) + c2 * ((t - t0) * (t - t0)))
           (fun t => c3 * ((t - t0) * (t - t0) * (t - t0)))); [|exact H3].
  apply (derivable_pt_lim_plus (fun t => c1 * (t - t0)) (fun t => c2 * ((t - t0) * (t - t0))));
    assumption.
Qed.

Lemma sumR_map_ext (l : list nat) (f g : nat -> R) :
  (forall k, f k = g k) -> sumR (map f l) = sumR (map g l).
Proof. intros E. induction l as [|k l IH]; simpl; [reflexivity|]. rewrite E, IH. reflexivity. Qed.

Lemma sumR_scale (l : list nat) (c : R) (f : nat -> R) :
  sumR (map (fun k => c * f k) l) = c * sumR (map f l).
Proof. induction l as [|k l IH]; simpl; [ring|]. rewrite IH. ring. Qed.

(** The integrand of one segment: the squared norm of the linear
    interpolation from [e0] (at [t0]) to [e1] (at [t1]). *)
Lemma segment_integral t0 t1 C (e0 e1 : nat -> R) (Hlt : t0 < t1)
    (pr : Newton_integrable
            (fun t => sumR (map (fun k => Rsqr (e0 k + (t - t0) / (t1 - t0) * (e1 k - e0 k)))
                                (seq 0 C))) t0 t1) :
  NewtonInt _ t0 t1 pr = segment (t1 - t0) C e0 e1.
Proof.
  set (h := t1 - t0). assert (Hh : h <> 0) by (unfold h; lra).
  set (F := fun k t => e0 k * e0 k * (t - t0) + (e0 k * (e1 k - e0 k) / h) * ((t - t0) * (t - t0)) +
                       ((e1 k - e0 k) * (e1 k - e0 k) / (3 * (h * h))) *
                       ((t - t0) * (t - t0) * (t - t0))).
  set (G := fun t => sumR (map (fun k => F k t) (seq 0 C))).
  set (f := fun t => sumR (map (fun k => Rsqr (e0 k + (t - t0) / h * (e1 k - e0 k))) (seq 0 C))).
  assert (HG : forall x, derivable_pt_lim G x (f x)).
  { intros x. unfold G, f.
    apply (derivable_pt_lim_sumR (seq 0 C) F
             (fun k x => Rsqr (e0 k + (x - t0) / h * (e1 k - e0 k)))).
    intros k. unfold F.
    replace (Rsqr (e0 k + (x - t0) / h * (e1 k - e0 k)))
      with (e0 k * e0 k + (e0 k * (e1 k - e0 k) / h) * (2 * (x - t0)) +
            ((e1 k - e0 k) * (e1 k - e0 k) / (3 * (h * h))) * (3 * ((x - t0) * (x - t0))))
      by (unfold Rsqr; field; exact Hh).
    apply derivable_pt_lim_cubic. }
  assert (HA : antiderivative f G t0 t1).
  { split; [|lra]. intros x _. exists (exist _ (f x) (HG x)). reflexivity. }
  destruct pr as [g [Hg|Hg]]; unfold NewtonInt.
  - destruct (antiderivative_Ucte f g G t0 t1 Hg HA) as [c Hc].
    rewrite (Hc t1), (Hc t0) by lra.
    replace (G t1 + c - (G t0 + c)) with (G t1 - G t0) by ring.
    unfold G, segment. fold h.
    rewrite (sumR_map_ext _ (fun k => F k t0) (fun _ => 0 * 0)) by (intros k; unfold F; ring).
    rewrite (sumR_map_ext _ (fun k => F k t1)
               (fun k => h / 3 * (e0 k * e0 k + e0 k * e1 k + e1 k * e1 k))).
    + rewrite sumR_scale, (sumR_scale _ 0 (fun _ => 0)). ring.
    + intros k. unfold F. replace (t1 - t0) with h by reflexivity. field. exact Hh.
  - destruct Hg as [_ Hle]. lra.
Qed.

Lemma l2_kernel_run time path1 path2 arg (h : heap R) mt m1 m2 ma gt g1 g2 ga L b l C L2 :
  obj h time mt gt -> obj h path1 m1 g1 -> obj h path2 m2 g2 -> obj h arg ma ga ->
  t_shape mt = [L] -> t_shape m1 = b ++ [l; C] -> t_shape m2 = [L2; C] ->
  let tm i := gt (t_offset mt + dot [i] (t_stride mt))%nat in
  strictly_increasing tm L = true ->
  wp (l2_discrepancy time path1 path2 arg)
    (fun r h' => exists m st, obj h' r m st /\ t_shape m = b /\
       forall idx, in_bounds idx b ->
       let e i := apply_pseudometric (t_shape ma) (fun j => ga (t_offset ma + dot j (t_stride ma))%nat) C
                    (fun k => g1 (t_offset m1 + dot (idx ++ [i; k]) (t_stride m1))%nat -
                              g2 (t_offset m2 + dot [i; k] (t_stride m2))%nat) in
       st (t_offset m + dot idx (t_stride m))%nat =
       sqrt (sumR (map (fun i => segment (tm (S i) - tm i) C (e i) (e (S i))) (seq 0 (L - 1))))) h.
Proof.
  intros [Ht Gt] [H1 G1] [H2 G2] [Ha Ga] Hst Hs1 Hs2 tm Hinc.
  unfold wp, l2_discrepancy, shape_of, meta_of, data_of, bind, ret. cbv beta.
  repeat (first [rewrite Ht|rewrite H1|rewrite H2|rewrite Ha
                |rewrite Gt|rewrite G1|rewrite G2|rewrite Ga]; cbv beta iota).
  rewrite Hst, Hs1, Hs2, rev_app_distr. cbn [rev app]. cbv beta iota.
  rewrite Nat.eqb_refl. cbv beta iota. unfold tm in Hinc. rewrite Hinc. cbv beta iota.
  rewrite rev_involutive. unfold alloc.
  eexists; eexists; split; [split; simpl; apply lookup_insert_eq|]. split; [reflexivity|].
  intros idx Hidx. simpl. rewrite unravel_dot by exact Hidx. reflexivity.
Qed.

(** Claim C3: on the spec's scenario ([times = [0, 1, 2]], [path1 = [[0],
    [1], [2]]], [path2 = [[0], [0], [0]]], no pseudometric), [forward]
    returns the 0-dimensional tensor [sqrt (8/3)]; and in general each
    entry of the kernel's result is [sqrt] of the sum over the segments
    [[times[i], times[i+1]]] of the integral of the squared norm of the
    pseudometric applied to the linear interpolation of [path1 - path2]
    (any Newton integrability proof gives the same integral). *)
Theorem l2_kernel_value :
  match L2.init (fun _ => 0%R) 1 false "general" heap_l2 with
  | inr (self, h1) =>
      wp (L2.forward l2_discrepancy self 0 1 2)
        (fun r h2 => exists m, h_tensors h2 !! r = Some m /\ t_shape m = [] /\
                               value_at h2 r [] = Some (sqrt (8 / 3))) h1
  | inl _ => False
  end /\
  (forall time path1 path2 arg (h : heap R) mt m1 m2 ma gt g1 g2 ga L b l C L2,
   obj h time mt gt -> obj h path1 m1 g1 -> obj h path2 m2 g2 -> obj h arg ma ga ->
   t_shape mt = [L] -> t_shape m1 = b ++ [l; C] -> t_shape m2 = [L2; C] ->
   let tm i := gt (t_offset mt + dot [i] (t_stride mt))%nat in
   strictly_increasing tm L = true ->
   wp (l2_discrepancy time path1 path2 arg)
     (fun r h' => exists m st, obj h' r m st /\ t_shape m = b /\
        forall idx, in_bounds idx b ->
        let e i := apply_pseudometric (t_shape ma)
                     (fun j => ga (t_offset ma + dot j (t_stride ma))%nat) C
                     (fun k => g1 (t_offset m1 + dot (idx ++ [i; k]) (t_stride m1))%nat -
                               g2 (t_offset m2 + dot [i; k] (t_stride m2))%nat) in
        forall prs : (forall i, Newton_integrable
                       (fun t => sumR (map (fun k => Rsqr (e i k + (t - tm i) / (tm (S i) - tm i) *
                                                           (e (S i) k - e i k))) (seq 0 C)))
                       (tm i) (tm (S i))),
        value_at h' r idx = Some (sqrt (sumR (map (fun i => NewtonInt _ _ _ (prs i))
                                                  (seq 0 (L - 1)))))) h).
Proof.
  split.
  - unfold L2.init, L2.metric_type_ok. simpl. unfold L2.forward. simpl.
    eapply wp_mono.
    + apply (l2_kernel_run 0 1 2 3 _ (TensorMeta [3] [1] 0 0)%nat (TensorMeta [3; 1] [1; 1] 0 1)%nat
               (TensorMeta [3; 1] [1; 1] 0 2)%nat (TensorMeta [] [] 0 3)%nat
               (fun j => nth j [0; 1; 2] 0) (fun j => nth j [0; 1; 2] 0)
               (fun j => nth j [0; 0; 0] 0) (fun _ => 0) 3 [] 3 1 3);
        try (split; reflexivity); try reflexivity.
      unfold strictly_increasing. simpl.
      destruct (Rlt_dec _ _) as [|n1]; [|exfalso; apply n1; lra].
      destruct (Rlt_dec _ _) as [|n2]; [reflexivity|exfalso; apply n2; lra].
    + intros r h2 [m [st [Hobj [Hsh Hval]]]]. exists m.
      split; [exact (proj1 Hobj)|]. split; [exact Hsh|].
      rewrite (value_at_obj _ _ _ _ _ Hobj). f_equal. rewrite Hval by constructor.
      f_equal. unfold segment, apply_pseudometric, sumR. simpl. field.
  - intros time path1 path2 arg h mt m1 m2 ma gt g1 g2 ga L b l C L2 O0 O1 O2 Oa Hst Hs1 Hs2
      tm Hinc.
    eapply wp_mono; [exact (l2_kernel_run time path1 path2 arg h mt m1 m2 ma gt g1 g2 ga L b l C L2
                              O0 O1 O2 Oa Hst Hs1 Hs2 Hinc)|].
    intros r h' [m [st [Hobj [Hsh Hval]]]]. exists m, st.
    split; [exact Hobj|]. split; [exact Hsh|].
    intros idx Hidx e prs. rewrite (value_at_obj _ _ _ _ _ Hobj). f_equal.
    rewrite (Hval idx Hidx). f_equal. f_equal. apply map_ext_in.
    intros i Hi. symmetry. apply segment_integral.
    unfold strictly_increasing in Hinc. rewrite forallb_forall in Hinc.
    specialize (Hinc i Hi). destruct (Rlt_dec _ _) as [Hlt|]; [exact Hlt|discriminate].
Qed.

End L2Value.

Module ForwardRun.
Import Frame FrameFacts ShapeFacts Run RunOps.

Ltac bump G :=
  match type of G with
  | grows _ ?h0 ?h1 =>
      repeat match goal with
      | O : obj h0 ?x ?m ?st |- _ =>
          let O' := fresh "Ob" in
          assert (O' : obj h1 x m st)
            by (eapply obj_grows; [exact G|simpl; lia|simpl; lia|exact O]);
          clear O
      end
  end.

Ltac fresh_step F :=
  let N := fresh "N" in let G := fresh "G" in let E := fresh "E" in let O := fresh "O" in
  pose proof (fresh_next _ _ _ _ _ F) as N; pose proof (fresh_grows _ _ _ _ _ F) as G;
  destruct F as [_ [_ [E O]]]; bump G.

Lemma obj_meta {A} (h : heap A) x m st : obj h x m st -> h_tensors h !! x = Some m.
Proof. intros [E _]. exact E. Qed.

Ltac size_step := apply wp_bind; eapply wp_size_at; [eapply obj_meta; eassumption|reflexivity|]; cbn [nth].

Lemma infer_size_flat L C : 0 < L -> 0 < C ->
  infer_size [None; Some L; Some C] (numel [L; C]) = Some [1; L; C].
Proof.
  intros HL HC. unfold infer_size, numel. simpl.
  replace (L * (C * 1)) with (L * C) by lia.
  destruct (Nat.eqb_spec (L * C) 0) as [E|_]; [nia|].
  rewrite Nat.Div0.mod_same, Nat.div_same by lia. reflexivity.
Qed.

Lemma infer_size_drop1 D : infer_size [Some D] (numel [1; D]) = Some [D].
Proof.
  unfold infer_size, numel. simpl.
  destruct (Nat.eqb_spec (D * 1) (D * 1 + 0)) as [_|Hne]; [reflexivity|lia].
Qed.

Lemma map_repeat_zero {A} (z : A) (n : nat) : map (fun _ : nat => z) (seq 0 n) = repeat z n.
Proof. rewrite map_const, length_seq. reflexivity. Qed.

End ForwardRun.

Module LogsigValueClaims.
Import Frame FrameFacts ShapeFacts Run RunOps Logsig LogsigRun HeapFacts ForwardRun Concrete.

(** Claim C2 (as stated: the same path passed twice always gives the zero
    tensor).  Refuted on a batched path: with batch shape (2,), whose two
    paths have increments 1 and 3, the result is the (2, 2) table of
    pairwise discrepancies, and its entry (0, 1) is 2. *)
Lemma forward_same_batched_counterexample :
  match Logsig.forward ld_plain 0 1 1 heap_batch2 with
  | inr (r, h') =>
      option_map t_shape (h_tensors h' !! r) = Some [2; 2] /\ value_at h' r [0; 1] = Some 2%Z
  | inl _ => False
  end.
Proof. vm_compute. split; reflexivity. Qed.

Section Values.
Context {A P : Type} `{Scalar A} `{PNorm P A}.

(** Claim C2 (corrected): with [pseudometric = False] and the same
    unbatched path (shape (L, C), L, C >= 1, with any strides) passed as
    both arguments, [forward] returns the 0-dimensional zero tensor, for
    every depth, every [p] (a p-norm of a zero vector being zero) and either
    value of [include_time]. *)
Theorem forward_same_unbatched_zero (self : logsignature_discrepancy (A:=A) (P:=P))
    times x (h : heap A) mt m L C :
  heap_wf h -> pseudometric self = false ->
  (forall a, s_sub a a = s_zero) -> (forall n, p_norm (p self) (repeat s_zero n) = s_zero) ->
  h_tensors h !! times = Some mt -> t_shape mt = [L] -> length (t_stride mt) = 1 ->
  h_tensors h !! x = Some m -> t_shape m = [L; C] -> length (t_stride m) = 2 ->
  0 < L -> 0 < C ->
  wp (forward self times x x)
    (fun r h' => exists m', h_tensors h' !! r = Some m' /\ t_shape m' = [] /\
                            value_at h' r [] = Some s_zero) h.
Proof.
  intros Hwf Hpm Hsub Hnorm Hmt Hst Hlt Hm Hs Hlm HL HC.
  destruct (heap_wf_obj _ _ _ Hwf Hmt) as [stt [Ot [Bt Bst]]].
  destruct (heap_wf_obj _ _ _ Hwf Hm) as [stx [Ox [Bx Bsx]]].
  destruct (t_stride mt) as [|sL [|]] eqn:Est; simpl in Hlt; try lia.
  unfold forward.
  apply wp_bind. eapply wp_shape_of; [exact Hm|].
  apply wp_bind. eapply wp_shape_of; [exact Hm|].
  rewrite Hs. cbn [length firstn Nat.sub].
  apply wp_bind.
  apply (wp_mono _ (fun pr h1 => exists M1 M2 S C', obj h1 (fst pr) M1 S /\ obj h1 (snd pr) M2 S /\
     t_shape M1 = [L; C'] /\ t_shape M2 = [L; C'] /\
     t_stride M1 = t_stride M2 /\ length (t_stride M1) = 2 /\
     t_offset M1 = t_offset M2 /\ 0 < C' /\
     fst pr < h_next h1 /\ snd pr < h_next h1 /\
     t_storage M1 < h_next h1 /\ t_storage M2 < h_next h1)).
  - destruct (include_time self).
    + apply wp_bind. eapply wp_unsqueeze; [exact Ot|apply (unsqueeze_meta_last_1d _ L sL Hst Est)|].
      intros ha Fa. pose proof (fresh_next _ _ _ _ _ Fa) as Na. pose proof (fresh_grows _ _ _ _ _ Fa) as Ga.
      destruct Fa as [_ [_ [Ea Oa]]]. simpl in Oa.
      cbn [prepend_batch_dims].
      apply wp_bind. apply wp_ret. apply wp_bind. apply wp_ret.
      assert (Oxa : obj ha x m stx) by (eapply obj_grows; [exact Ga|exact Bx|exact Bsx|exact Ox]).
      apply wp_bind. eapply wp_cat_last; [exact Oa|exact Oxa|reflexivity|rewrite Hs; reflexivity|].
      intros hb Fb. pose proof (fresh_next _ _ _ _ _ Fb) as Nb. pose proof (fresh_grows _ _ _ _ _ Fb) as Gb.
      destruct Fb as [_ [_ [Eb Ob]]].
      assert (Oab : obj hb (h_next h) (TensorMeta [L; 1] [sL; 1] (t_offset mt) (t_storage mt)) stt)
        by (eapply obj_grows; [exact Gb|lia|simpl; lia|exact Oa]).
      assert (Oxb : obj hb x m stx) by (eapply obj_grows; [exact Gb|lia|lia|exact Oxa]).
      apply wp_bind. eapply wp_cat_last; [exact Oab|exact Oxb|reflexivity|rewrite Hs; reflexivity|].
      intros hc Fc. pose proof (fresh_next _ _ _ _ _ Fc) as Nc. pose proof (fresh_grows _ _ _ _ _ Fc) as Gc.
      destruct Fc as [_ [_ [Ec Oc]]].
      apply wp_ret. do 4 eexists. split; [eapply obj_grows; [exact Gc| | |exact Ob]; simpl; lia|].
      split; [exact Oc|]. simpl. repeat split; lia.
    + apply wp_ret. exists m, m, stx, C. simpl. rewrite Hs.
      repeat split; try apply Ox; try assumption; lia.
  - intros [p1 p2] h1 (M1 & M2 & S & C' & O1 & O2 & S1 & S2 & T12 & TL & Off & HC' & B1 & B2 & B1s & B2s).
    simpl in *. destruct M1 as [sh1 str1 off1 sto1], M2 as [sh2 str2 off2 sto2]; simpl in *.
    subst sh1 sh2 str2 off2.
    pose proof (compute_stride_same [L; C'] str1 1 TL) as Hv. cbn [repeat app] in Hv.
    size_step. size_step.
    apply wp_bind. eapply wp_view_some; [eassumption|simpl t_shape; apply infer_size_flat; lia|exact Hv|].
    intros ns2 h2 Hns2 F2. simpl in F2. fresh_step F2.
    size_step. size_step.
    apply wp_bind. eapply wp_view_some; [eassumption|simpl t_shape; apply infer_size_flat; lia|exact Hv|].
    intros ns3 h3 Hns3 F3. simpl in F3. fresh_step F3.
    cbn [t_shape t_stride] in Hns2, Hns3. rewrite Hns2 in Hns3. injection Hns3 as <-.
    apply wp_bind. eapply wp_logsignature_apply; [eassumption|reflexivity|].
    intros h4 F4. fresh_step F4.
    apply wp_bind. eapply wp_logsignature_apply; [eassumption|reflexivity|].
    intros h5 F5. fresh_step F5.
    pose proof (compute_stride_contiguous [1; logsignature_channels (logsignature self) C' (depth self)]
                  [logsignature_channels (logsignature self) C' (depth self)]
                  ltac:(cbn; lia)) as Hw.
    size_step.
    apply wp_bind. eapply wp_view_some; [eassumption|cbn [map app t_shape]; apply infer_size_drop1|exact Hw|].
    intros ns6 h6 Hns6 F6. fresh_step F6.
    size_step.
    apply wp_bind. eapply wp_view_some; [eassumption|cbn [map app t_shape]; apply infer_size_drop1|exact Hw|].
    intros ns7 h7 Hns7 F7. fresh_step F7.
    cbn [t_shape t_stride] in Hns6, Hns7.
    rewrite Hns6 in Hns7. injection Hns7 as <-.
    pose proof (compute_stride_length _ _ _ _ Hns6 (contiguous_strides_length _) ltac:(cbn; lia)) as Hl6.
    destruct ns6 as [|d6 [|]]; simpl in Hl6; try lia.
    cbn [unsqueeze_each]. apply wp_bind. apply wp_ret. apply wp_bind. apply wp_ret.
    size_step. cbn [app].
    apply wp_bind. eapply wp_expand;
      [eassumption|apply expand_meta_same_rank; [constructor; [left; reflexivity|constructor]|reflexivity]|].
    intros h8 F8. fresh_step F8.
    size_step. cbn [app].
    apply wp_bind. eapply wp_expand;
      [eassumption|apply expand_meta_same_rank; [constructor; [left; reflexivity|constructor]|reflexivity]|].
    intros h9 F9. fresh_step F9.
    apply wp_bind. eapply wp_binop; [eassumption|eassumption|reflexivity|reflexivity|].
    intros h10 F10. fresh_step F10.
    rewrite Hpm. apply wp_bind. apply wp_ret.
    eapply wp_norm_last; [eassumption|reflexivity|].
    intros h11 F11. destruct F11 as [_ [_ [_ O11]]].
    eexists. split; [exact (proj1 O11)|]. split; [reflexivity|].
    rewrite (value_at_obj _ _ _ _ _ O11). f_equal. cbv beta.
    erewrite map_ext; [|intros k; apply Hsub]. rewrite map_repeat_zero. apply Hnorm.
Qed.
End Values.

Lemma forward_same_unbatched_zero_witness :
  (forall n, p_norm (PNorm:=Z_l1) 1%nat (repeat 0%Z n) = 0%Z) /\
  wp (Logsig.forward ld_plain 0 1 1)
    (fun r h' => exists m', h_tensors h' !! r = Some m' /\ t_shape m' = [] /\
                            value_at h' r [] = Some 0%Z) heap_tr.
Proof.
  assert (Hn : forall n, p_norm (PNorm:=Z_l1) 1%nat (repeat 0%Z n) = 0%Z)
    by (induction n as [|n IH]; [reflexivity|exact IH]).
  split; [exact Hn|].
  exact (forward_same_unbatched_zero ld_plain 0 1 heap_tr (TensorMeta [2] [1] 0 0)
           (TensorMeta [2; 2] [1; 2] 0 1) 2 2
           (with_meta_wf (heap_of 0%Z [([2], [0; 1]%Z); ([2; 2], [0; 1; 2; 3]%Z)] 0) 1
              (TensorMeta [2; 2] [1; 2] 0 1) (heap_of_wf _ _) ltac:(vm_compute; lia) ltac:(vm_compute; lia)
              ltac:(eexists; reflexivity))
           eq_refl (fun a => Z.sub_diag a) Hn eq_refl eq_refl eq_refl eq_refl eq_refl eq_refl
           ltac:(lia) ltac:(lia)).
Defined.

End LogsigValueClaims.

(** ** Execution of the tensor operations on described tensors *)
Module ShapeMore.
Import Frame FrameFacts ShapeFacts Run RunOps Logsig LogsigRun HeapFacts.

Lemma numel_default d sizes :
  numel (map (fun o => default d o) sizes) =
  fold_right (fun o acc => match o with Some k => k * acc | None => acc end) 1 sizes *
  d ^ length (List.filter (fun o => match o with None => true | _ => false end) sizes).
Proof.
  induction sizes as [|[k|] sizes IH]; simpl; [lia| |]; rewrite IH; simpl; nia.
Qed.

Lemma infer_size_numel sizes n s : infer_size sizes n = Some s -> numel s = n.
Proof.
  unfold infer_size.
  pose proof (numel_default 0 sizes) as E0.
  destruct (length _) as [|[|c]] eqn:Hc; [| |discriminate].
  - match goal with |- (if ?k =? n then _ else _) = _ -> _ =>
      destruct (Nat.eqb_spec k n) as [Hk|]; [|discriminate] end.
    intros [= <-]. rewrite E0. simpl. lia.
  - destruct (_ || _) eqn:Hb; [discriminate|]. intros [= <-].
    rewrite numel_default, Hc. apply orb_false_elim in Hb as [H1 H2].
    apply Nat.eqb_neq in H1. apply negb_false_iff, Nat.eqb_eq in H2. simpl.
    rewrite Nat.mul_1_r. symmetry. apply Nat.Div0.div_exact. exact H2.
Qed.

Lemma unravel_in_bounds s j : j < numel s -> in_bounds (unravel s j) s.
Proof.
  revert j; induction s as [|x s IH]; intros j Hj; simpl in *; [constructor|].
  assert (Hp : 0 < numel s) by nia.
  rewrite numel_pos_max1 by exact Hp. constructor.
  - apply Nat.Div0.div_lt_upper_bound. nia.
  - apply IH. apply Nat.mod_upper_bound. lia.
Qed.

Lemma dot_unravel s j : j < numel (map (Nat.max 1) s) -> dot (unravel s j) (contiguous_strides s) = j.
Proof.
  revert j; induction s as [|x s IH]; intros j Hj; simpl in *; [lia|].
  pose proof (numel_max1_pos s) as Hp.
  rewrite IH by (apply Nat.mod_upper_bound; lia).
  pose proof (Nat.div_mod_eq j (numel (map (Nat.max 1) s))). lia.
Qed.

Lemma wrap_dim_lt d n p : wrap_dim d n = Some p -> p < n.
Proof.
  unfold wrap_dim. destruct (Z.ltb_spec d 0).
  - destruct (Z.leb_spec (- Z.of_nat n) d); intros E; inversion E; lia.
  - destruct (Z.ltb_spec d (Z.of_nat n)); intros E; inversion E; lia.
Qed.

Lemma length_insert_at {X} p (x : X) l : p <= length l -> length (insert_at p x l) = S (length l).
Proof.
  intros Hp. unfold insert_at. rewrite length_app. simpl. rewrite length_firstn, length_skipn. lia.
Qed.

Lemma in_bounds_insert_at p idx s :
  p <= length s -> in_bounds idx (insert_at p 1 s) ->
  in_bounds (firstn p idx ++ skipn (S p) idx) s /\ idx = insert_at p 0 (firstn p idx ++ skipn (S p) idx).
Proof.
  intros Hp Hb. unfold insert_at in *.
  apply Forall2_app_inv_r in Hb as (k1 & k2 & H1 & H2 & ->).
  inversion H2 as [|z ? k3 ? Hz H3]; subst.
  pose proof (Forall2_length _ _ _ H1) as L1. rewrite length_firstn in L1.
  replace (Init.Nat.min p (length s)) with p in L1 by lia.
  assert (E1 : firstn p (k1 ++ z :: k3) = k1) by (rewrite firstn_app, <- L1, firstn_all, Nat.sub_diag; apply app_nil_r).
  assert (E2 : skipn (S p) (k1 ++ z :: k3) = k3).
  { rewrite skipn_app, <- L1. rewrite skipn_all2 by lia. replace (S (length k1) - length k1) with 1 by lia. reflexivity. }
  rewrite E1, E2. split.
  - rewrite <- (firstn_skipn p s). apply Forall2_app; assumption.
  - rewrite firstn_app, <- L1, firstn_all, Nat.sub_diag, app_nil_r.
    rewrite skipn_app, skipn_all2 by lia. rewrite Nat.sub_diag. simpl. repeat f_equal. lia.
Qed.

Lemma dot_insert_at p c i st :
  length i = length st -> p <= length i ->
  dot (insert_at p 0 i) (insert_at p c st) = dot i st.
Proof.
  intros Hl Hp. unfold insert_at.
  rewrite <- (firstn_skipn p i) at 3. rewrite <- (firstn_skipn p st) at 3.
  rewrite !dot_app by (rewrite !length_firstn; lia). simpl. lia.
Qed.

Lemma broadcast_index_same s idx : length idx = length s -> broadcast_index s idx = bcast s idx.
Proof. intros Hl. unfold broadcast_index, bcast. rewrite Hl, Nat.sub_diag. reflexivity. Qed.

Lemma bcast_id s idx : in_bounds idx s -> bcast s idx = idx.
Proof.
  induction 1 as [|i d idx s Hi _ IH]; [reflexivity|]. unfold bcast in *. simpl.
  rewrite IH. destruct (Nat.eqb_spec d 1); [f_equal; lia|reflexivity].
Qed.

Lemma broadcast_index_id s idx : in_bounds idx s -> broadcast_index s idx = idx.
Proof.
  intros Hb. rewrite broadcast_index_same by (apply in_bounds_length; exact Hb). apply bcast_id, Hb.
Qed.

Lemma bcast_app s1 s2 i1 i2 : length i1 = length s1 -> bcast (s1 ++ s2) (i1 ++ i2) = bcast s1 i1 ++ bcast s2 i2.
Proof.
  revert i1; induction s1 as [|a s1 IH]; intros [|b i1] Hl; simpl in *; try lia; [reflexivity|].
  unfold bcast in *. simpl. rewrite IH by lia. reflexivity.
Qed.

Lemma bcast_ones n j : length j = n -> bcast (repeat 1 n) j = repeat 0 n.
Proof.
  revert j; induction n as [|n IH]; intros [|a j] Hl; simpl in *; try lia; [reflexivity|].
  unfold bcast in *. simpl. rewrite IH by lia. reflexivity.
Qed.

Lemma dot_expanded s sizes idx st :
  Forall2 (fun sz t => sz = t \/ sz = 1) s sizes -> in_bounds idx sizes -> length st = length sizes ->
  dot idx (expanded_strides s sizes st) = dot (bcast s idx) st.
Proof.
  intros HF. revert idx st. induction HF as [|sz t s sizes Hst HF IH]; intros idx st Hb Hl;
    [inversion Hb; reflexivity|].
  inversion Hb as [|i ? idx' ? Hi Hb']; subst. destruct st as [|c st]; simpl in Hl; [lia|].
  unfold bcast in *. simpl. rewrite IH by (auto; lia).
  destruct (Nat.eqb_spec sz t), (Nat.eqb_spec sz 1); subst; try lia.
Qed.

Lemma in_bounds_bcast s sizes idx :
  Forall2 (fun sz t => sz = t \/ sz = 1) s sizes -> in_bounds idx sizes -> in_bounds (bcast s idx) s.
Proof.
  intros HF. revert idx. induction HF as [|sz t s sizes Hst HF IH]; intros idx Hb; [inversion Hb; constructor|].
  inversion Hb as [|i ? idx' ? Hi Hb']; subst. unfold bcast in *. simpl. constructor; [|apply IH; exact Hb'].
  destruct (Nat.eqb_spec sz 1); [lia|destruct Hst; subst; lia].
Qed.
End ShapeMore.

Module TensorRun.
Import Frame FrameFacts ShapeFacts Run RunOps Logsig LogsigRun HeapFacts.
Import ShapeMore.
Section TensorRun.
Context {A : Type}.
Implicit Types (h : heap A) (F : list nat -> A).

Lemma tensor_ext h x s F G :
  tensor h x s F -> (forall idx, in_bounds idx s -> F idx = G idx) -> tensor h x s G.
Proof.
  intros (m & st & O & Sh & L & Bx & Bs & Hv) HFG. exists m, st. do 5 (split; [assumption|]).
  intros idx Hb. rewrite <- HFG by exact Hb. apply Hv, Hb.
Qed.

Lemma ctensor_ext h x s F G :
  ctensor h x s F -> (forall idx, in_bounds idx s -> F idx = G idx) -> ctensor h x s G.
Proof.
  intros (m & st & O & Sh & L & Bx & Bs & Hv) HFG. exists m, st. do 5 (split; [assumption|]).
  intros idx Hb. rewrite <- HFG by exact Hb. apply Hv, Hb.
Qed.

Lemma ctensor_tensor h x s F : ctensor h x s F -> tensor h x s F.
Proof.
  intros (m & st & O & Sh & L & Bx & Bs & Hv). exists m, st.
  do 2 (split; [assumption|]). split; [rewrite L, contiguous_strides_length; reflexivity|].
  do 2 (split; [assumption|]). exact Hv.
Qed.

Lemma tensor_grows h h' x s F : grows (h_next h) h h' -> tensor h x s F -> tensor h' x s F.
Proof.
  intros G (m & st & O & Sh & L & Bx & Bs & Hv). pose proof (grows_next _ _ _ G).
  exists m, st. split; [eapply obj_grows; eauto|]. do 2 (split; [assumption|]).
  split; [lia|]. split; [lia|]. exact Hv.
Qed.

Lemma ctensor_grows h h' x s F : grows (h_next h) h h' -> ctensor h x s F -> ctensor h' x s F.
Proof.
  intros G (m & st & O & Sh & L & Bx & Bs & Hv). pose proof (grows_next _ _ _ G).
  exists m, st. split; [eapply obj_grows; eauto|]. do 2 (split; [assumption|]).
  split; [lia|]. split; [lia|]. exact Hv.
Qed.

Lemma wp_tensor_shape x s F Q h : tensor h x s F -> Q s h -> wp (shape_of x) Q h.
Proof. intros (m & st & [O _] & Sh & _) HQ. eapply wp_shape_of; [exact O|]. rewrite Sh. exact HQ. Qed.

Lemma wp_tensor_size x s F d p Q h :
  tensor h x s F -> wrap_dim d (length s) = Some p -> Q (nth p s 0) h -> wp (size_at x d) Q h.
Proof.
  intros (m & st & [O _] & Sh & _) Hp HQ. eapply wp_size_at; [exact O|rewrite Sh; exact Hp|].
  rewrite Sh. exact HQ.
Qed.

Lemma wp_tensor_data x s F Q h :
  tensor h x s F ->
  (forall g, (forall idx, in_bounds idx s -> g idx = F idx) -> Q g h) -> wp (data_of x) Q h.
Proof.
  intros (m & st & O & Sh & L & Bx & Bs & Hv) HQ. eapply wp_data_of; [exact O|].
  apply HQ. intros idx Hb. apply Hv, Hb.
Qed.

Lemma wp_tensor_size_last x s D F Q h :
  tensor h x (s ++ [D]) F -> Q D h -> wp (size_at x (-1)) Q h.
Proof.
  intros T HQ. eapply wp_tensor_size with (p := length s); [exact T| |].
  - unfold wrap_dim. rewrite length_app. simpl.
    destruct (Z.leb_spec (- Z.of_nat (length s + 1)) (-1)); [|lia]. f_equal. lia.
  - rewrite nth_middle. exact HQ.
Qed.

Lemma wp_alloc_ctensor s (f : list nat -> A) Q h :
  (forall h', grows (h_next h) h h' -> ctensor h' (h_next h) s f -> Q (h_next h) h') ->
  wp (alloc s f) Q h.
Proof.
  intros HQ. apply wp_alloc. intros h' [G [_ [E O]]]. apply HQ; [exact G|].
  eexists; eexists. split; [exact O|]. simpl. repeat split; try lia.
  intros idx Hb. rewrite unravel_dot by exact Hb. reflexivity.
Qed.

Lemma wp_tensor_view x s F sizes s' Q h :
  tensor h x s F -> view_ok h x s' -> infer_size sizes (numel s) = Some s' ->
  (forall h' y, h_next h <= y -> grows (h_next h) h h' ->
     tensor h' y s' (fun idx => F (unravel s (dot idx (contiguous_strides s')))) -> Q y h') ->
  wp (view x sizes) Q h.
Proof.
  intros (m & st & O & Sh & L & Bx & Bs & Hv) (m' & Hm' & Hc) Hi HQ.
  rewrite (proj1 O) in Hm'. injection Hm' as <-.
  eapply wp_view_some; [exact O|rewrite Sh; exact Hi|exact Hc|].
  intros ns h' Hns [G [_ [E O']]]. apply HQ; [lia|exact G|].
  pose proof (infer_size_numel _ _ _ Hi) as Hn. rewrite Sh in Hns.
  eexists; eexists. split; [exact O'|]. cbn [t_shape t_stride t_offset t_storage].
  split; [reflexivity|]. split; [eapply compute_stride_length; [exact Hns|lia|lia]|].
  split; [lia|]. split; [lia|].
  intros idx Hb. rewrite (compute_stride_dot s (t_stride m) s' ns idx Hns) by (auto; lia).
  apply Hv, unravel_in_bounds. rewrite <- Hn, <- (in_bounds_numel _ _ Hb).
  apply dot_contiguous_lt, Hb.
Qed.

(** [view] rejects the sizes: RuntimeError. *)
Lemma raises_tensor_view x s F sizes s' h :
  tensor h x s F -> infer_size sizes (numel s) = Some s' -> ~ view_ok h x s' ->
  raises (view x sizes) RuntimeError h.
Proof.
  intros (m & st & [Om _] & Sh & _) Hi Hno. unfold view.
  apply raises_bind. eapply wp_meta_of; [exact Om|].
  apply raises_bind. eapply wp_of_option; [rewrite Sh; exact Hi|].
  apply raises_bind_l.
  destruct (compute_stride (t_shape m) (t_stride m) s') eqn:E.
  - exfalso. apply Hno. exists m. split; [exact Om|congruence].
  - apply raises_raise.
Qed.

Lemma view_ok_grows h h' x s :
  grows (h_next h) h h' -> x < h_next h -> view_ok h x s -> view_ok h' x s.
Proof.
  intros [_ [Ag _]] Bx (m & Hm & Hc). exists m. split; [rewrite Ag by exact Bx; exact Hm|exact Hc].
Qed.

(** A contiguous tensor accepts every view with its number of elements. *)
Lemma ctensor_view_ok h x s F s' : ctensor h x s F -> numel s' = numel s -> view_ok h x s'.
Proof.
  intros (m & st & [Om _] & Sh & Str & _) Hn. exists m. split; [exact Om|].
  rewrite Str, Sh. apply compute_stride_contiguous, Hn.
Qed.

(** A path with at most one batch dimension accepts [view(-1, L, C)],
    whatever its strides. *)
Lemma tensor_view_ok_flat h x B L C F :
  length B <= 1 -> tensor h x (B ++ [L; C]) F -> view_ok h x [numel B; L; C].
Proof.
  intros HB (m & st & [Om _] & Sh & Lm & _). exists m. split; [exact Om|]. rewrite Sh.
  destruct B as [|b [|]]; simpl in HB; try lia.
  - exact (compute_stride_same [L; C] (t_stride m) 1 Lm).
  - change (numel [b]) with (b * 1). rewrite Nat.mul_1_r.
    exact (compute_stride_same [b; L; C] (t_stride m) 0 Lm).
Qed.

Lemma unsqueeze_meta_at m d p :
  wrap_dim d (S (length (t_shape m))) = Some p ->
  exists c, unsqueeze_meta m d =
    Some (TensorMeta (insert_at p 1 (t_shape m)) (insert_at p c (t_stride m)) (t_offset m) (t_storage m)).
Proof. intros Hp. unfold unsqueeze_meta. rewrite Hp. eexists. reflexivity. Qed.

Lemma unsqueezed_values (st : nat -> A) off stride s F p c :
  length stride = length s -> p <= length s ->
  (forall idx, in_bounds idx s -> st (off + dot idx stride) = F idx) ->
  forall idx, in_bounds idx (insert_at p 1 s) ->
    st (off + dot idx (insert_at p c stride)) = F (firstn p idx ++ skipn (S p) idx).
Proof.
  intros L Hp Hv idx Hb. destruct (in_bounds_insert_at _ _ _ Hp Hb) as [Hb' E].
  rewrite E at 1. rewrite dot_insert_at.
  - apply Hv, Hb'.
  - rewrite (in_bounds_length _ _ Hb'). lia.
  - rewrite (in_bounds_length _ _ Hb'). exact Hp.
Qed.

Lemma wp_tensor_unsqueeze x s F d p Q h :
  tensor h x s F -> wrap_dim d (S (length s)) = Some p ->
  (forall h' y, grows (h_next h) h h' ->
     tensor h' y (insert_at p 1 s) (fun idx => F (firstn p idx ++ skipn (S p) idx)) -> Q y h') ->
  wp (unsqueeze x d) Q h.
Proof.
  intros (m & st & O & Sh & L & Bx & Bs & Hv) Hp HQ.
  pose proof (wrap_dim_lt _ _ _ Hp) as Hlt.
  rewrite <- Sh in Hp. destruct (unsqueeze_meta_at _ _ _ Hp) as [c Hu].
  eapply wp_unsqueeze; [exact O|exact Hu|]. intros h' [G [_ [E O']]]. apply HQ; [exact G|].
  eexists; eexists. split; [exact O'|]. cbn [t_shape t_stride t_offset t_storage]. rewrite Sh.
  split; [reflexivity|]. split; [rewrite !length_insert_at; lia|]. split; [lia|]. split; [lia|].
  apply unsqueezed_values; [exact L|lia|exact Hv].
Qed.

Lemma wp_tensor_unsqueeze_ x s F d p Q h :
  tensor h x s F -> wrap_dim d (S (length s)) = Some p ->
  (forall h', h_next h' = h_next h -> (forall n, n <= x -> grows n h h') ->
     (forall y s' G, y <> x -> tensor h y s' G -> tensor h' y s' G) ->
     tensor h' x (insert_at p 1 s) (fun idx => F (firstn p idx ++ skipn (S p) idx)) -> Q x h') ->
  wp (unsqueeze_ x d) Q h.
Proof.
  intros (m & st & [Om Os] & Sh & L & Bx & Bs & Hv) Hp HQ.
  pose proof (wrap_dim_lt _ _ _ Hp) as Hlt.
  rewrite <- Sh in Hp. destruct (unsqueeze_meta_at _ _ _ Hp) as [c Hu].
  eapply wp_unsqueeze_; [exact Om|exact Hu|]. apply HQ; [reflexivity| | |].
  - intros n Hn. split; [simpl; lia|split; [|reflexivity]].
    intros t Ht. simpl. apply lookup_insert_ne. lia.
  - intros y s' G Hne (m' & st' & [Om' Os'] & R). exists m', st'. split; [|exact R].
    split; [simpl; rewrite lookup_insert_ne by congruence; exact Om'|exact Os'].
  - eexists; eexists. split; [split; [simpl; apply lookup_insert_eq|exact Os]|].
    cbn [t_shape t_stride t_offset t_storage h_next]. rewrite Sh.
    split; [reflexivity|]. split; [rewrite !length_insert_at; lia|]. split; [lia|]. split; [lia|].
    apply unsqueezed_values; [exact L|lia|exact Hv].
Qed.

Lemma wp_tensor_expand x s F sizes Q h :
  tensor h x s F -> Forall2 (fun sz t => sz = t \/ sz = 1) s sizes ->
  (forall h' y, grows (h_next h) h h' -> tensor h' y sizes (fun idx => F (bcast s idx)) -> Q y h') ->
  wp (expand x sizes) Q h.
Proof.
  intros (m & st & O & Sh & L & Bx & Bs & Hv) HF HQ.
  pose proof (Forall2_length _ _ _ HF) as Ls.
  rewrite <- Sh in HF. eapply wp_expand; [exact O|apply expand_meta_same_rank; [exact HF|lia]|].
  rewrite Sh in HF.
  intros h' [G [_ [E O']]]. apply HQ; [exact G|].
  eexists; eexists. split; [exact O'|]. cbn [t_shape t_stride t_offset t_storage].
  split; [reflexivity|]. split; [rewrite length_expanded_strides; rewrite ?Sh; lia|]. split; [lia|]. split; [lia|].
  intros idx Hb. rewrite Sh, dot_expanded by (auto; lia). apply Hv. eapply in_bounds_bcast; eauto.
Qed.

Lemma in_bounds_snoc idx S D :
  in_bounds idx (S ++ [D]) ->
  idx = removelast idx ++ [List.last idx 0] /\ in_bounds (removelast idx) S /\ List.last idx 0 < D.
Proof.
  intros Hb. apply Forall2_app_inv_r in Hb as (k1 & k2 & H1 & H2 & ->).
  inversion H2 as [|k ? ? ? Hk H3]; subst. inversion H3; subst.
  rewrite removelast_last, last_last. auto.
Qed.

Lemma in_bounds_snoc_intro i k S D : in_bounds i S -> k < D -> in_bounds (i ++ [k]) (S ++ [D]).
Proof. intros Hi Hk. apply Forall2_app; [exact Hi|constructor; [exact Hk|constructor]]. Qed.

Lemma wp_tensor_binop f x1 x2 s F1 F2 Q h :
  tensor h x1 s F1 -> tensor h x2 s F2 ->
  (forall h' y, grows (h_next h) h h' -> ctensor h' y s (fun idx => f (F1 idx) (F2 idx)) -> Q y h') ->
  wp (binop f x1 x2) Q h.
Proof.
  intros T1 T2 HQ. unfold binop.
  apply wp_bind. eapply wp_tensor_shape; [exact T1|].
  apply wp_bind. eapply wp_tensor_shape; [exact T2|].
  apply wp_bind. eapply wp_tensor_data; [exact T1|]. intros g1 Hg1.
  apply wp_bind. eapply wp_tensor_data; [exact T2|]. intros g2 Hg2.
  apply wp_bind. eapply wp_of_option; [apply broadcast_shapes_same|].
  apply wp_alloc_ctensor. intros h' G C. apply HQ; [exact G|].
  eapply ctensor_ext; [exact C|]. intros idx Hb. cbv beta.
  rewrite broadcast_index_id by exact Hb. rewrite Hg1, Hg2 by exact Hb. reflexivity.
Qed.

Lemma broadcast_rev_nil s : broadcast_rev s [] = Some s.
Proof. destruct s; reflexivity. Qed.

Lemma wp_tensor_binop_last f x1 x2 S D F1 F2 Q h :
  tensor h x1 (S ++ [D]) F1 -> tensor h x2 [D] F2 ->
  (forall h' y, grows (h_next h) h h' ->
     ctensor h' y (S ++ [D]) (fun idx => f (F1 idx) (F2 [List.last idx 0])) -> Q y h') ->
  wp (binop f x1 x2) Q h.
Proof.
  intros T1 T2 HQ. unfold binop.
  apply wp_bind. eapply wp_tensor_shape; [exact T1|].
  apply wp_bind. eapply wp_tensor_shape; [exact T2|].
  apply wp_bind. eapply wp_tensor_data; [exact T1|]. intros g1 Hg1.
  apply wp_bind. eapply wp_tensor_data; [exact T2|]. intros g2 Hg2.
  apply wp_bind. eapply wp_of_option.
  { unfold broadcast_shapes. rewrite rev_app_distr. simpl. rewrite broadcast_rev_nil, Nat.eqb_refl.
    simpl. rewrite rev_involutive. reflexivity. }
  apply wp_alloc_ctensor. intros h' G C. apply HQ; [exact G|].
  eapply ctensor_ext; [exact C|]. intros idx Hb. cbv beta.
  rewrite broadcast_index_id by exact Hb. rewrite Hg1 by exact Hb.
  destruct (in_bounds_snoc _ _ _ Hb) as (E & Hi & Hk).
  assert (Hs : broadcast_index [D] idx = [List.last idx 0]).
  { transitivity (broadcast_index [D] (removelast idx ++ [List.last idx 0])); [f_equal; exact E|].
    generalize (removelast idx) (List.last idx 0) Hk. intros i k Hk'.
    unfold broadcast_index. rewrite length_app. simpl.
    replace (length i + 1 - 1) with (length i) by lia.
    rewrite skipn_app, skipn_all, Nat.sub_diag. simpl. unfold zip_with. simpl.
    destruct (Nat.eqb_spec D 1); [f_equal; lia|reflexivity]. }
  rewrite Hs, Hg2; [reflexivity|]. constructor; [exact Hk|constructor].
Qed.

Lemma wp_tensor_matmul zero add mul x1 x2 S D E F1 F2 Q h :
  tensor h x1 (S ++ [D]) F1 -> tensor h x2 [D; E] F2 ->
  (forall h' y, grows (h_next h) h h' ->
     ctensor h' y (S ++ [E]) (fun idx =>
       fold_right add zero (map (fun j => mul (F1 (removelast idx ++ [j])) (F2 [j; List.last idx 0]))
                                (seq 0 D))) -> Q y h') ->
  wp (matmul zero add mul x1 x2) Q h.
Proof.
  intros T1 T2 HQ. unfold matmul.
  apply wp_bind. eapply wp_tensor_shape; [exact T1|].
  apply wp_bind. eapply wp_tensor_shape; [exact T2|].
  apply wp_bind. eapply wp_tensor_data; [exact T1|]. intros g1 Hg1.
  apply wp_bind. eapply wp_tensor_data; [exact T2|]. intros g2 Hg2.
  rewrite rev_app_distr. simpl. rewrite Nat.eqb_refl, rev_involutive.
  apply wp_alloc_ctensor. intros h' G C. apply HQ; [exact G|].
  eapply ctensor_ext; [exact C|]. intros idx Hb. cbv beta.
  destruct (in_bounds_snoc _ _ _ Hb) as (Ei & Hi & Hk).
  f_equal. apply map_ext_in. intros j Hj. apply in_seq in Hj.
  rewrite Hg1, Hg2; [reflexivity| |].
  - constructor; [lia|constructor; [exact Hk|constructor]].
  - apply in_bounds_snoc_intro; [exact Hi|lia].
Qed.

Lemma wp_tensor_norm_last {P} (nm : P -> list A -> A) p x S D F Q h :
  tensor h x (S ++ [D]) F ->
  (forall h' y, grows (h_next h) h h' ->
     ctensor h' y S (fun idx => nm p (map (fun k => F (idx ++ [k])) (seq 0 D))) -> Q y h') ->
  wp (norm_last nm p x) Q h.
Proof.
  intros T HQ. unfold norm_last.
  apply wp_bind. eapply wp_tensor_shape; [exact T|].
  apply wp_bind. eapply wp_tensor_data; [exact T|]. intros g Hg.
  rewrite rev_app_distr. simpl. rewrite rev_involutive.
  apply wp_alloc_ctensor. intros h' G C. apply HQ; [exact G|].
  eapply ctensor_ext; [exact C|]. intros idx Hb. cbv beta.
  f_equal. apply map_ext_in. intros k Hk. apply in_seq in Hk.
  apply Hg. apply in_bounds_snoc_intro; [exact Hb|lia].
Qed.

Lemma wp_tensor_cat_last x1 x2 R c1 c2 F1 F2 Q h :
  tensor h x1 (R ++ [c1]) F1 -> tensor h x2 (R ++ [c2]) F2 ->
  (forall h' y, grows (h_next h) h h' ->
     ctensor h' y (R ++ [c1 + c2]) (fun idx =>
       if List.last idx 0 <? c1 then F1 (removelast idx ++ [List.last idx 0])
       else F2 (removelast idx ++ [List.last idx 0 - c1])) -> Q y h') ->
  wp (cat_last x1 x2) Q h.
Proof.
  intros T1 T2 HQ. unfold cat_last.
  apply wp_bind. eapply wp_tensor_shape; [exact T1|].
  apply wp_bind. eapply wp_tensor_shape; [exact T2|].
  apply wp_bind. eapply wp_tensor_data; [exact T1|]. intros g1 Hg1.
  apply wp_bind. eapply wp_tensor_data; [exact T2|]. intros g2 Hg2.
  rewrite !rev_app_distr. simpl. rewrite bool_decide_eq_true_2 by reflexivity. rewrite rev_involutive.
  apply wp_alloc_ctensor. intros h' G C. apply HQ; [exact G|].
  eapply ctensor_ext; [exact C|]. intros idx Hb. cbv beta.
  destruct (in_bounds_snoc _ _ _ Hb) as (Ei & Hi & Hk).
  destruct (Nat.ltb_spec (List.last idx 0) c1).
  - apply Hg1, in_bounds_snoc_intro; [exact Hi|lia].
  - apply Hg2, in_bounds_snoc_intro; [exact Hi|lia].
Qed.

Lemma wp_tensor_logsig `{Scalar A} lib depth x n l c F Q h :
  stream_local lib -> tensor h x [n; l; c] F ->
  (forall h' y, grows (h_next h) h h' ->
     ctensor h' y [n; logsignature_channels lib c depth] (fun idx =>
       match idx with
       | [b; k] => logsignature_stream lib depth l c (fun i j => F [b; i; j]) k
       | _ => s_zero
       end) -> Q y h') ->
  wp (logsignature_apply lib depth x) Q h.
Proof.
  intros Hloc T HQ. unfold logsignature_apply.
  apply wp_bind. eapply wp_tensor_shape; [exact T|].
  apply wp_bind. eapply wp_tensor_data; [exact T|]. intros g Hg.
  apply wp_alloc_ctensor. intros h' G C. apply HQ; [exact G|].
  eapply ctensor_ext; [exact C|]. intros idx Hb. cbv beta.
  inversion Hb as [|b ? idx' ? Hbn Hb']; subst. inversion Hb' as [|k ? ? ? Hk Hb'']; subst.
  inversion Hb''; subst.
  apply Hloc. intros i j Hi Hj. apply Hg.
  constructor; [exact Hbn|constructor; [exact Hi|constructor; [exact Hj|constructor]]].
Qed.

End TensorRun.
End TensorRun.

Module BatchRun.
Import Frame FrameFacts ShapeFacts Run RunOps Logsig LogsigRun HeapFacts.
Import ShapeMore TensorRun.

Lemma wrap_neg1 (s : list nat) D : wrap_dim (-1) (length (s ++ [D])) = Some (length s).
Proof.
  unfold wrap_dim. rewrite length_app. simpl.
  destruct (Z.leb_spec (- Z.of_nat (length s + 1)) (-1)); [|lia]. f_equal. lia.
Qed.

Lemma wrap_neg2 (s : list nat) a b : wrap_dim (-2) (length (s ++ [a; b])) = Some (length s).
Proof.
  unfold wrap_dim. rewrite length_app. simpl.
  destruct (Z.leb_spec (- Z.of_nat (length s + 2)) (-2)); [|lia]. f_equal. lia.
Qed.

Lemma wrap_neg2_S n : 0 < n -> wrap_dim (-2) (S n) = Some (n - 1).
Proof.
  intros Hn. unfold wrap_dim. simpl.
  destruct (Z.leb_spec (- Z.of_nat (S n)) (-2)); [|lia]. f_equal. lia.
Qed.

Lemma wrap_zero n : wrap_dim 0 (S n) = Some 0.
Proof. unfold wrap_dim. simpl. destruct (Z.ltb_spec 0 (Z.of_nat (S n))); [reflexivity|lia]. Qed.

Lemma nth_snoc2_last (s : list nat) a b : nth (S (length s)) (s ++ [a; b]) 0 = b.
Proof. induction s; simpl; auto. Qed.

Lemma infer_flat B L C : 0 < L -> 0 < C ->
  infer_size [None; Some L; Some C] (numel (B ++ [L; C])) = Some [numel B; L; C].
Proof.
  intros HL HC. rewrite numel_app. unfold infer_size, numel. simpl.
  replace (L * (C * 1)) with (L * C) by lia.
  destruct (Nat.eqb_spec (L * C) 0) as [E|_]; [nia|].
  rewrite Nat.Div0.mod_mul. simpl. rewrite Nat.div_mul by lia. reflexivity.
Qed.

Lemma numel_snoc B D : numel (B ++ [D]) = numel [numel B; D].
Proof. rewrite numel_app. reflexivity. Qed.

Lemma numel_flat B L C : numel [numel B; L; C] = numel (B ++ [L; C]).
Proof. rewrite numel_app. reflexivity. Qed.

Lemma infer_exact B D : infer_size (map Some B ++ [Some D]) (numel [numel B; D]) = Some (B ++ [D]).
Proof.
  unfold infer_size. rewrite List.filter_app, length_app.
  assert (Hf : forall l : list nat, List.filter (fun o : option nat => match o with None => true | _ => false end) (map Some l) = [])
    by (induction l; simpl; auto).
  rewrite Hf. simpl.
  assert (Hk : forall l : list nat, fold_right (fun o acc => match o with Some k => k * acc | None => acc end) 1 (map Some l ++ [Some D]) = numel l * D)
    by (induction l as [|x l IH]; simpl; [lia|rewrite IH; lia]).
  rewrite Hk. unfold numel at 2. simpl. fold (numel B). replace (numel B * (D * 1)) with (numel B * D) by lia.
  rewrite Nat.eqb_refl. rewrite map_app, map_map. simpl. rewrite map_id. reflexivity.
Qed.

Lemma in_bounds_3 idx B1 B2 D :
  in_bounds idx (B1 ++ B2 ++ [D]) ->
  exists i j k, idx = i ++ j ++ [k] /\ in_bounds i B1 /\ in_bounds j B2 /\ k < D.
Proof.
  intros Hb. apply Forall2_app_inv_r in Hb as (i & r & Hi & Hr & ->).
  apply Forall2_app_inv_r in Hr as (j & r' & Hj & Hr & ->).
  inversion Hr as [|k ? ? ? Hk Hn]; subst. inversion Hn; subst. exists i, j, k. auto.
Qed.

(** Reading a path through its [(-1, L, C)] view. *)
Lemma view_flat_read B L C i l c :
  in_bounds i B -> l < L -> c < C ->
  unravel (B ++ [L; C]) (dot [dot i (contiguous_strides B); l; c] (contiguous_strides [numel B; L; C]))
  = i ++ [l; c].
Proof.
  intros Hi Hl Hc.
  assert (Hb : in_bounds (i ++ [l; c]) (B ++ [L; C]))
    by (apply Forall2_app; [exact Hi|repeat constructor; lia]).
  rewrite <- (unravel_dot _ _ Hb). f_equal.
  rewrite contiguous_strides_app, dot_app by (rewrite length_map, contiguous_strides_length; apply in_bounds_length, Hi).
  rewrite dot_map_mul. simpl. nia.
Qed.

(** Reading a [(n, D)] table through its [(B..., D)] view. *)
Lemma view_back_read B D i k :
  in_bounds i B -> k < D ->
  unravel [numel B; D] (dot (i ++ [k]) (contiguous_strides (B ++ [D]))) = [dot i (contiguous_strides B); k].
Proof.
  intros Hi Hk.
  assert (Hb : in_bounds [dot i (contiguous_strides B); k] [numel B; D]).
  { constructor; [|constructor; [exact Hk|constructor]].
    rewrite <- (in_bounds_numel _ _ Hi). apply dot_contiguous_lt, Hi. }
  rewrite <- (unravel_dot _ _ Hb). f_equal.
  rewrite contiguous_strides_app, dot_app by (rewrite length_map, contiguous_strides_length; apply in_bounds_length, Hi).
  rewrite dot_map_mul. simpl. nia.
Qed.

Lemma repeat_snoc_1 n (s : list nat) : repeat 1 n ++ 1 :: s = repeat 1 (S n) ++ s.
Proof. induction n as [|n IH]; simpl; [reflexivity|]. rewrite IH. reflexivity. Qed.

Lemma expand_rel_left B1 B2 D :
  Forall2 (fun sz t => sz = t \/ sz = 1) (B1 ++ repeat 1 (length B2) ++ [D]) (B1 ++ B2 ++ [D]).
Proof.
  apply Forall2_app; [induction B1; constructor; auto|].
  apply Forall2_app; [induction B2; simpl; constructor; auto|repeat constructor].
Qed.

Lemma expand_rel_right B1 B2 D :
  Forall2 (fun sz t => sz = t \/ sz = 1) (repeat 1 (length B1) ++ B2 ++ [D]) (B1 ++ B2 ++ [D]).
Proof.
  apply Forall2_app; [induction B1; simpl; constructor; auto|].
  apply Forall2_app; [induction B2; constructor; auto|repeat constructor].
Qed.

Lemma in_bounds_snoc_ex idx S D :
  in_bounds idx (S ++ [D]) -> exists i k, idx = i ++ [k] /\ in_bounds i S /\ k < D.
Proof.
  intros Hb. apply Forall2_app_inv_r in Hb as (i & r & Hi & Hr & ->).
  inversion Hr as [|k ? ? ? Hk Hn]; subst. inversion Hn; subst. eauto.
Qed.

Lemma drop_mid (i : list nat) k' a p :
  a <= p -> length i = S p ->
  firstn p (i ++ [k']) ++ skipn (S p) (i ++ [k']) = firstn p i ++ [k'].
Proof.
  intros Ha Hi. rewrite firstn_app, skipn_app, (skipn_all2 i) by lia.
  replace (p - length i) with 0 by lia. replace (S p - length i) with 0 by lia.
  simpl. rewrite app_nil_r. reflexivity.
Qed.

Lemma insert_mid (s : list nat) k D :
  insert_at (length s + k) 1 (s ++ repeat 1 k ++ [D]) = s ++ repeat 1 (S k) ++ [D].
Proof.
  unfold insert_at. rewrite app_assoc.
  assert (Hl : length (s ++ repeat 1 k) = length s + k) by (rewrite length_app, repeat_length; reflexivity).
  rewrite <- Hl, firstn_app, firstn_all, Nat.sub_diag, skipn_app, skipn_all, Nat.sub_diag. simpl.
  rewrite app_nil_r, <- app_assoc. simpl. f_equal. exact (repeat_snoc_1 k [D]).
Qed.

Section Loops.
Context {A : Type}.
Implicit Types (h : heap A) (F : list nat -> A).

Lemma wp_unsqueeze_each_front x s F dims Q h :
  tensor h x s F ->
  (forall h', (forall n, n <= x -> grows n h h') ->
     (forall y s' G, y <> x -> tensor h y s' G -> tensor h' y s' G) ->
     tensor h' x (repeat 1 (length dims) ++ s) (fun idx => F (skipn (length dims) idx)) -> Q tt h') ->
  wp (unsqueeze_each x 0 dims) Q h.
Proof.
  revert s F h. induction dims as [|d ds IH]; intros s F h T HQ; simpl.
  - apply wp_ret. apply HQ; [intros; apply grows_refl|auto|exact T].
  - apply wp_bind. eapply wp_tensor_unsqueeze_; [exact T|apply wrap_zero|].
    intros h1 N1 G1 P1 T1. apply (IH _ _ _ T1). intros h2 G2 P2 T2. apply HQ.
    + intros n Hn. eapply grows_trans; [apply G1, Hn|apply G2, Hn].
    + intros y s' G Hy Ty. apply P2, P1; auto.
    + unfold insert_at in T2. simpl in T2. rewrite repeat_snoc_1 in T2.
      eapply tensor_ext; [exact T2|]. intros idx _. cbv beta. rewrite skipn_skipn. reflexivity.
Qed.

Lemma wp_unsqueeze_each_mid x s D G k dims Q h :
  tensor h x (s ++ repeat 1 k ++ [D]) (fun idx => G (firstn (length s) idx ++ [List.last idx 0])) ->
  (forall h', (forall n, n <= x -> grows n h h') ->
     (forall y s' F, y <> x -> tensor h y s' F -> tensor h' y s' F) ->
     tensor h' x (s ++ repeat 1 (k + length dims) ++ [D])
       (fun idx => G (firstn (length s) idx ++ [List.last idx 0])) -> Q tt h') ->
  wp (unsqueeze_each x (-2) dims) Q h.
Proof.
  revert k h. induction dims as [|d ds IH]; intros k h T HQ; simpl.
  - apply wp_ret. apply HQ; [intros; apply grows_refl|auto|]. rewrite Nat.add_0_r. exact T.
  - apply wp_bind. eapply wp_tensor_unsqueeze_; [exact T| |].
    { instantiate (1 := length s + k).
      rewrite (wrap_neg2_S (length (s ++ repeat 1 k ++ [D]))); rewrite !length_app, repeat_length; simpl.
      - f_equal. lia.
      - lia. }
    intros h1 N1 G1 P1 T1. rewrite insert_mid in T1.
    eapply (IH (S k)).
    + eapply tensor_ext; [exact T1|]. intros idx Hb. rewrite app_assoc in Hb.
      destruct (in_bounds_snoc_ex _ _ _ Hb) as (i & k' & -> & Hi & Hk).
      pose proof (in_bounds_length _ _ Hi) as Li. rewrite length_app, repeat_length in Li.
      rewrite (drop_mid i k' (length s) (length s + k)) by lia.
      rewrite !last_last. f_equal. f_equal.
      rewrite firstn_app, firstn_length_le by lia. replace (length s - (length s + k)) with 0 by lia.
      rewrite firstn_app. replace (length s - length i) with 0 by lia. simpl.
      rewrite !app_nil_r, firstn_firstn. f_equal. lia.
    + intros h2 G2 P2 T2. apply HQ.
      * intros n Hn. eapply grows_trans; [apply G1, Hn|apply G2, Hn].
      * intros y s' F Hy Ty. apply P2, P1; auto.
      * replace (k + length (d :: ds)) with (S k + length ds) by (simpl; lia). exact T2.
Qed.

Lemma wp_tensor_prepend tc s F dims Q h :
  tensor h tc s F ->
  (forall h' x, grows (h_next h) h h' ->
     tensor h' x (rev dims ++ s) (fun idx => F (skipn (length dims) idx)) -> Q x h') ->
  wp (prepend_batch_dims tc dims) Q h.
Proof.
  revert tc s F h. induction dims as [|dim ds IH]; intros tc s F h T HQ; simpl.
  - apply wp_ret. apply HQ; [apply grows_refl|exact T].
  - apply wp_bind. eapply wp_tensor_unsqueeze; [exact T|apply wrap_zero|]. intros h1 u G1 U.
    apply wp_bind. eapply wp_tensor_shape; [exact (tensor_grows _ _ _ _ _ G1 T)|].
    unfold insert_at in U. simpl in U.
    apply wp_bind. eapply wp_tensor_expand; [exact U| |].
    { constructor; [right; reflexivity|]. clear. induction s; constructor; auto. }
    intros h2 e G2 E. eapply (IH _ (dim :: s) (fun idx => F (skipn 1 idx))).
    + eapply tensor_ext; [exact E|]. intros idx Hb. inversion Hb as [|i0 ? i' ? _ Hb']; subst.
      unfold bcast. simpl. fold (bcast s i'). rewrite bcast_id by exact Hb'. reflexivity.
    + intros h3 x G3 X. apply HQ.
      * eapply grows_chain; [exact G1|]. eapply grows_chain; [exact G2|exact G3].
      * cbn [rev]. rewrite <- app_assoc. eapply tensor_ext; [exact X|]. intros idx _. simpl.
        cbv beta. rewrite skipn_skipn. reflexivity.
Qed.
End Loops.
End BatchRun.

(** ** Runs of [LogsignatureDiscrepancy.forward] and [__init__] *)
Module ForwardExec.
Import Frame FrameFacts ShapeFacts Run RunOps Logsig LogsigRun HeapFacts.
Import ShapeMore TensorRun BatchRun.

Lemma firstn_prefix (i r : list nat) : firstn (length i) (i ++ r) = i.
Proof. rewrite firstn_app, firstn_all, Nat.sub_diag. apply app_nil_r. Qed.

Lemma skipn_prefix (i r : list nat) : skipn (length i) (i ++ r) = r.
Proof. rewrite skipn_app, skipn_all, Nat.sub_diag. reflexivity. Qed.

Lemma wrap_neg1_2 (s : list nat) a b : wrap_dim (-1) (length (s ++ [a; b])) = Some (S (length s)).
Proof.
  unfold wrap_dim. rewrite length_app. simpl.
  destruct (Z.leb_spec (- Z.of_nat (length s + 2)) (-1)); [|lia]. f_equal. lia.
Qed.

Lemma ctensor_lt {A} (h : heap A) x s F : ctensor h x s F -> x < h_next h.
Proof. intros (m & st & _ & _ & _ & Bx & _). exact Bx. Qed.

Lemma tensor_lt {A} (h : heap A) x s F : tensor h x s F -> x < h_next h.
Proof. intros (m & st & _ & _ & _ & Bx & _). exact Bx. Qed.

Lemma expand_rel_right_gen B1 B2 Da Db :
  Db = Da \/ Db = 1 ->
  Forall2 (fun sz t => sz = t \/ sz = 1) (repeat 1 (length B1) ++ B2 ++ [Db]) (B1 ++ B2 ++ [Da]).
Proof.
  intros Hdb.
  apply Forall2_app; [induction B1; simpl; constructor; auto|].
  apply Forall2_app; [induction B2; constructor; auto|constructor; [exact Hdb|constructor]].
Qed.

(** Running [let!] from a successful first step. *)
Lemma wp_bind_run {A X Y} (m : M A X) (k : X -> M A Y) (R : (exn * heap A) + (Y * heap A) -> Prop) h :
  wp m (fun x h' => R (k x h')) h -> R (bind m k h).
Proof. unfold wp, bind. destruct (m h) as [[]|[]]; tauto. Qed.

Lemma wp_of_match {A X} (m : M A X) Q h :
  wp m Q h -> match m h with inr (x, h') => Q x h' | inl _ => False end.
Proof. intros Hm; exact Hm. Qed.

Lemma raises_of_ex {A X} (m : M A X) e h : raises m e h -> exists h', m h = inl (e, h').
Proof. intros Hm; exact Hm. Qed.

Section Fwd.
Context {A P : Type} `{Scalar A} `{PNorm P A}.

(** A run of [forward] up to its last [expand]: [R] holds of the whole
    run when it holds of the rest of the run from the two expanded-to-be
    logsignatures. *)
Lemma forward_prefix (self : logsignature_discrepancy (A:=A) (P:=P)) times x1 x2 h
    B1 B2 L1 L2 C1 C2 Ca Cb Y1 Y2 X1 X2 (R : (exn * heap A) + (nat * heap A) -> Prop) :
  stream_local (logsignature self) ->
  tensor h x1 (B1 ++ [L1; C1]) Y1 -> tensor h x2 (B2 ++ [L2; C2]) Y2 ->
  0 < L1 -> 0 < L2 -> 0 < Ca -> 0 < Cb ->
  wp (if include_time self then
        let! time_channel := unsqueeze times (-1) in
        let! time_channel1 := prepend_batch_dims time_channel B1 in
        let! time_channel2 := prepend_batch_dims time_channel B2 in
        let! path1 := cat_last time_channel1 x1 in
        let! path2 := cat_last time_channel2 x2 in
        ret (path1, path2)
      else ret (x1, x2))
     (fun pr h1 => grows (h_next h) h h1 /\
        tensor h1 (fst pr) (B1 ++ [L1; Ca]) X1 /\ view_ok h1 (fst pr) [numel B1; L1; Ca] /\
        tensor h1 (snd pr) (B2 ++ [L2; Cb]) X2 /\ view_ok h1 (snd pr) [numel B2; L2; Cb]) h ->
  (forall h' w1 w2, grows (h_next h) h h' ->
     tensor h' w1 (B1 ++ repeat 1 (length B2) ++ [logsignature_channels (logsignature self) Ca (depth self)])
       (fun idx => logsignature_stream (logsignature self) (depth self) L1 Ca
                     (fun l c => X1 (firstn (length B1) idx ++ [l; c])) (List.last idx 0)) ->
     tensor h' w2 (repeat 1 (length B1) ++ B2 ++ [logsignature_channels (logsignature self) Cb (depth self)])
       (fun idx => logsignature_stream (logsignature self) (depth self) L2 Cb
                     (fun l c => X2 (firstn (length B2) (skipn (length B1) idx) ++ [l; c])) (List.last idx 0)) ->
     R ((let! d := size_at w1 (-1) in
         let! logsignature1 := expand w1 (B1 ++ B2 ++ [d]) in
         let! d' := size_at logsignature1 (-1) in
         let! logsignature2 := expand w2 (B1 ++ B2 ++ [d']) in
         let! logsignature_diff := binop s_sub logsignature1 logsignature2 in
         let! logsignature_diff :=
           if pseudometric self then
             match linear self with
             | None => raise TypeError
             | Some lin =>
                 if String.eqb (metric_type self) "general"
                 then matmul s_zero s_add s_mul logsignature_diff lin
                 else binop s_mul logsignature_diff lin
             end
           else ret logsignature_diff in
         norm_last p_norm (p self) logsignature_diff) h')) ->
  R (forward self times x1 x2 h).
Proof.
  intros Hloc T1 T2 HL1 HL2 HCa HCb Hbr Hk. unfold forward.
  apply wp_bind_run. eapply wp_tensor_shape; [exact T1|].
  apply wp_bind_run. eapply wp_tensor_shape; [exact T2|].
  cbv beta zeta. rewrite !firstn_batch.
  apply wp_bind_run. eapply wp_mono; [exact Hbr|]. intros [p1 p2] h1 (G1 & P1 & VP1 & P2 & VP2). simpl in P1, VP1, P2, VP2.
  clear Hbr T1 T2.
  apply wp_bind_run. eapply wp_tensor_size; [exact P1|apply wrap_neg2|]. rewrite nth_middle.
  apply wp_bind_run. eapply wp_tensor_size; [exact P1|apply wrap_neg1_2|]. rewrite nth_snoc2_last.
  apply wp_bind_run. eapply wp_tensor_view; [exact P1|exact VP1|apply infer_flat; lia|].
  intros h2 v1 Hv1 G2 V1. apply (view_ok_grows _ _ _ _ G2 (tensor_lt _ _ _ _ P2)) in VP2.
  apply (tensor_grows _ _ _ _ _ G2) in P2.
  apply wp_bind_run. eapply wp_tensor_size; [exact P2|apply wrap_neg2|]. rewrite nth_middle.
  apply wp_bind_run. eapply wp_tensor_size; [exact P2|apply wrap_neg1_2|]. rewrite nth_snoc2_last.
  apply wp_bind_run. eapply wp_tensor_view; [exact P2|exact VP2|apply infer_flat; lia|].
  intros h3 v2 Hv2 G3 V2. apply (tensor_grows _ _ _ _ _ G3) in V1.
  apply wp_bind_run. eapply wp_tensor_logsig; [exact Hloc|exact V1|].
  intros h4 l1 G4 LS1. apply (tensor_grows _ _ _ _ _ G4) in V2.
  apply wp_bind_run. eapply wp_tensor_logsig; [exact Hloc|exact V2|].
  intros h5 l2 G5 LS2. apply (ctensor_grows _ _ _ _ _ G5) in LS1.
  set (Da := logsignature_channels (logsignature self) Ca (depth self)) in *.
  set (Db := logsignature_channels (logsignature self) Cb (depth self)) in *.
  apply wp_bind_run. eapply (wp_tensor_size_last _ [_]); [apply ctensor_tensor, LS1|].
  apply wp_bind_run. eapply (wp_tensor_view _ _ _ _ (B1 ++ [Da]));
    [apply ctensor_tensor, LS1|eapply ctensor_view_ok; [exact LS1|apply numel_snoc]|apply infer_exact|].
  intros h6 w1 Hw1 G6 W1. apply (ctensor_grows _ _ _ _ _ G6) in LS2.
  apply wp_bind_run. eapply (wp_tensor_size_last _ [_]); [apply ctensor_tensor, LS2|].
  apply wp_bind_run. eapply (wp_tensor_view _ _ _ _ (B2 ++ [Db]));
    [apply ctensor_tensor, LS2|eapply ctensor_view_ok; [exact LS2|apply numel_snoc]|apply infer_exact|].
  intros h7 w2 Hw2 G7 W2. pose proof (tensor_lt _ _ _ _ W1) as Bw1.
  apply (tensor_grows _ _ _ _ _ G7) in W1.
  pose proof (grows_next _ _ _ G1) as N1. pose proof (grows_next _ _ _ G2) as N2.
  pose proof (grows_next _ _ _ G3) as N3. pose proof (grows_next _ _ _ G4) as N4.
  pose proof (grows_next _ _ _ G5) as N5. pose proof (grows_next _ _ _ G6) as N6.
  pose proof (grows_next _ _ _ G7) as N7.
  assert (G07 : grows (h_next h) h h7).
  { do 6 (eapply grows_chain; [eassumption|]). exact G7. }
  clear G1 G2 G3 G4 G5 G6 G7.
  apply wp_bind_run. eapply wp_unsqueeze_each_front; [exact W2|].
  intros h8 G8 P8 W2'. apply P8 in W1; [|lia].
  apply wp_bind_run. match type of W1 with tensor _ _ _ ?F =>
    eapply (wp_unsqueeze_each_mid w1 B1 Da F 0) end.
  { eapply tensor_ext; [exact W1|]. intros idx Hb.
    destruct (in_bounds_snoc_ex _ _ _ Hb) as (i & k & -> & Hi & _).
    rewrite last_last, <- (in_bounds_length _ _ Hi), firstn_prefix. reflexivity. }
  intros h9 G9 P9 W1'. apply P9 in W2'; [|lia].
  assert (G09 : grows (h_next h) h h9).
  { eapply grows_trans; [exact G07|]. eapply grows_trans; [apply G8; lia|apply G9; lia]. }
  clear G8 G9 P8 P9. apply Hk; [exact G09| |].
  - rewrite Nat.add_0_l in W1'. eapply tensor_ext; [exact W1'|]. intros idx Hb.
    destruct (in_bounds_3 _ _ _ _ Hb) as (i & z & k & -> & Hi & Hz & Hkd). cbv beta.
    pose proof (in_bounds_length _ _ Hi) as Li.
    rewrite <- Li, !firstn_prefix, (app_assoc i z [k]), last_last.
    rewrite (view_back_read _ _ _ _ Hi Hkd).
    unfold stream_local in Hloc. apply Hloc. intros l c Hl Hc. apply f_equal, view_flat_read; assumption.
  - eapply tensor_ext; [exact W2'|]. intros idx Hb.
    destruct (in_bounds_3 _ _ _ _ Hb) as (z & j & k & -> & Hz & Hj & Hkd). cbv beta.
    pose proof (in_bounds_length _ _ Hj) as Lj.
    assert (Lz : length z = length B1) by (rewrite (in_bounds_length _ _ Hz); apply repeat_length).
    rewrite <- Lz, skipn_prefix, <- Lj, firstn_prefix, !(app_assoc z), !last_last.
    rewrite (view_back_read _ _ _ _ Hj Hkd).
    unfold stream_local in Hloc. apply Hloc. intros l c Hl Hc. apply f_equal, view_flat_read; assumption.
Qed.

(** A successful run of [forward] up to the subtraction, when the
    logsignature channel counts agree or the second one is 1. *)
Lemma forward_run_gen (self : logsignature_discrepancy (A:=A) (P:=P)) times x1 x2 h
    B1 B2 L1 L2 C1 C2 Ca Cb Y1 Y2 X1 X2 Q :
  stream_local (logsignature self) ->
  tensor h x1 (B1 ++ [L1; C1]) Y1 -> tensor h x2 (B2 ++ [L2; C2]) Y2 ->
  0 < L1 -> 0 < L2 -> 0 < Ca -> 0 < Cb ->
  logsignature_channels (logsignature self) Cb (depth self) =
    logsignature_channels (logsignature self) Ca (depth self) \/
  logsignature_channels (logsignature self) Cb (depth self) = 1 ->
  wp (if include_time self then
        let! time_channel := unsqueeze times (-1) in
        let! time_channel1 := prepend_batch_dims time_channel B1 in
        let! time_channel2 := prepend_batch_dims time_channel B2 in
        let! path1 := cat_last time_channel1 x1 in
        let! path2 := cat_last time_channel2 x2 in
        ret (path1, path2)
      else ret (x1, x2))
     (fun pr h1 => grows (h_next h) h h1 /\ 
        tensor h1 (fst pr) (B1 ++ [L1; Ca]) X1 /\ view_ok h1 (fst pr) [numel B1; L1; Ca] /\
        tensor h1 (snd pr) (B2 ++ [L2; Cb]) X2 /\ view_ok h1 (snd pr) [numel B2; L2; Cb]) h ->
  (forall h' d, grows (h_next h) h h' ->
     tensor h' d (B1 ++ B2 ++ [logsignature_channels (logsignature self) Ca (depth self)])
       (fun idx => s_sub
          (logsignature_stream (logsignature self) (depth self) L1 Ca
             (fun l c => X1 (firstn (length B1) idx ++ [l; c])) (List.last idx 0))
          (logsignature_stream (logsignature self) (depth self) L2 Cb
             (fun l c => X2 (firstn (length B2) (skipn (length B1) idx) ++ [l; c]))
             (if logsignature_channels (logsignature self) Cb (depth self) =? 1 then 0
              else List.last idx 0))) ->
     wp (let! logsignature_diff :=
           if pseudometric self then
             match linear self with
             | None => raise TypeError
             | Some lin =>
                 if String.eqb (metric_type self) "general"
                 then matmul s_zero s_add s_mul d lin
                 else binop s_mul d lin
             end
           else ret d in
         norm_last p_norm (p self) logsignature_diff) Q h') ->
  wp (forward self times x1 x2) Q h.
Proof.
  intros Hloc T1 T2 HL1 HL2 HCa HCb Hdb Hbr Hk.
  eapply (forward_prefix self times x1 x2 h B1 B2 L1 L2 C1 C2 Ca Cb Y1 Y2 X1 X2
            (fun r => match r with inr (x, h') => Q x h' | inl _ => False end));
    [exact Hloc|exact T1|exact T2|exact HL1|exact HL2|exact HCa|exact HCb|exact Hbr|].
  intros h9 w1 w2 G9 W1 W2. apply wp_of_match.
  set (Da := logsignature_channels (logsignature self) Ca (depth self)) in *.
  set (Db := logsignature_channels (logsignature self) Cb (depth self)) in *.
  apply wp_bind. eapply (wp_tensor_size_last _ (B1 ++ repeat 1 (length B2)));
    [rewrite <- app_assoc; exact W1|].
  apply wp_bind. eapply wp_tensor_expand; [exact W1|apply expand_rel_left|].
  intros h10 e1 G10 E1. apply (tensor_grows _ _ _ _ _ G10) in W2.
  apply wp_bind. eapply (wp_tensor_size_last _ (B1 ++ B2)); [rewrite <- app_assoc; exact E1|].
  apply wp_bind. eapply wp_tensor_expand; [exact W2|apply expand_rel_right_gen, Hdb|].
  intros h11 e2 G11 E2. apply (tensor_grows _ _ _ _ _ G11) in E1.
  apply wp_bind. eapply wp_tensor_binop; [exact E1|exact E2|].
  intros h12 df G12 DF. apply Hk.
  { eapply grows_chain; [exact G9|]. eapply grows_chain; [exact G10|].
    eapply grows_chain; [exact G11|exact G12]. }
  eapply tensor_ext; [apply ctensor_tensor, DF|]. intros idx Hb.
  destruct (in_bounds_3 _ _ _ _ Hb) as (i & j & k & -> & Hi & Hj & Hkd). cbv beta.
  pose proof (in_bounds_length _ _ Hi) as Li. pose proof (in_bounds_length _ _ Hj) as Lj.
  assert (Bk : in_bounds [k] [Da]) by (constructor; [exact Hkd|constructor]).
  rewrite (bcast_app B1 _ i _ Li), (bcast_id _ _ Hi).
  rewrite (bcast_app (repeat 1 (length B2)) [Da] j [k]) by (rewrite repeat_length; exact Lj).
  rewrite (bcast_ones _ _ Lj), (bcast_id _ _ Bk).
  rewrite (bcast_app (repeat 1 (length B1)) _ i _) by (rewrite repeat_length; exact Li).
  rewrite (bcast_ones _ _ Li), (bcast_app B2 [Db] j [k] Lj), (bcast_id _ _ Hj).
  change (bcast [Db] [k]) with [if Db =? 1 then 0 else k].
  assert (Fp : forall (a r : list nat) n, length a = n -> firstn n (a ++ r) = a)
    by (intros a r n <-; apply firstn_prefix).
  assert (Sp : forall (a r : list nat) n, length a = n -> skipn n (a ++ r) = r)
    by (intros a r n <-; apply skipn_prefix).
  rewrite !(Fp _ _ _ Li), !(Sp _ _ _ Li), (Sp _ _ (length B1)) by apply repeat_length.
  rewrite !(Fp _ _ _ Lj), !app_assoc, !last_last. reflexivity.
Qed.

Lemma forward_run (self : logsignature_discrepancy (A:=A) (P:=P)) times x1 x2 h
    B1 B2 L1 L2 C1 C2 C Y1 Y2 X1 X2 Q :
  stream_local (logsignature self) ->
  tensor h x1 (B1 ++ [L1; C1]) Y1 -> tensor h x2 (B2 ++ [L2; C2]) Y2 ->
  0 < L1 -> 0 < L2 -> 0 < C ->
  wp (if include_time self then
        let! time_channel := unsqueeze times (-1) in
        let! time_channel1 := prepend_batch_dims time_channel B1 in
        let! time_channel2 := prepend_batch_dims time_channel B2 in
        let! path1 := cat_last time_channel1 x1 in
        let! path2 := cat_last time_channel2 x2 in
        ret (path1, path2)
      else ret (x1, x2))
     (fun pr h1 => grows (h_next h) h h1 /\ 
        tensor h1 (fst pr) (B1 ++ [L1; C]) X1 /\ view_ok h1 (fst pr) [numel B1; L1; C] /\
        tensor h1 (snd pr) (B2 ++ [L2; C]) X2 /\ view_ok h1 (snd pr) [numel B2; L2; C]) h ->
  (forall h' d, grows (h_next h) h h' ->
     tensor h' d (B1 ++ B2 ++ [logsignature_channels (logsignature self) C (depth self)])
       (fun idx => s_sub
          (logsignature_stream (logsignature self) (depth self) L1 C
             (fun l c => X1 (firstn (length B1) idx ++ [l; c])) (List.last idx 0))
          (logsignature_stream (logsignature self) (depth self) L2 C
             (fun l c => X2 (firstn (length B2) (skipn (length B1) idx) ++ [l; c])) (List.last idx 0))) ->
     wp (let! logsignature_diff :=
           if pseudometric self then
             match linear self with
             | None => raise TypeError
             | Some lin =>
                 if String.eqb (metric_type self) "general"
                 then matmul s_zero s_add s_mul d lin
                 else binop s_mul d lin
             end
           else ret d in
         norm_last p_norm (p self) logsignature_diff) Q h') ->
  wp (forward self times x1 x2) Q h.
Proof.
  intros Hloc T1 T2 HL1 HL2 HC Hbr Hk.
  eapply (forward_run_gen self times x1 x2 h B1 B2 L1 L2 C1 C2 C C);
    [exact Hloc|exact T1|exact T2|exact HL1|exact HL2|exact HC|exact HC|left; reflexivity|exact Hbr|].
  intros h' d G Td. apply Hk; [exact G|]. eapply tensor_ext; [exact Td|]. intros idx Hb.
  rewrite app_assoc in Hb. destruct (in_bounds_snoc _ _ _ Hb) as (_ & _ & Hlt). cbv beta.
  destruct (Nat.eqb_spec (logsignature_channels (logsignature self) C (depth self)) 1) as [E|];
    [|reflexivity].
  rewrite E in Hlt. replace (List.last idx 0) with 0 by lia. reflexivity.
Qed.

Lemma ctensor_value (h : heap A) x s F idx :
  ctensor h x s F -> in_bounds idx s -> value_at h x idx = Some (F idx).
Proof.
  intros (m & st & [Om Os] & Sh & Str & Bx & Bs & Hv) Hb. unfold value_at.
  rewrite Om, Os, Hv by exact Hb. reflexivity.
Qed.

Lemma ctensor_shape (h : heap A) x s F :
  ctensor h x s F -> option_map t_shape (h_tensors h !! x) = Some s.
Proof. intros (m & st & [Om Os] & Sh & _). rewrite Om. simpl. f_equal. exact Sh. Qed.

Lemma pair_index (i j B1 B2 : list nat) k :
  length i = length B1 -> length j = length B2 ->
  firstn (length B1) ((i ++ j) ++ [k]) = i /\
  firstn (length B2) (skipn (length B1) ((i ++ j) ++ [k])) = j /\
  List.last ((i ++ j) ++ [k]) 0 = k.
Proof.
  intros Li Lj. rewrite last_last, <- app_assoc, <- Li, firstn_prefix, skipn_prefix, <- Lj, firstn_prefix.
  auto.
Qed.

Lemma in_bounds_pair (i j B1 B2 : list nat) :
  in_bounds i B1 -> in_bounds j B2 -> in_bounds (i ++ j) (B1 ++ B2).
Proof. apply Forall2_app. Qed.

(** X1: without time and without pseudometric, [forward] on paths of
    batch shapes [B1] and [B2] (same channel count [C]) whose
    [view(-1, L, C)] is accepted (for instance contiguous paths, or paths
    with at most one batch dimension, see [ctensor_view_ok] and
    [tensor_view_ok_flat]) returns a
    new tensor of shape [B1 ++ B2] whose entry [i ++ j] is the [p]-norm of
    the difference of the logsignatures of [path1[i]] and [path2[j]]. *)
Lemma forward_identity_pairwise (self : logsignature_discrepancy (A:=A) (P:=P)) times x1 x2 h
    B1 B2 L1 L2 C X1 X2 :
  include_time self = false -> pseudometric self = false -> stream_local (logsignature self) ->
  tensor h x1 (B1 ++ [L1; C]) X1 -> view_ok h x1 [numel B1; L1; C] ->
  tensor h x2 (B2 ++ [L2; C]) X2 -> view_ok h x2 [numel B2; L2; C] ->
  0 < L1 -> 0 < L2 -> 0 < C ->
  wp (forward self times x1 x2) (fun r h' =>
    grows (h_next h) h h' /\ option_map t_shape (h_tensors h' !! r) = Some (B1 ++ B2) /\
    forall i j, in_bounds i B1 -> in_bounds j B2 ->
      value_at h' r (i ++ j) = Some (p_norm (p self) (map (fun k =>
        s_sub (logsignature_stream (logsignature self) (depth self) L1 C (fun l c => X1 (i ++ [l; c])) k)
              (logsignature_stream (logsignature self) (depth self) L2 C (fun l c => X2 (j ++ [l; c])) k))
        (seq 0 (logsignature_channels (logsignature self) C (depth self)))))) h.
Proof.
  intros Hit Hpm Hloc T1 V1 T2 V2 HL1 HL2 HC.
  eapply (forward_run self times x1 x2 h B1 B2 L1 L2 C C C X1 X2 X1 X2);
    [exact Hloc|exact T1|exact T2|exact HL1|exact HL2|exact HC| |].
  { rewrite Hit. apply wp_ret. split; [apply grows_refl|repeat split; assumption]. }
  intros h' d G T. rewrite Hpm. apply wp_bind, wp_ret.
  eapply wp_tensor_norm_last; [rewrite app_assoc in T; exact T|]. intros h'' r G' R.
  split; [eapply grows_chain; eassumption|]. split; [exact (ctensor_shape _ _ _ _ R)|].
  intros i j Hi Hj. rewrite (ctensor_value _ _ _ _ _ R (in_bounds_pair _ _ _ _ Hi Hj)).
  do 2 f_equal. apply map_ext. intros k.
  destruct (pair_index i j B1 B2 k (in_bounds_length _ _ Hi) (in_bounds_length _ _ Hj))
    as (E1 & E2 & E3).
  rewrite E1, E2, E3. reflexivity.
Qed.

(** X2: without time, with [pseudometric] and a non-general [metric_type]
    (paths as in X1), entry
    [i ++ j] is the [p]-norm of the logsignature difference multiplied
    entrywise by the vector [linear]. *)
Lemma forward_diagonal_pairwise (self : logsignature_discrepancy (A:=A) (P:=P)) times x1 x2 h
    B1 B2 L1 L2 C X1 X2 lin W :
  include_time self = false -> pseudometric self = true -> linear self = Some lin ->
  String.eqb (metric_type self) "general" = false -> stream_local (logsignature self) ->
  tensor h x1 (B1 ++ [L1; C]) X1 -> view_ok h x1 [numel B1; L1; C] ->
  tensor h x2 (B2 ++ [L2; C]) X2 -> view_ok h x2 [numel B2; L2; C] ->
  tensor h lin [logsignature_channels (logsignature self) C (depth self)] W ->
  0 < L1 -> 0 < L2 -> 0 < C ->
  wp (forward self times x1 x2) (fun r h' =>
    grows (h_next h) h h' /\ option_map t_shape (h_tensors h' !! r) = Some (B1 ++ B2) /\
    forall i j, in_bounds i B1 -> in_bounds j B2 ->
      value_at h' r (i ++ j) = Some (p_norm (p self) (map (fun k =>
        s_mul (s_sub (logsignature_stream (logsignature self) (depth self) L1 C (fun l c => X1 (i ++ [l; c])) k)
                     (logsignature_stream (logsignature self) (depth self) L2 C (fun l c => X2 (j ++ [l; c])) k))
              (W [k]))
        (seq 0 (logsignature_channels (logsignature self) C (depth self)))))) h.
Proof.
  intros Hit Hpm Hlin Hmt Hloc T1 V1 T2 V2 TW HL1 HL2 HC.
  eapply (forward_run self times x1 x2 h B1 B2 L1 L2 C C C X1 X2 X1 X2);
    [exact Hloc|exact T1|exact T2|exact HL1|exact HL2|exact HC| |].
  { rewrite Hit. apply wp_ret. split; [apply grows_refl|repeat split; assumption]. }
  intros h' d G T. rewrite Hpm, Hlin, Hmt. apply wp_bind.
  eapply wp_tensor_binop_last; [rewrite app_assoc in T; exact T|exact (tensor_grows _ _ _ _ _ G TW)|].
  intros h2 y G2 Y.
  eapply wp_tensor_norm_last; [apply ctensor_tensor, Y|]. intros h3 r G3 R.
  split; [eapply grows_chain; [exact G|]; eapply grows_chain; eassumption|].
  split; [exact (ctensor_shape _ _ _ _ R)|].
  intros i j Hi Hj. rewrite (ctensor_value _ _ _ _ _ R (in_bounds_pair _ _ _ _ Hi Hj)).
  do 2 f_equal. apply map_ext. intros k.
  destruct (pair_index i j B1 B2 k (in_bounds_length _ _ Hi) (in_bounds_length _ _ Hj))
    as (E1 & E2 & E3).
  rewrite E1, E2, E3. reflexivity.
Qed.

(** X3: without time, with [pseudometric] and [metric_type = "general"]
    (paths as in X1), entry [i ++ j]
    is the [p]-norm of the row vector [q @ linear], [q] the logsignature
    difference. *)
Lemma forward_general_pairwise (self : logsignature_discrepancy (A:=A) (P:=P)) times x1 x2 h
    B1 B2 L1 L2 C X1 X2 lin E W :
  include_time self = false -> pseudometric self = true -> linear self = Some lin ->
  metric_type self = "general" -> stream_local (logsignature self) ->
  tensor h x1 (B1 ++ [L1; C]) X1 -> view_ok h x1 [numel B1; L1; C] ->
  tensor h x2 (B2 ++ [L2; C]) X2 -> view_ok h x2 [numel B2; L2; C] ->
  tensor h lin [logsignature_channels (logsignature self) C (depth self); E] W ->
  0 < L1 -> 0 < L2 -> 0 < C ->
  wp (forward self times x1 x2) (fun r h' =>
    grows (h_next h) h h' /\ option_map t_shape (h_tensors h' !! r) = Some (B1 ++ B2) /\
    forall i j, in_bounds i B1 -> in_bounds j B2 ->
      value_at h' r (i ++ j) = Some (p_norm (p self) (map (fun e =>
        fold_right s_add s_zero (map (fun k =>
          s_mul (s_sub (logsignature_stream (logsignature self) (depth self) L1 C (fun l c => X1 (i ++ [l; c])) k)
                       (logsignature_stream (logsignature self) (depth self) L2 C (fun l c => X2 (j ++ [l; c])) k))
                (W [k; e]))
          (seq 0 (logsignature_channels (logsignature self) C (depth self)))))
        (seq 0 E)))) h.
Proof.
  intros Hit Hpm Hlin Hmt Hloc T1 V1 T2 V2 TW HL1 HL2 HC.
  eapply (forward_run self times x1 x2 h B1 B2 L1 L2 C C C X1 X2 X1 X2);
    [exact Hloc|exact T1|exact T2|exact HL1|exact HL2|exact HC| |].
  { rewrite Hit. apply wp_ret. split; [apply grows_refl|repeat split; assumption]. }
  intros h' d G T. rewrite Hpm, Hlin, Hmt. simpl String.eqb. cbv iota. apply wp_bind.
  eapply wp_tensor_matmul; [rewrite app_assoc in T; exact T|exact (tensor_grows _ _ _ _ _ G TW)|].
  intros h2 y G2 Y.
  eapply wp_tensor_norm_last; [apply ctensor_tensor, Y|]. intros h3 r G3 R.
  split; [eapply grows_chain; [exact G|]; eapply grows_chain; eassumption|].
  split; [exact (ctensor_shape _ _ _ _ R)|].
  intros i j Hi Hj. rewrite (ctensor_value _ _ _ _ _ R (in_bounds_pair _ _ _ _ Hi Hj)).
  do 2 f_equal. apply map_ext. intros e. rewrite removelast_last, last_last.
  f_equal. apply map_ext. intros k.
  destruct (pair_index i j B1 B2 k (in_bounds_length _ _ Hi) (in_bounds_length _ _ Hj))
    as (E1 & E2 & E3).
  rewrite E1, E2, E3. reflexivity.
Qed.


Lemma in_bounds_2 idx (B : list nat) L C :
  in_bounds idx (B ++ [L; C]) -> exists i l c, idx = i ++ [l; c] /\ in_bounds i B /\ l < L /\ c < C.
Proof.
  intros Hb. apply Forall2_app_inv_r in Hb as (i & r & Hi & Hr & ->).
  inversion Hr as [|l ? r' ? Hl Hr']; subst. inversion Hr' as [|c ? ? ? Hc Hn]; subst.
  inversion Hn; subst. eauto 10.
Qed.

Lemma snoc2 (i : list nat) l c : i ++ [l; c] = (i ++ [l]) ++ [c].
Proof. rewrite <- app_assoc. reflexivity. Qed.

Lemma wp_time_branch times x1 x2 h B1 B2 L C T Y1 Y2 :
  rev B1 = B1 -> rev B2 = B2 ->
  tensor h times [L] T -> tensor h x1 (B1 ++ [L; C]) Y1 -> tensor h x2 (B2 ++ [L; C]) Y2 ->
  wp (let! time_channel := unsqueeze times (-1) in
      let! time_channel1 := prepend_batch_dims time_channel B1 in
      let! time_channel2 := prepend_batch_dims time_channel B2 in
      let! path1 := cat_last time_channel1 x1 in
      let! path2 := cat_last time_channel2 x2 in
      ret (path1, path2))
    (fun pr h1 => grows (h_next h) h h1 /\
       tensor h1 (fst pr) (B1 ++ [L; S C]) (fun idx => match skipn (length B1) idx with
         | [l; c] => if c =? 0 then T [l] else Y1 (firstn (length B1) idx ++ [l; c - 1])
         | _ => s_zero end) /\ view_ok h1 (fst pr) [numel B1; L; S C] /\
       tensor h1 (snd pr) (B2 ++ [L; S C]) (fun idx => match skipn (length B2) idx with
         | [l; c] => if c =? 0 then T [l] else Y2 (firstn (length B2) idx ++ [l; c - 1])
         | _ => s_zero end) /\ view_ok h1 (snd pr) [numel B2; L; S C]) h.
Proof.
  intros HB1 HB2 TT T1 T2.
  apply wp_bind. eapply wp_tensor_unsqueeze; [exact TT|reflexivity|]. intros ha tc Ga TC.
  unfold insert_at in TC. simpl in TC.
  apply wp_bind. eapply wp_tensor_prepend; [exact TC|]. intros hb tc1 Gb TC1.
  apply wp_bind. eapply wp_tensor_prepend; [exact (tensor_grows _ _ _ _ _ Gb TC)|].
  intros hc tc2 Gc TC2.
  assert (Gac : grows (h_next h) h hc).
  { eapply grows_chain; [exact Ga|]. eapply grows_chain; [exact Gb|exact Gc]. }
  rewrite HB1 in TC1. rewrite HB2 in TC2.
  apply wp_bind. eapply (wp_tensor_cat_last tc1 x1 (B1 ++ [L]) 1 C);
    [rewrite <- app_assoc; exact (tensor_grows _ _ _ _ _ Gc TC1)
    |rewrite <- app_assoc; exact (tensor_grows _ _ _ _ _ Gac T1)|].
  intros hd p1 Gd P1.
  apply wp_bind. eapply (wp_tensor_cat_last tc2 x2 (B2 ++ [L]) 1 C);
    [rewrite <- app_assoc; exact (tensor_grows _ _ _ _ _ Gd TC2)
    |rewrite <- app_assoc; exact (tensor_grows _ _ _ _ _ Gd (tensor_grows _ _ _ _ _ Gac T2))|].
  intros he p2 Ge P2.
  apply wp_ret. split; [eapply grows_chain; [exact Gac|]; eapply grows_chain; eassumption|].
  apply (ctensor_grows _ _ _ _ _ Ge) in P1.
  rewrite <- app_assoc in P1, P2. simpl in P1, P2. simpl fst. simpl snd.
  split; [|split; [eapply ctensor_view_ok; [exact P1|apply numel_flat]|]].
  2: split; [|eapply ctensor_view_ok; [exact P2|apply numel_flat]].
  - apply ctensor_tensor. eapply ctensor_ext; [exact P1|]. intros idx Hb.
    destruct (in_bounds_2 _ _ _ _ Hb) as (i & l & c & -> & Hi & Hl & Hc).
    pose proof (in_bounds_length _ _ Hi) as Li.
    rewrite <- Li, firstn_prefix, skipn_prefix, snoc2, removelast_last, last_last.
    change (Z.to_nat (-1 + Z.of_nat 2)) with 1. rewrite <- !app_assoc. simpl app.
    rewrite skipn_prefix. destruct c; reflexivity.
  - apply ctensor_tensor. eapply ctensor_ext; [exact P2|]. intros idx Hb.
    destruct (in_bounds_2 _ _ _ _ Hb) as (j & l & c & -> & Hj & Hl & Hc).
    pose proof (in_bounds_length _ _ Hj) as Lj.
    rewrite <- Lj, firstn_prefix, skipn_prefix, snoc2, removelast_last, last_last.
    change (Z.to_nat (-1 + Z.of_nat 2)) with 1. rewrite <- !app_assoc. simpl app.
    rewrite skipn_prefix. destruct c; reflexivity.
Qed.

(** X4: with [include_time], on palindromic batch shapes and paths of the
    length of [times], entry [i ++ j] is the [p]-norm of the difference of
    the logsignatures of the paths with [times] as channel 0. *)
Lemma forward_time_pairwise (self : logsignature_discrepancy (A:=A) (P:=P)) times x1 x2 h
    B1 B2 L C T Y1 Y2 :
  include_time self = true -> pseudometric self = false -> stream_local (logsignature self) ->
  rev B1 = B1 -> rev B2 = B2 ->
  tensor h times [L] T -> tensor h x1 (B1 ++ [L; C]) Y1 -> tensor h x2 (B2 ++ [L; C]) Y2 ->
  0 < L ->
  wp (forward self times x1 x2) (fun r h' =>
    grows (h_next h) h h' /\ option_map t_shape (h_tensors h' !! r) = Some (B1 ++ B2) /\
    forall i j, in_bounds i B1 -> in_bounds j B2 ->
      value_at h' r (i ++ j) = Some (p_norm (p self) (map (fun k =>
        s_sub (logsignature_stream (logsignature self) (depth self) L (S C)
                 (fun l c => if c =? 0 then T [l] else Y1 (i ++ [l; c - 1])) k)
              (logsignature_stream (logsignature self) (depth self) L (S C)
                 (fun l c => if c =? 0 then T [l] else Y2 (j ++ [l; c - 1])) k))
        (seq 0 (logsignature_channels (logsignature self) (S C) (depth self)))))) h.
Proof.
  intros Hit Hpm Hloc HB1 HB2 TT T1 T2 HL.
  set (X1 := fun idx => match skipn (length B1) idx with
                        | [l; c] => if c =? 0 then T [l] else Y1 (firstn (length B1) idx ++ [l; c - 1])
                        | _ => s_zero end).
  set (X2 := fun idx => match skipn (length B2) idx with
                        | [l; c] => if c =? 0 then T [l] else Y2 (firstn (length B2) idx ++ [l; c - 1])
                        | _ => s_zero end).
  eapply (forward_run self times x1 x2 h B1 B2 L L C C (S C) Y1 Y2 X1 X2);
    [exact Hloc|exact T1|exact T2|exact HL|exact HL|lia| |].
  - rewrite Hit. apply wp_time_branch; assumption.
  - intros h' d G Td. rewrite Hpm. apply wp_bind, wp_ret.
    eapply wp_tensor_norm_last; [rewrite app_assoc in Td; exact Td|]. intros h'' r G' R.
    split; [eapply grows_chain; eassumption|]. split; [exact (ctensor_shape _ _ _ _ R)|].
    intros i j Hi Hj. rewrite (ctensor_value _ _ _ _ _ R (in_bounds_pair _ _ _ _ Hi Hj)).
    pose proof (in_bounds_length _ _ Hi) as Li. pose proof (in_bounds_length _ _ Hj) as Lj.
    do 2 f_equal. apply map_ext. intros k.
    destruct (pair_index i j B1 B2 k Li Lj) as (E1 & E2 & E3).
    rewrite E1, E2, E3. unfold stream_local in Hloc.
    f_equal; apply Hloc; intros l c _ _.
    + unfold X1. rewrite <- Li, firstn_prefix, skipn_prefix. reflexivity.
    + unfold X2. rewrite <- Lj, firstn_prefix, skipn_prefix. reflexivity.
Qed.


Lemma wp_tail_shape (self : logsignature_discrepancy (A:=A) (P:=P)) h d S D F :
  tensor h d (S ++ [D]) F ->
  (pseudometric self = true -> exists lin W, linear self = Some lin /\
     tensor h lin (if String.eqb (metric_type self) "general" then [D; D] else [D]) W) ->
  wp (let! logsignature_diff :=
        if pseudometric self then
          match linear self with
          | None => raise TypeError
          | Some lin =>
              if String.eqb (metric_type self) "general"
              then matmul s_zero s_add s_mul d lin
              else binop s_mul d lin
          end
        else ret d in
      norm_last p_norm (p self) logsignature_diff)
    (fun r h' => grows (h_next h) h h' /\ option_map t_shape (h_tensors h' !! r) = Some S) h.
Proof.
  intros Td Hlin. apply wp_bind. destruct (pseudometric self).
  - destruct (Hlin eq_refl) as (lin & W & -> & TW).
    destruct (String.eqb (metric_type self) "general").
    + eapply wp_tensor_matmul; [exact Td|exact TW|]. intros h2 y G2 Y.
      eapply wp_tensor_norm_last; [apply ctensor_tensor, Y|]. intros h3 r G3 R.
      split; [eapply grows_chain; eassumption|exact (ctensor_shape _ _ _ _ R)].
    + eapply wp_tensor_binop_last; [exact Td|exact TW|]. intros h2 y G2 Y.
      eapply wp_tensor_norm_last; [apply ctensor_tensor, Y|]. intros h3 r G3 R.
      split; [eapply grows_chain; eassumption|exact (ctensor_shape _ _ _ _ R)].
  - apply wp_ret. eapply wp_tensor_norm_last; [exact Td|]. intros h3 r G3 R.
    split; [exact G3|exact (ctensor_shape _ _ _ _ R)].
Qed.

Lemma wp_alloc_ctensor_next s (f : list nat -> A) Q h :
  (forall h', grows (h_next h) h h' -> h_next h' = S (h_next h) -> ctensor h' (h_next h) s f ->
     Q (h_next h) h') ->
  wp (alloc s f) Q h.
Proof.
  intros HQ. apply wp_alloc. intros h' [G [_ [E O]]]. apply HQ; [exact G|exact E|].
  eexists; eexists. split; [exact O|]. simpl. repeat split; try lia.
  intros idx Hb. rewrite unravel_dot by exact Hb. reflexivity.
Qed.

Lemma wp_init_some (lib : signatory_lib A) rand in_ch dp (pp : P) it pm mt h :
  Logsig.metric_type_ok mt = true ->
  wp (init (Some lib) rand in_ch dp pp it pm mt) (fun self h' =>
    in_channels self = in_ch /\ depth self = dp /\ p self = pp /\ include_time self = it /\
    pseudometric self = pm /\ metric_type self = mt /\ logsignature self = lib /\
    match linear self with
    | None => pm = false /\ h' = h
    | Some lin => pm = true /\ lin = h_next h /\ h_next h' = S (h_next h) /\
        grows (h_next h) h h' /\
        ctensor h' lin (if String.eqb mt "general"
                        then [logsignature_channels lib (if it then in_ch + 1 else in_ch) dp;
                              logsignature_channels lib (if it then in_ch + 1 else in_ch) dp]
                        else [logsignature_channels lib (if it then in_ch + 1 else in_ch) dp]) rand
    end) h.
Proof.
  intros Hok. unfold init. rewrite Hok. simpl negb. cbv iota.
  apply wp_bind. destruct pm.
  - apply wp_bind. destruct (String.eqb mt "general");
      apply wp_alloc_ctensor_next; intros h' G E Ct; apply wp_ret; apply wp_ret;
      cbn [linear in_channels depth p include_time pseudometric metric_type logsignature];
      do 9 (split; [reflexivity|]); exact (conj E (conj G Ct)).
  - apply wp_ret. apply wp_ret. repeat split.
Qed.


(** X10: with a valid [metric_type], [__init__] succeeds; [linear] is
    [None] exactly without [pseudometric] (nothing allocated), and otherwise
    one new contiguous parameter of shape [(D, D)] ("general") or [(D,)],
    [D] the logsignature channels of [in_channels] (+1 with time). *)
Lemma init_linear_shape (lib : signatory_lib A) rand in_ch dp (pp : P) it pm mt h :
  Logsig.metric_type_ok mt = true ->
  wp (init (Some lib) rand in_ch dp pp it pm mt) (fun self h' =>
    match linear self with
    | None => pm = false /\ h' = h
    | Some lin => pm = true /\ lin = h_next h /\ h_next h' = S (h_next h) /\
        grows (h_next h) h h' /\
        ctensor h' lin (if String.eqb mt "general"
                        then [logsignature_channels lib (if it then in_ch + 1 else in_ch) dp;
                              logsignature_channels lib (if it then in_ch + 1 else in_ch) dp]
                        else [logsignature_channels lib (if it then in_ch + 1 else in_ch) dp]) rand
    end) h.
Proof.
  intros Hok. eapply wp_mono; [exact (wp_init_some lib rand in_ch dp pp it pm mt h Hok)|].
  intros self h' (_ & _ & _ & _ & _ & _ & _ & Hl). exact Hl.
Qed.

(** X11: a module built by [__init__] with a valid [metric_type] accepts
    paths with [in_channels] channels (with [include_time]: palindromic
    batch shapes and matching [times]; without it: paths whose
    [view(-1, L, C)] is accepted) and returns a tensor of shape
    [B1 ++ B2]. *)
Lemma init_forward_shape (lib : signatory_lib A) rand in_ch dp (pp : P) it pm mt times x1 x2 h
    B1 B2 L1 L2 X1 X2 :
  Logsig.metric_type_ok mt = true -> stream_local lib ->
  tensor h x1 (B1 ++ [L1; in_ch]) X1 -> tensor h x2 (B2 ++ [L2; in_ch]) X2 ->
  0 < L1 -> 0 < L2 -> 0 < in_ch ->
  (it = true -> rev B1 = B1 /\ rev B2 = B2 /\ L1 = L2 /\ exists T, tensor h times [L1] T) ->
  (it = false -> view_ok h x1 [numel B1; L1; in_ch] /\ view_ok h x2 [numel B2; L2; in_ch]) ->
  wp (let! self := init (Some lib) rand in_ch dp pp it pm mt in forward self times x1 x2)
    (fun r h' => grows (h_next h) h h' /\ option_map t_shape (h_tensors h' !! r) = Some (B1 ++ B2)) h.
Proof.
  intros Hok Hloc T1 T2 HL1 HL2 HC Hit Hv.
  apply wp_bind. eapply wp_mono; [exact (wp_init_some lib rand in_ch dp pp it pm mt h Hok)|].
  intros self h1 (Hin & Hdp & Hp & Hits & Hpm & Hmt & Hlib & Hlin).
  assert (G1 : grows (h_next h) h h1).
  { destruct (linear self); [tauto|destruct Hlin as [_ ->]; apply grows_refl]. }
  pose proof (tensor_lt _ _ _ _ T1) as Bx1. pose proof (tensor_lt _ _ _ _ T2) as Bx2.
  apply (tensor_grows _ _ _ _ _ G1) in T1, T2.
  assert (Htail : forall C h' d F, C = (if it then in_ch + 1 else in_ch) ->
            grows (h_next h1) h1 h' ->
            tensor h' d (B1 ++ B2 ++ [logsignature_channels (logsignature self) C (depth self)]) F ->
            wp (let! logsignature_diff :=
                  if pseudometric self then
                    match linear self with
                    | None => raise TypeError
                    | Some lin =>
                        if String.eqb (metric_type self) "general"
                        then matmul s_zero s_add s_mul d lin
                        else binop s_mul d lin
                    end
                  else ret d in
                norm_last p_norm (p self) logsignature_diff)
               (fun r h' => grows (h_next h) h h' /\
                  option_map t_shape (h_tensors h' !! r) = Some (B1 ++ B2)) h').
  { intros C h' d F -> G Td. rewrite app_assoc in Td.
    eapply wp_mono; [eapply (wp_tail_shape self h' d (B1 ++ B2)); [exact Td|]|].
    - intros Hpm'. destruct (linear self) as [lin|]; [|destruct Hlin; congruence].
      destruct Hlin as (_ & _ & _ & _ & Ct). exists lin, rand. split; [reflexivity|].
      rewrite Hmt, Hlib, Hdp. apply (tensor_grows _ _ _ _ _ G), ctensor_tensor, Ct.
    - intros r h'' [G' Sh]. split; [eapply grows_chain; [exact G1|]; eapply grows_chain; eassumption|exact Sh]. }
  destruct it.
  - destruct (Hit eq_refl) as (HB1 & HB2 & <- & T & TT).
    apply (tensor_grows _ _ _ _ _ G1) in TT.
    eapply (forward_run self times x1 x2 h1 B1 B2 L1 L1 in_ch in_ch (S in_ch));
      [rewrite Hlib; exact Hloc|exact T1|exact T2|exact HL1|exact HL1|lia| |].
    + rewrite Hits. apply wp_time_branch; [exact HB1|exact HB2|exact TT|exact T1|exact T2].
    + intros h' d G Td. eapply Htail; [|exact G|exact Td]. lia.
  - destruct (Hv eq_refl) as [V1 V2].
    apply (view_ok_grows _ _ _ _ G1 Bx1) in V1. apply (view_ok_grows _ _ _ _ G1 Bx2) in V2.
    eapply (forward_run self times x1 x2 h1 B1 B2 L1 L2 in_ch in_ch in_ch);
      [rewrite Hlib; exact Hloc|exact T1|exact T2|exact HL1|exact HL2|exact HC| |].
    + rewrite Hits. apply wp_ret. split; [apply grows_refl|split; [exact T1|split; [exact V1|split; [exact T2|exact V2]]]].
    + intros h' d G Td. eapply Htail; [reflexivity|exact G|exact Td].
Qed.



Lemma raises_cat_last x1 x2 s1 s2 F1 F2 (h : heap A) :
  tensor h x1 s1 F1 -> tensor h x2 s2 F2 ->
  match rev s1, rev s2 with c1 :: r1, c2 :: r2 => r1 <> r2 | _, _ => True end ->
  raises (cat_last x1 x2) RuntimeError h.
Proof.
  intros T1 T2 Hne. unfold cat_last.
  apply raises_bind. eapply wp_tensor_shape; [exact T1|].
  apply raises_bind. eapply wp_tensor_shape; [exact T2|].
  apply raises_bind. eapply wp_tensor_data; [exact T1|]. intros g1 _.
  apply raises_bind. eapply wp_tensor_data; [exact T2|]. intros g2 _.
  destruct (rev s1) as [|c1 r1]; [apply raises_raise|].
  destruct (rev s2) as [|c2 r2]; [apply raises_raise|].
  rewrite bool_decide_eq_false_2 by exact Hne. apply raises_raise.
Qed.



(** X9: with [include_time], a [times] whose length differs from the
    length of [path1] makes [forward] raise [RuntimeError]. *)
Lemma forward_time_length_mismatch (self : logsignature_discrepancy (A:=A) (P:=P)) times x1 x2 h
    B1 L C s2 L0 T Y1 Y2 :
  include_time self = true ->
  tensor h times [L0] T -> tensor h x1 (B1 ++ [L; C]) Y1 -> tensor h x2 s2 Y2 -> L0 <> L ->
  raises (forward self times x1 x2) RuntimeError h.
Proof.
  intros Hit TT T1 T2 Hne. unfold forward.
  apply raises_bind. eapply wp_tensor_shape; [exact T1|].
  apply raises_bind. eapply wp_tensor_shape; [exact T2|].
  cbv beta zeta. rewrite firstn_batch, Hit. apply raises_bind_l.
  apply raises_bind. eapply wp_tensor_unsqueeze; [exact TT|reflexivity|]. intros ha tc Ga TC.
  unfold insert_at in TC. simpl in TC.
  apply raises_bind. eapply wp_tensor_prepend; [exact TC|]. intros hb tc1 Gb TC1.
  apply raises_bind. eapply wp_tensor_prepend; [exact (tensor_grows _ _ _ _ _ Gb TC)|].
  intros hc tc2 Gc TC2. apply raises_bind_l.
  eapply raises_cat_last; [exact (tensor_grows _ _ _ _ _ Gc TC1)| |].
  - apply (tensor_grows _ _ _ _ _ Gc), (tensor_grows _ _ _ _ _ Gb), (tensor_grows _ _ _ _ _ Ga), T1.
  - rewrite !rev_app_distr, rev_involutive. simpl. congruence.
Qed.

(** X14: without time, a [path1] whose [view(-1, L, C)] PyTorch rejects
    (its batch dimensions cannot be merged without a copy) makes [forward]
    raise [RuntimeError]. *)
Lemma forward_view_rejected_raises (self : logsignature_discrepancy (A:=A) (P:=P)) times x1 x2 h
    B1 L1 C1 s2 Y1 Y2 :
  include_time self = false ->
  tensor h x1 (B1 ++ [L1; C1]) Y1 -> tensor h x2 s2 Y2 -> 0 < L1 -> 0 < C1 ->
  ~ view_ok h x1 [numel B1; L1; C1] ->
  raises (forward self times x1 x2) RuntimeError h.
Proof.
  intros Hit T1 T2 HL HC Hno. unfold forward.
  apply raises_bind. eapply wp_tensor_shape; [exact T1|].
  apply raises_bind. eapply wp_tensor_shape; [exact T2|].
  cbv beta zeta. rewrite firstn_batch, Hit.
  apply raises_bind, wp_ret.
  apply raises_bind. eapply wp_tensor_size; [exact T1|apply wrap_neg2|]. rewrite nth_middle.
  apply raises_bind. eapply wp_tensor_size; [exact T1|apply wrap_neg1_2|]. rewrite nth_snoc2_last.
  apply raises_bind_l. eapply raises_tensor_view; [exact T1|apply infer_flat; assumption|exact Hno].
Qed.


Lemma raises_expand_last x S S' Da Db F (h : heap A) :
  tensor h x (S ++ [Db]) F -> Db <> Da -> Db <> 1 ->
  raises (expand x (S' ++ [Da])) RuntimeError h.
Proof.
  intros (m & st & [Om Os] & Sh & L & _) Hne H1. unfold expand.
  apply raises_bind. eapply wp_meta_of; [exact Om|]. apply raises_bind_l.
  enough (E : expand_meta m (S' ++ [Da]) = None) by (rewrite E; apply raises_raise).
  unfold expand_meta. rewrite Sh, !rev_app_distr. cbn [rev app].
  destruct (rev (t_stride m)) as [|st0 sts] eqn:Es.
  - apply (f_equal (@length nat)) in Es. rewrite length_rev, L, length_app in Es. simpl in Es. lia.
  - simpl. apply Nat.eqb_neq in Hne, H1. rewrite Hne, H1. reflexivity.
Qed.



(** X7: without time (paths as in X1), when the logsignature channel
    counts differ and the one of [path2] is not 1, [forward] raises
    [RuntimeError]. *)
Lemma forward_channel_mismatch_raises (self : logsignature_discrepancy (A:=A) (P:=P)) times x1 x2 h
    B1 B2 L1 L2 C1 C2 X1 X2 :
  include_time self = false -> stream_local (logsignature self) ->
  tensor h x1 (B1 ++ [L1; C1]) X1 -> view_ok h x1 [numel B1; L1; C1] ->
  tensor h x2 (B2 ++ [L2; C2]) X2 -> view_ok h x2 [numel B2; L2; C2] ->
  0 < L1 -> 0 < L2 -> 0 < C1 -> 0 < C2 ->
  logsignature_channels (logsignature self) C2 (depth self) <>
    logsignature_channels (logsignature self) C1 (depth self) ->
  logsignature_channels (logsignature self) C2 (depth self) <> 1 ->
  raises (forward self times x1 x2) RuntimeError h.
Proof.
  intros Hit Hloc T1 V1 T2 V2 HL1 HL2 HC1 HC2 Hne H1.
  apply raises_of_ex.
  eapply (forward_prefix self times x1 x2 h B1 B2 L1 L2 C1 C2 C1 C2 X1 X2 X1 X2
            (fun r => exists h', r = inl (RuntimeError, h')));
    [exact Hloc|exact T1|exact T2|exact HL1|exact HL2|exact HC1|exact HC2| |].
  - rewrite Hit. apply wp_ret. split; [apply grows_refl|split; [exact T1|split; [exact V1|split; [exact T2|exact V2]]]].
  - intros h9 w1 w2 G9 W1 W2. apply raises_of_ex.
    apply raises_bind. eapply (wp_tensor_size_last _ (B1 ++ repeat 1 (length B2)));
      [rewrite <- app_assoc; exact W1|].
    apply raises_bind. eapply wp_tensor_expand; [exact W1|apply expand_rel_left|].
    intros h10 e1 G10 E1. apply (tensor_grows _ _ _ _ _ G10) in W2.
    apply raises_bind. eapply (wp_tensor_size_last _ (B1 ++ B2)); [rewrite <- app_assoc; exact E1|].
    apply raises_bind_l. rewrite app_assoc. eapply raises_expand_last; [|exact Hne|exact H1].
    rewrite app_assoc in W2. exact W2.
Qed.

(** X6: without time and pseudometric (paths as in X1), the channel
    counts of the two paths are never compared: when the
    logsignature of [path2] has a single channel, it is broadcast against
    every channel of [path1]'s logsignature. *)
Lemma forward_channel_broadcast (self : logsignature_discrepancy (A:=A) (P:=P)) times x1 x2 h
    B1 B2 L1 L2 C1 C2 X1 X2 :
  include_time self = false -> pseudometric self = false -> stream_local (logsignature self) ->
  tensor h x1 (B1 ++ [L1; C1]) X1 -> view_ok h x1 [numel B1; L1; C1] ->
  tensor h x2 (B2 ++ [L2; C2]) X2 -> view_ok h x2 [numel B2; L2; C2] ->
  0 < L1 -> 0 < L2 -> 0 < C1 -> 0 < C2 ->
  logsignature_channels (logsignature self) C2 (depth self) = 1 ->
  wp (forward self times x1 x2) (fun r h' =>
    grows (h_next h) h h' /\ option_map t_shape (h_tensors h' !! r) = Some (B1 ++ B2) /\
    forall i j, in_bounds i B1 -> in_bounds j B2 ->
      value_at h' r (i ++ j) = Some (p_norm (p self) (map (fun k =>
        s_sub (logsignature_stream (logsignature self) (depth self) L1 C1 (fun l c => X1 (i ++ [l; c])) k)
              (logsignature_stream (logsignature self) (depth self) L2 C2 (fun l c => X2 (j ++ [l; c])) 0))
        (seq 0 (logsignature_channels (logsignature self) C1 (depth self)))))) h.
Proof.
  intros Hit Hpm Hloc T1 V1 T2 V2 HL1 HL2 HC1 HC2 Hd.
  eapply (forward_run_gen self times x1 x2 h B1 B2 L1 L2 C1 C2 C1 C2 X1 X2 X1 X2);
    [exact Hloc|exact T1|exact T2|exact HL1|exact HL2|exact HC1|exact HC2
    |right; exact Hd| |].
  { rewrite Hit. apply wp_ret. split; [apply grows_refl|split; [exact T1|split; [exact V1|split; [exact T2|exact V2]]]]. }
  intros h' d G T. rewrite Hpm. apply wp_bind, wp_ret.
  eapply wp_tensor_norm_last; [rewrite app_assoc in T; exact T|]. intros h'' r G' R.
  split; [eapply grows_chain; eassumption|]. split; [exact (ctensor_shape _ _ _ _ R)|].
  intros i j Hi Hj. rewrite (ctensor_value _ _ _ _ _ R (in_bounds_pair _ _ _ _ Hi Hj)).
  do 2 f_equal. apply map_ext. intros k.
  destruct (pair_index i j B1 B2 k (in_bounds_length _ _ Hi) (in_bounds_length _ _ Hj))
    as (E1 & E2 & E3).
  rewrite E1, E2, E3, Hd. reflexivity.
Qed.

End Fwd.

Section Diag.
Context {A P : Type} `{Scalar A} `{PNorm P A}.

(** X5: without time and pseudometric, comparing a batched path (whose
    [view(-1, L, C)] is accepted) with itself gives 0 at every diagonal entry [i ++ i] (when [a - a = 0] and
    the norm of a zero vector is 0). *)
Lemma forward_same_path_diagonal_zero (self : logsignature_discrepancy (A:=A) (P:=P)) times x h B L C X :
  include_time self = false -> pseudometric self = false -> stream_local (logsignature self) ->
  (forall a, s_sub a a = s_zero) -> (forall n, p_norm (p self) (repeat s_zero n) = s_zero) ->
  tensor h x (B ++ [L; C]) X -> view_ok h x [numel B; L; C] -> 0 < L -> 0 < C ->
  wp (forward self times x x) (fun r h' =>
    forall i, in_bounds i B -> value_at h' r (i ++ i) = Some s_zero) h.
Proof.
  intros Hit Hpm Hloc Hsub Hn T V HL HC.
  eapply (forward_run self times x x h B B L L C C C X X X X);
    [exact Hloc|exact T|exact T|exact HL|exact HL|exact HC| |].
  { rewrite Hit. apply wp_ret. split; [apply grows_refl|split; [exact T|split; [exact V|split; [exact T|exact V]]]]. }
  intros h' d G T'. rewrite Hpm. apply wp_bind, wp_ret.
  eapply wp_tensor_norm_last; [rewrite app_assoc in T'; exact T'|]. intros h'' r G' R.
  intros i Hi. rewrite (ctensor_value _ _ _ _ _ R (in_bounds_pair _ _ _ _ Hi Hi)).
  f_equal. rewrite <- (Hn (length (seq 0 (logsignature_channels (logsignature self) C (depth self))))).
  f_equal. rewrite <- map_const. apply map_ext. intros k.
  destruct (pair_index i i B B k (in_bounds_length _ _ Hi) (in_bounds_length _ _ Hi))
    as (E1 & E2 & E3).
  rewrite E1, E2, E3. apply Hsub.
Qed.
End Diag.

End ForwardExec.

(** ** Runs on concrete inputs *)
Module ConcreteRun.
Import Frame FrameFacts ShapeFacts Run RunOps Logsig LogsigRun HeapFacts.
Import ShapeMore TensorRun BatchRun ForwardExec Concrete.

Lemma heap_of_obj {A} (dflt : A) ts n k s d :
  nth_error ts k = Some (s, d) ->
  h_tensors (heap_of dflt ts n) !! (n + k) = Some (TensorMeta s (contiguous_strides s) 0 (n + k)) /\
  h_storages (heap_of dflt ts n) !! (n + k) = Some (fun j => nth j d dflt).
Proof.
  revert n k. induction ts as [|[s0 d0] ts IH]; intros n k Hk; [destruct k; discriminate|].
  destruct k as [|k]; simpl in Hk.
  - injection Hk as -> ->. simpl. rewrite Nat.add_0_r. split; apply lookup_insert_eq.
  - destruct (IH (S n) k Hk) as [H1 H2]. simpl. replace (n + S k) with (S n + k) by lia.
    rewrite !lookup_insert_ne by lia. split; assumption.
Qed.

Lemma heap_of_ctensor {A} (dflt : A) ts n k s d :
  nth_error ts k = Some (s, d) ->
  ctensor (heap_of dflt ts n) (n + k) s (fun idx => nth (dot idx (contiguous_strides s)) d dflt).
Proof.
  intros Hk. destruct (heap_of_obj dflt ts n k s d Hk) as [H1 H2].
  assert (k < length ts) by (apply nth_error_Some; congruence).
  exists (TensorMeta s (contiguous_strides s) 0 (n + k)), (fun j => nth j d dflt).
  split; [split; assumption|]. simpl. rewrite heap_of_next.
  repeat split; try lia; intros idx _; reflexivity.
Qed.

Lemma increment_signatory_local : stream_local increment_signatory.
Proof.
  intros depth l c x y k Hxy. simpl.
  destruct ((k <? c) && (0 <? l)) eqn:E; [|reflexivity].
  apply andb_true_iff in E as [E1 E2]. apply Nat.ltb_lt in E1, E2.
  rewrite !Hxy by lia. reflexivity.
Qed.

Lemma meta_tensor {A} (h : heap A) x m st s :
  h_tensors h !! x = Some m -> h_storages h !! t_storage m = Some st ->
  x < h_next h -> t_storage m < h_next h -> t_shape m = s -> length (t_stride m) = length s ->
  tensor h x s (fun idx => st (t_offset m + dot idx (t_stride m))).
Proof.
  intros Om Os Bx Bs Sh L. exists m, st. split; [split; assumption|].
  do 4 (split; [assumption|]). intros; reflexivity.
Qed.

Ltac meta_obj :=
  eapply meta_tensor; [reflexivity|reflexivity|vm_compute; lia|vm_compute; lia|reflexivity|reflexivity].

Ltac heap_obj :=
  lazymatch goal with
  | |- ctensor _ ?x _ _ =>
      unfold heap_batch2, heap_batch23, heap_chan, heap_lin;
      eapply (heap_of_ctensor _ _ 0 x); reflexivity
  | |- tensor _ ?x _ _ => apply ctensor_tensor; heap_obj
  | |- view_ok _ ?x _ => eapply ctensor_view_ok; [heap_obj|reflexivity]
  end.

Lemma forward_identity_pairwise_witness :
  wp (forward ld_plain 0 1 1) (fun r h' => value_at h' r [0; 1] = Some 2%Z) heap_batch2.
Proof.
  eapply wp_mono.
  - eapply (forward_identity_pairwise ld_plain 0 1 1 heap_batch2 [2] [2] 2 2 1);
      [reflexivity|reflexivity|exact increment_signatory_local|heap_obj|heap_obj|heap_obj|heap_obj
      |lia|lia|lia].
  - intros r h' (_ & _ & Hv).
    etransitivity; [apply (Hv [0] [1]); repeat constructor; lia|]. reflexivity.
Defined.

Lemma forward_diagonal_pairwise_witness :
  wp (forward ld_diag 0 1 1) (fun r h' => value_at h' r [0; 1] = Some 4%Z) heap_lin.
Proof.
  eapply wp_mono.
  - eapply (forward_diagonal_pairwise ld_diag 0 1 1 heap_lin [2] [2] 2 2 1 _ _ 2);
      [reflexivity|reflexivity|reflexivity|reflexivity|exact increment_signatory_local
      |heap_obj|heap_obj|heap_obj|heap_obj|heap_obj|lia|lia|lia].
  - intros r h' (_ & _ & Hv).
    etransitivity; [apply (Hv [0] [1]); repeat constructor; lia|]. reflexivity.
Defined.

Lemma forward_general_pairwise_witness :
  wp (forward ld_general 0 1 1) (fun r h' => value_at h' r [0; 1] = Some 6%Z) heap_lin.
Proof.
  eapply wp_mono.
  - eapply (forward_general_pairwise ld_general 0 1 1 heap_lin [2] [2] 2 2 1 _ _ 3 1);
      [reflexivity|reflexivity|reflexivity|reflexivity|exact increment_signatory_local
      |heap_obj|heap_obj|heap_obj|heap_obj|heap_obj|lia|lia|lia].
  - intros r h' (_ & _ & Hv).
    etransitivity; [apply (Hv [0] [1]); repeat constructor; lia|]. reflexivity.
Defined.

Lemma forward_time_pairwise_witness :
  wp (forward ld_time 0 1 1) (fun r h' => value_at h' r [0; 1] = Some 2%Z) heap_batch2.
Proof.
  eapply wp_mono.
  - eapply (forward_time_pairwise ld_time 0 1 1 heap_batch2 [2] [2] 2 1);
      [reflexivity|reflexivity|exact increment_signatory_local|reflexivity|reflexivity
      |heap_obj|heap_obj|heap_obj|lia].
  - intros r h' (_ & _ & Hv).
    etransitivity; [apply (Hv [0] [1]); repeat constructor; lia|]. reflexivity.
Defined.

Lemma init_linear_shape_witness :
  wp (init (Some increment_signatory) rand0 1 1 1 false true "general")
    (fun self h' => linear self = Some 2 /\ option_map t_shape (h_tensors h' !! 2) = Some [1; 1])
    heap_batch2.
Proof.
  eapply wp_mono.
  - apply (init_linear_shape increment_signatory rand0 1 1 1 false true "general" heap_batch2).
    reflexivity.
  - intros self h' Hs. cbv beta in Hs. destruct (linear self) as [lin|]; [|destruct Hs; discriminate].
    destruct Hs as (_ & -> & _ & _ & Ct). split; [reflexivity|]. exact (ctensor_shape _ _ _ _ Ct).
Defined.

Lemma init_forward_shape_witness :
  wp (let! self := init (Some increment_signatory) rand0 1 1 1 false true "general" in
      forward self 0 1 1)
    (fun r h' => option_map t_shape (h_tensors h' !! r) = Some [2; 2]) heap_batch2.
Proof.
  eapply wp_mono.
  - eapply (init_forward_shape increment_signatory rand0 1 1 1 false true "general" 0 1 1
      heap_batch2 [2] [2] 2 2);
      [reflexivity|exact increment_signatory_local|heap_obj|heap_obj|lia|lia|lia|discriminate
      |intros _; split; heap_obj].
  - intros r h' (_ & Sh). exact Sh.
Defined.


Lemma forward_time_length_mismatch_witness :
  raises (forward ld_time 4 1 1) RuntimeError heap_chan.
Proof.
  eapply (forward_time_length_mismatch ld_time 4 1 1 heap_chan [] 2 1 [2; 1] 3);
    [reflexivity|heap_obj|heap_obj|heap_obj|lia].
Defined.

Lemma forward_channel_mismatch_raises_witness :
  raises (forward ld_plain 0 3 2) RuntimeError heap_chan.
Proof.
  eapply (forward_channel_mismatch_raises ld_plain 0 3 2 heap_chan [] [] 2 2 3 2);
    [reflexivity|exact increment_signatory_local|heap_obj|heap_obj|heap_obj|heap_obj|lia|lia|lia|lia
    |simpl; lia|simpl; lia].
Defined.

Lemma forward_channel_broadcast_witness :
  wp (forward ld_plain 0 2 1) (fun r h' => value_at h' r [] = Some 7%Z) heap_chan.
Proof.
  eapply wp_mono.
  - eapply (forward_channel_broadcast ld_plain 0 2 1 heap_chan [] [] 2 2 2 1);
      [reflexivity|reflexivity|exact increment_signatory_local|heap_obj|heap_obj|heap_obj|heap_obj
      |lia|lia|lia|lia|reflexivity].
  - intros r h' (_ & _ & Hv).
    etransitivity; [apply (Hv [] []); constructor|]. reflexivity.
Defined.

Lemma forward_same_path_diagonal_zero_witness :
  wp (forward ld_plain 0 1 1) (fun r h' => value_at h' r [1; 1] = Some 0%Z) heap_batch2.
Proof.
  eapply wp_mono.
  - eapply (forward_same_path_diagonal_zero ld_plain 0 1 heap_batch2 [2] 2 1);
      [reflexivity|reflexivity|exact increment_signatory_local|exact Z.sub_diag
      |intros n; induction n as [|n IHn]; [reflexivity|exact IHn]
      |heap_obj|heap_obj|lia|lia].
  - intros r h' Hv. apply (Hv [1]). repeat constructor; lia.
Defined.


Lemma forward_view_rejected_raises_witness :
  raises (forward ld_plain 0 1 1) RuntimeError heap_swap.
Proof.
  eapply (forward_view_rejected_raises ld_plain 0 1 1 heap_swap [2; 2] 2 1 [2; 2; 2; 1]);
    [reflexivity|meta_obj|meta_obj|lia|lia|].
  intros (m & Hm & Hc). vm_compute in Hm. injection Hm as <-. apply Hc. vm_compute. reflexivity.
Defined.


End ConcreteRun.

(** ** What [extra_repr] prints *)
Module ReprFacts.
Import Stdlib.Strings.Ascii.

Lemma pretty_N_go_no_comma x s : no_comma s = true -> no_comma (pretty_N_go x s) = true.
Proof.
  revert s. induction (N.lt_wf_0 x) as [x _ IH]; intros s Hs.
  destruct (decide (x = 0)%N) as [->|Hx]; [rewrite pretty_N_go_0; exact Hs|].
  rewrite pretty_N_go_step by lia. apply IH; [apply N.div_lt; lia|].
  simpl. rewrite Hs, andb_true_r. unfold pretty_N_char. repeat case_match; reflexivity.
Qed.

Lemma py_int_no_comma n : no_comma (py_int n) = true.
Proof.
  unfold py_int, pretty, pretty_nat, pretty, pretty_N. case_decide; [reflexivity|].
  apply pretty_N_go_no_comma. reflexivity.
Qed.

Lemma py_bool_no_comma b : no_comma (py_bool b) = true.
Proof. destruct b; reflexivity. Qed.

Lemma py_int_inj m n : py_int m = py_int n -> m = n.
Proof. apply pretty_nat_inj. Qed.

Lemma py_bool_inj a b : py_bool a = py_bool b -> a = b.
Proof. destruct a, b; simpl; congruence. Qed.

Lemma split_comma u v r1 r2 :
  no_comma u = true -> no_comma v = true ->
  u +:+ String "," r1 = v +:+ String "," r2 -> u = v /\ r1 = r2.
Proof.
  revert v. induction u as [|a u IH]; intros [|b v] Hu Hv E; simpl in *.
  - injection E; auto.
  - injection E as <- _. discriminate.
  - injection E as -> _. rewrite Ascii.eqb_refl in Hu. discriminate.
  - injection E as <- E. apply andb_true_iff in Hu as [_ Hu]. apply andb_true_iff in Hv as [_ Hv].
    destruct (IH v Hu Hv E) as [-> ->]. auto.
Qed.

Lemma append_cancel_l (u r1 r2 : string) : u +:+ r1 = u +:+ r2 -> r1 = r2.
Proof. induction u as [|a u IH]; simpl; [auto|]. intros E. injection E. exact IH. Qed.

(** X12: the repr of an [L2Discrepancy] determines [in_channels] and
    [pseudometric] and nothing else: two modules print the same exactly
    when these agree, whatever their [metric_type] and [arg]. *)
Lemma l2_extra_repr_eq a b :
  L2.extra_repr a = L2.extra_repr b <->
  L2.in_channels a = L2.in_channels b /\ L2.pseudometric a = L2.pseudometric b.
Proof.
  split; [|intros [Ea Eb]; unfold L2.extra_repr; rewrite Ea, Eb; reflexivity].
  unfold L2.extra_repr. intros E. apply append_cancel_l in E.
  apply split_comma in E as [E1 E2]; [|apply py_int_no_comma|apply py_int_no_comma].
  apply append_cancel_l with (u := " pseudometric=") in E2.
  split; [apply py_int_inj, E1|apply py_bool_inj, E2].
Qed.

Section ReprLogsig.
Context {A P : Type} `{Scalar A} `{PNorm P A}.
(** X13: when [str(p)] never contains a comma, the repr of a
    [LogsignatureDiscrepancy] determines [in_channels], [depth], [str(p)],
    [include_time], [pseudometric] and [metric_type]. *)
Lemma extra_repr_determines (fmt_p : P -> string) (a b : Logsig.logsignature_discrepancy (A:=A) (P:=P)) :
  (forall q, no_comma (fmt_p q) = true) ->
  Logsig.extra_repr fmt_p a = Logsig.extra_repr fmt_p b ->
  Logsig.in_channels a = Logsig.in_channels b /\ Logsig.depth a = Logsig.depth b /\
  fmt_p (Logsig.p a) = fmt_p (Logsig.p b) /\
  Logsig.include_time a = Logsig.include_time b /\ Logsig.pseudometric a = Logsig.pseudometric b /\
  Logsig.metric_type a = Logsig.metric_type b.
Proof.
  intros Hp E. unfold Logsig.extra_repr in E. apply append_cancel_l in E.
  apply split_comma in E as [E1 E]; [|apply py_int_no_comma|apply py_int_no_comma].
  apply append_cancel_l with (u := " depth=") in E.
  apply split_comma in E as [E2 E]; [|apply py_int_no_comma|apply py_int_no_comma].
  apply append_cancel_l with (u := " p=") in E.
  apply split_comma in E as [E3 E]; [|apply Hp|apply Hp].
  apply append_cancel_l with (u := " include_time=") in E.
  apply split_comma in E as [E4 E]; [|apply py_bool_no_comma|apply py_bool_no_comma].
  apply append_cancel_l with (u := " pseudometric=") in E.
  apply split_comma in E as [E5 E]; [|apply py_bool_no_comma|apply py_bool_no_comma].
  apply append_cancel_l with (u := " pseudometric_type=") in E.
  repeat split; auto using py_int_inj, py_bool_inj.
Qed.
End ReprLogsig.

(** The repr ignores [linear] and the signatory library. *)
Lemma extra_repr_determines_witness :
  Logsig.extra_repr py_int Concrete.ld_time =
    Logsig.extra_repr py_int (Logsig.LogsignatureDiscrepancy 1 1 1 true false "general" (Some 5)
                                Concrete.increment_signatory) /\
  Logsig.metric_type Concrete.ld_time = "general".
Proof.
  split; [reflexivity|].
  apply (extra_repr_determines py_int Concrete.ld_time
    (Logsig.LogsignatureDiscrepancy 1 1 1 true false "general" (Some 5) Concrete.increment_signatory));
    [exact py_int_no_comma|reflexivity].
Defined.

End ReprFacts.
